(** * Anchoring and annotation engine, similarity retriever: a shallow embedding

    Embedded sources:
    - [app/models/schemas.py]           (IssueEvidence, IssueItem)
    - [app/services/retriever.py]       (FaissRetriever)
    - [app/agents/compliance_checker.py] (cite, _heuristic_issues, check_compliance)
    - [app/agents/docx_annotator.py]    (anchoring strategies, annotate_docx)
    - [app/services/rag_indexer.py]     (_infer_source_url, _chunk_text, load_reference_files,
                                         ingest_references)
    - [app/services/chains.py]          (lc_classify_doc, lc_detect_process)
    - [app/agents/process_identifier.py] (detect_process, detect_process_from_texts)
    - [app/agents/doc_intake.py]        (_classify, run_doc_intake)
    - [app/workflows/corporate_agent_graph.py] (the four nodes, run_workflow up to the checklist)

    Conventions of the embedding.
    - A Python [str] is a [string]; a character is one [ascii], and
      [str.lower] is the lower-casing of the letters A-Z.
    - A Python exception is a value of [PyErr]; a function that may raise
      returns a [result].
    - An embedding is an array of [numpy.float32]: a number of the Standard
      Library's specification of IEEE 754 arithmetic ([SpecFloat]) at
      precision 24. The products and the sum of the semantic strategy round
      as numpy computes them (round to nearest even, pairwise summation). A
      Python [float] is given by its value ([Np.PyFloat]: a rational, an
      infinity or NaN), and [>] and [>=] compare values. The scores the
      vector index returns are only passed on, as rationals of [Qc].
    - Everything the code obtains from outside (embedding model, vector
      index, language model, file system, clock) is a field of [World]; what
      the indexer, the chains, the intake and the workflow obtain beside is
      a field of [Indexer.Sources] or of [Chains.Host].
    - A loop that need not end ([_chunk_text]) takes fuel, one unit per test
      of its condition, and answers [None] when the fuel is spent. *)

From Stdlib Require Import QArith Qcanon Ascii String SpecFloat.
From stdpp Require Import gmap strings list sorting pretty.

Local Open Scope string_scope.
Local Open Scope list_scope.
Local Open Scope stdpp_scope.

(** ** Python primitives on strings *)
Module Py.

(** Exceptions the embedded code can raise. *)
Inductive PyErr : Type :=
| RuntimeError (msg : string)
| FileNotFoundError (path : string)
| PermissionError (path : string)
| IndexError
| KeyError (key : string)
| ValueError
| OtherError (msg : string).

Inductive result (A : Type) : Type :=
| Ok (a : A)
| Err (e : PyErr).
Arguments Ok {A} a.
Arguments Err {A} e.

Definition bind {A B} (r : result A) (k : A -> result B) : result B :=
  match r with
  | Ok a => k a
  | Err e => Err e
  end.

(** Truthiness of a [str]: non-empty. *)
Definition truthy (s : string) : bool :=
  match s with
  | EmptyString => false
  | String _ _ => true
  end.

Definition lower_ascii (c : ascii) : ascii :=
  let n := nat_of_ascii c in
  if (65 <=? n)%nat && (n <=? 90)%nat then ascii_of_nat (n + 32) else c.

(** [s.lower()] *)
Fixpoint lower (s : string) : string :=
  match s with
  | EmptyString => EmptyString
  | String c s' => String (lower_ascii c) (lower s')
  end.

(** [s[:n]] *)
Fixpoint take_str (n : nat) (s : string) : string :=
  match n, s with
  | S n', String c s' => String c (take_str n' s')
  | _, _ => EmptyString
  end.

(** [s.startswith(pre)] *)
Fixpoint startswith (pre s : string) : bool :=
  match pre, s with
  | EmptyString, _ => true
  | String a pre', String b s' => if Ascii.eqb a b then startswith pre' s' else false
  | String _ _, EmptyString => false
  end.

(** [needle in hay] *)
Fixpoint contains (needle hay : string) : bool :=
  startswith needle hay ||
  match hay with
  | EmptyString => false
  | String _ hay' => contains needle hay'
  end.

(** [str(n)] for an [int]. *)
Definition str_of_Z (z : Z) : string := pretty z.
Definition str_of_nat (n : nat) : string := pretty n.

(** [sep.join(parts)] *)
Fixpoint join (sep : string) (parts : list string) : string :=
  match parts with
  | [] => EmptyString
  | [p] => p
  | p :: rest => p +:+ sep +:+ join sep rest
  end.

(** [os.path.basename] (POSIX): what follows the last slash. *)
Fixpoint basename_go (acc s : string) : string :=
  match s with
  | EmptyString => acc
  | String c s' => if Ascii.eqb c "/"%char then basename_go s' s' else basename_go acc s'
  end.
Definition basename (p : string) : string := basename_go p p.

(** [os.path.splitext] on a base name: the extension starts at the last dot
    that is preceded by a character other than a dot. *)
Fixpoint last_dot (seen_nondot : bool) (i : nat) (s : string) : option nat :=
  match s with
  | EmptyString => None
  | String c s' =>
      let here := if Ascii.eqb c "."%char && seen_nondot then Some i else None in
      let seen := seen_nondot || negb (Ascii.eqb c "."%char) in
      match last_dot seen (S i) s' with
      | Some j => Some j
      | None => here
      end
  end.

Fixpoint drop_str (n : nat) (s : string) : string :=
  match n, s with
  | S n', String _ s' => drop_str n' s'
  | _, _ => s
  end.

Definition splitext (base : string) : string * string :=
  match last_dot false 0 base with
  | Some i => (take_str i base, drop_str i base)
  | None => (base, EmptyString)
  end.

(** [os.path.join(a, b)] (POSIX). *)
Definition path_join (a b : string) : string :=
  if startswith "/" b then b
  else if negb (truthy a) then b
  else if String.eqb (drop_str (String.length a - 1) a) "/" then a +:+ b
  else a +:+ "/" +:+ b.

(** [xs[i]] for a sequence of length [n] and an [int] [i]: the position read.
    Negative positions count from the end, positions outside raise
    [IndexError]. *)
Definition py_pos (n : nat) (i : Z) : result nat :=
  let j := if (i <? 0)%Z then (Z.of_nat n + i)%Z else i in
  if (j <? 0)%Z || (Z.of_nat n <=? j)%Z then Err IndexError else Ok (Z.to_nat j).

Definition py_index {A} (l : list A) (i : Z) : result A :=
  bind (py_pos (length l) i) (fun j =>
  match l !! j with
  | Some a => Ok a
  | None => Err IndexError
  end).

(** [c.isspace()] for one character: the code points 9 to 13, 28 to 32,
    133 and 160 are the white space below 256. *)
Definition is_space (c : ascii) : bool :=
  let n := nat_of_ascii c in
  ((9 <=? n)%nat && (n <=? 13)%nat) || ((28 <=? n)%nat && (n <=? 32)%nat)
  || (n =? 133)%nat || (n =? 160)%nat.

Fixpoint lstrip (s : string) : string :=
  match s with
  | EmptyString => EmptyString
  | String c s' => if is_space c then lstrip s' else s
  end.

Fixpoint rstrip (s : string) : string :=
  match s with
  | EmptyString => EmptyString
  | String c s' =>
      let r := rstrip s' in
      if is_space c && negb (truthy r) then EmptyString else String c r
  end.

(** [s.strip()] *)
Definition strip (s : string) : string := rstrip (lstrip s).

(** [xs[0]] *)
Definition first {A} (l : list A) : result A :=
  match l with
  | a :: _ => Ok a
  | [] => Err IndexError
  end.

End Py.

(** ** [app/models/schemas.py] *)
Module Schemas.

Record IssueEvidence : Type := {
  ref_id : string;
  snippet : string;
  source_url : option string;
}.

Record IssueItem : Type := {
  document : string;
  section : string;
  issue : string;
  severity : string;
  evidence : list IssueEvidence;
  suggestion : option string;
  source_filename : option string;
  category : option string;
  groundedness : option Qc;
  suggestion_long : option string;
}.

#[export] Instance IssueEvidence_eq_dec : EqDecision IssueEvidence.
Proof. solve_decision. Defined.
#[export] Instance IssueItem_eq_dec : EqDecision IssueItem.
Proof. solve_decision. Defined.

End Schemas.

(** ** The document container, as python-docx presents it *)
Module Docx.

(** A run [w:r]: its text and the character formatting the annotator sets.
    [r_comment_ref] is the id of a [w:commentReference] child,
    [r_page_break] says that the run holds a page break. *)
Record Run : Type := {
  r_text : string;
  r_bold : bool;
  r_italic : bool;
  r_highlight_yellow : bool;
  r_color_red : bool;
  r_page_break : bool;
  r_comment_ref : option Z;
}.

Definition plain_run (t : string) : Run :=
  {| r_text := t; r_bold := false; r_italic := false; r_highlight_yellow := false;
     r_color_red := false; r_page_break := false; r_comment_ref := None |}.

(** Children of a paragraph element [w:p], in document order. *)
Inductive PChild : Type :=
| CommentRangeStart (id : Z)
| CommentRangeEnd (id : Z)
| RunEl (r : Run).

Inductive Style : Type :=
| Normal
| Heading (level : nat).

Record Paragraph : Type := {
  p_style : Style;
  p_children : list PChild;
}.

(** [paragraph.runs] *)
Definition runs (p : Paragraph) : list Run :=
  omap (fun c => match c with RunEl r => Some r | _ => None end) (p_children p).

(** [paragraph.text]: the run texts, concatenated. *)
Definition text (p : Paragraph) : string :=
  foldr (fun r acc => r_text r +:+ acc) EmptyString (runs p).

(** The [w:id] attribute of a stored comment, read the way [_add_word_comment]
    reads it: absent ([None]), or a string on which [int()] returns [z]
    ([IdInt z]), or a string on which [int()] raises ([IdBad s]). *)
Inductive IdAttr : Type :=
| IdInt (z : Z)
| IdBad (s : string).

(** A [w:comment] element of the comment store. *)
Record Comment : Type := {
  c_id : option IdAttr;
  c_author : string;
  c_initials : string;
  c_body : string;
}.

(** A document: the body paragraphs ([doc.paragraphs]), the comment store
    ([w:comments], [None] when the package has no comments part), whether
    a missing comments part can be created in this installation of
    python-docx (what [_get_comments_part] attempts), and the styles part as
    a paragraph meets it: [style_error name] is what the assignment
    [paragraph.style = name] raises, [None] when the document defines a
    paragraph style of this name, [KeyError] when it defines no style of
    this name. *)
Record Document : Type := {
  paragraphs : list Paragraph;
  comments : option (list Comment);
  can_create_comments : bool;
  style_error : string -> option Py.PyErr;
}.

(** [paragraph.add_run(text)] *)
Definition add_run (r : Run) (p : Paragraph) : Paragraph :=
  {| p_style := p_style p; p_children := p_children p ++ [RunEl r] |}.

(** [doc.add_paragraph(text)]: a new last paragraph, with one run when the
    text is non-empty. *)
Definition new_paragraph (st : Style) (t : string) : Paragraph :=
  {| p_style := st;
     p_children := if Py.truthy t then [RunEl (plain_run t)] else [] |}.

Definition append_paragraph (p : Paragraph) (d : Document) : Document :=
  {| paragraphs := paragraphs d ++ [p];
     comments := comments d;
     can_create_comments := can_create_comments d;
     style_error := style_error d |}.

Definition add_paragraph (t : string) (d : Document) : Document :=
  append_paragraph (new_paragraph Normal t) d.

(** The style name [add_heading] asks for: ["Title" if level == 0 else
    "Heading %d" % level]. *)
Definition heading_name (level : nat) : string :=
  if (level =? 0)%nat then "Title" else "Heading " +:+ Py.str_of_nat level.

(** [doc.add_heading(text, level)]: a level above 9 raises [ValueError];
    otherwise the paragraph is added with the style of that name, and the
    assignment of the style raises when the document does not define it
    (the exception leaves [annotate_docx] before anything is saved). *)
Definition add_heading (t : string) (level : nat) (d : Document) : Py.result Document :=
  if (9 <? level)%nat then Py.Err Py.ValueError
  else
    match style_error d (heading_name level) with
    | Some e => Py.Err e
    | None => Py.Ok (append_paragraph (new_paragraph (Heading level) t) d)
    end.

(** [doc.add_page_break()] *)
Definition page_break_paragraph : Paragraph :=
  {| p_style := Normal;
     p_children := [RunEl {| r_text := EmptyString; r_bold := false; r_italic := false;
                             r_highlight_yellow := false; r_color_red := false;
                             r_page_break := true; r_comment_ref := None |}] |}.

Definition add_page_break (d : Document) : Document :=
  append_paragraph page_break_paragraph d.

End Docx.

(** ** numpy's float32 arithmetic, Python's floats *)
Module Np.

(** A [numpy.float32]: a binary32 number of IEEE 754, in the Standard
    Library's specification of floating-point arithmetic at precision 24 and
    exponent bound 128. [S754_finite s m e] is the number [m * 2^e], negated
    when [s] holds. *)
Definition float32 : Type := spec_float.

(** [x * y] and [x + y] on float32: the exact result, rounded to the
    nearest float32, ties to even. *)
Definition mul32 (x y : float32) : float32 := SFmul 24 128 x y.
Definition add32 (x y : float32) : float32 := SFadd 24 128 x y.

Definition zero32 : float32 := S754_zero false.

(** The summation loop of [numpy.add.reduce] over a contiguous float32
    array ([FLOAT_pairwise_sum]). Fewer than 8 elements are added from left
    to right. Up to 128 elements go to eight accumulators, element [i] to
    accumulator [i mod 8]; the accumulators are added as a balanced tree,
    and the elements after the last full block of eight are added to the
    result one by one. A longer array is cut at the multiple of 8 next below
    its middle, and the sums of the two parts are added. *)
Fixpoint add_blocks (r a : list float32) (blocks : nat) : list float32 :=
  match blocks with
  | O => r
  | S k => add_blocks (zip_with add32 r (take 8 a)) (drop 8 a) k
  end.

Definition tree8 (r : list float32) : float32 :=
  match r with
  | [r0; r1; r2; r3; r4; r5; r6; r7] =>
      add32 (add32 (add32 r0 r1) (add32 r2 r3)) (add32 (add32 r4 r5) (add32 r6 r7))
  | _ => zero32   (* not reached: there are eight accumulators *)
  end.

Definition block_sum (a : list float32) : float32 :=
  let n := length a in
  let r := add_blocks (take 8 a) (drop 8 a) (n / 8 - 1)%nat in
  foldl add32 (tree8 r) (drop (n - n mod 8)%nat a).

(** [depth] bounds the depth of the recursion; the length of the array is
    enough, since every cut halves it. *)
Fixpoint pairwise_sum (depth : nat) (a : list float32) : float32 :=
  let n := length a in
  if (n <? 8)%nat then foldl add32 zero32 a
  else if (n <=? 128)%nat then block_sum a
  else
    match depth with
    | O => block_sum a   (* not reached *)
    | S depth =>
        let n2 := (n / 2 - (n / 2) mod 8)%nat in
        add32 (pairwise_sum depth (take n2 a)) (pairwise_sum depth (drop n2 a))
    end.

(** [a * b] for two one-dimensional arrays: element by element when the
    lengths agree, a length-one array is broadcast, any other pair of
    lengths raises. *)
Definition multiply (a b : list float32) : Py.result (list float32) :=
  if (length a =? length b)%nat then Py.Ok (zip_with mul32 a b)
  else match a, b with
       | [x], _ => Py.Ok (mul32 x <$> b)
       | _, [y] => Py.Ok ((fun x => mul32 x y) <$> a)
       | _, _ => Py.Err Py.ValueError
       end.

(** [arr.sum()] of a one-dimensional float32 array: the reduction starts
    from the identity 0 and adds the pairwise sum of the elements. *)
Definition sum (a : list float32) : float32 := add32 zero32 (pairwise_sum (length a) a).

(** A Python [float] (a binary64), by its value. *)
Inductive PyFloat : Type :=
| Real (q : Qc)
| Infinity (negative : bool)
| NotANumber.

(** [m * 2^e] *)
Definition dyadic (m e : Z) : Qc :=
  Q2Qc (match e with
        | Zneg p => Qmake m (2 ^ p)%positive
        | _ => inject_Z (m * 2 ^ e)%Z
        end).

(** [float(x)] for a float32 [x]: every float32 is a binary64, the value is
    kept. *)
Definition float (x : float32) : PyFloat :=
  match x with
  | S754_zero _ => Real (Q2Qc 0)
  | S754_infinity s => Infinity s
  | S754_nan => NotANumber
  | S754_finite s m e => Real (dyadic (if s then Zneg m else Zpos m) e)
  end.

(** [a < b] and [a <= b] on Python floats: false when an operand is NaN. *)
Definition lt (a b : PyFloat) : bool :=
  match a, b with
  | NotANumber, _ | _, NotANumber => false
  | Real x, Real y => bool_decide (x < y)%Qc
  | _, Infinity true => false
  | Infinity true, _ => true
  | Infinity false, _ => false
  | Real _, Infinity false => true
  end.

Definition le (a b : PyFloat) : bool :=
  match a, b with
  | NotANumber, _ | _, NotANumber => false
  | Real x, Real y => bool_decide (x <= y)%Qc
  | Infinity true, _ => true
  | _, Infinity true => false
  | _, Infinity false => true
  | Infinity false, Real _ => false
  end.

End Np.

(** ** What the code obtains from outside *)
Module Env.
Import Py Schemas Docx.

(** An embedding vector: a row of the float32 array [embed_texts] returns. *)
Definition vec : Type := list Np.float32.

(** A loaded FAISS index. [ix_search q k] is [index.search(q, k)] for a batch
    [q] of query vectors: one row of scores and one row of positions per
    query, a position being -1 where the index has no further vector. *)
Record FaissIndex : Type := {
  ntotal : nat;
  ix_search : list vec -> nat -> result (list (list Qc) * list (list Z));
}.

(** One entry of [meta.json]; a field is [None] when its key is missing. *)
Record Meta : Type := {
  m_source_path : option string;
  m_chunk_index : option Z;
  m_title : option string;
  m_source_url : option string;
}.

(** A file on disk, by what reading it yields. *)
Inductive File : Type :=
| FaissFile (ix : FaissIndex)
| ChunksJson (chunks : list string)
| MetaJson (meta : list Meta)
| OtherFile.

(** JSON values, as [json.loads] returns them. *)
#[local] Unset Elimination Schemes.
Inductive Json : Type :=
| JNull
| JBool (b : bool)
| JInt (z : Z)
| JFloat (q : Qc)
| JStr (s : string)
| JList (l : list Json)
| JDict (kv : list (string * Json)).
#[local] Set Elimination Schemes.

Record World : Type := {
  (** [get_settings()] *)
  faiss_index_dir : string;
  output_dir : string;
  (** the files under [faiss_index_dir] *)
  fs : gmap string File;
  (** [embed_texts(texts)]: one vector per text, or an exception *)
  embed_texts : list string -> result (list vec);
  (** [get_llm_client() is not None] *)
  llm_available : bool;
  (** the language-model part of [check_compliance] (lines 95-141: clause
      segmentation, query expansion, prompting), by its outcome [issues_all] *)
  llm_review : string -> string -> string -> result (list IssueItem);
  (** [llm.generate_json_list(prompt)] in [_llm_anchor_map]; the prompt is
      built from the paragraph digest and the issue payload, so the reply is
      given as a function of these *)
  llm_anchor_reply : list (nat * string) -> list (nat * string * string) -> result (list Json);
  (** [re.search] with the citation pattern of [_short_citation]: groups 1 and 3 *)
  re_search_citation : string -> option (string * string);
  (** [os.makedirs(path, exist_ok=True)]: [None], or the exception raised *)
  makedirs : string -> option PyErr;
  (** [Document(path)] *)
  open_document : string -> result Document;
  (** [doc.save(path)], by the number of earlier calls of [save] in this run:
      [None] when the file is written, [Some e] when [e] is raised *)
  doc_save : nat -> string -> option PyErr;
  (** [datetime.now().strftime("%Y%m%d-%H%M%S")] and [uuid4().hex] *)
  now_stamp : string;
  uuid4_hex : string;
}.

End Env.

(** ** [app/services/retriever.py] *)
Module Retriever.
Import Py Schemas Env.

(** One result of [search] (a dict with exactly these keys). *)
Record Hit : Type := {
  h_score : Qc;
  h_chunk : string;
  h_ref_id : string;
  h_source_path : string;
  h_title : string;
  h_source_url : option string;
}.

Record FaissRetriever : Type := {
  index : FaissIndex;
  chunks : list string;
  meta : list Meta;
  top_k : nat;
}.

Definition index_not_found : PyErr :=
  RuntimeError "FAISS index not found. Run scripts/ingest_refs.py first.".

(** [os.path.exists] *)
Definition path_exists (w : World) (p : string) : bool := bool_decide (is_Some (fs w !! p)).

(** [faiss.read_index(path)] *)
Definition read_index (w : World) (p : string) : result FaissIndex :=
  match fs w !! p with
  | Some (FaissFile ix) => Ok ix
  | Some _ => Err (RuntimeError "Error in faiss::read_index")
  | None => Err (RuntimeError "Error in faiss::FileIOReader: could not open")
  end.

(** [json.load(open(path))] for the two JSON files *)
Definition load_chunks (w : World) (p : string) : result (list string) :=
  match fs w !! p with
  | Some (ChunksJson cs) => Ok cs
  | Some _ => Err ValueError
  | None => Err (FileNotFoundError p)
  end.

Definition load_meta (w : World) (p : string) : result (list Meta) :=
  match fs w !! p with
  | Some (MetaJson ms) => Ok ms
  | Some _ => Err ValueError
  | None => Err (FileNotFoundError p)
  end.

(** [FaissRetriever.__init__] *)
Definition __init__ (w : World) (k : nat) : result FaissRetriever :=
  let index_path := path_join (faiss_index_dir w) "index.faiss" in
  let chunks_path := path_join (faiss_index_dir w) "chunks.json" in
  let meta_path := path_join (faiss_index_dir w) "meta.json" in
  if negb (path_exists w index_path && path_exists w chunks_path) then Err index_not_found
  else
    bind (read_index w index_path) (fun ix =>
    bind (load_chunks w chunks_path) (fun cs =>
    bind (load_meta w meta_path) (fun ms =>
    Ok {| index := ix; chunks := cs; meta := ms; top_k := k |}))).

(** [d[key]] for a dict field that may be missing *)
Definition require {A} (key : string) (o : option A) : result A :=
  match o with
  | Some a => Ok a
  | None => Err (KeyError key)
  end.

(** The body of the loop of [search] for one pair [(score, idx)] with
    [idx != -1]. *)
Definition make_hit (r : FaissRetriever) (score : Qc) (idx : Z) : result Hit :=
  bind (py_index (chunks r) idx) (fun chunk =>
  bind (py_index (meta r) idx) (fun m =>
  bind (require "source_path" (m_source_path m)) (fun sp =>
  bind (require "chunk_index" (m_chunk_index m)) (fun ci =>
  Ok {| h_score := score;
        h_chunk := chunk;
        h_ref_id := basename sp +:+ "#chunk-" +:+ str_of_Z ci;
        h_source_path := sp;
        h_title := default (basename sp) (m_title m);
        h_source_url := m_source_url m |})))).

Fixpoint search_loop (r : FaissRetriever) (pairs : list (Qc * Z)) (results : list Hit)
  : result (list Hit) :=
  match pairs with
  | [] => Ok results
  | (score, idx) :: rest =>
      if (idx =? -1)%Z then search_loop r rest results
      else bind (make_hit r score idx) (fun h => search_loop r rest (results ++ [h]))
  end.

(** [FaissRetriever.search] *)
Definition search (w : World) (r : FaissRetriever) (query : string) : result (list Hit) :=
  bind (embed_texts w [query]) (fun q_vec =>
  bind (ix_search (index r) q_vec (top_k r)) (fun '(scores, idxs) =>
  bind (first scores) (fun scores0 =>
  bind (first idxs) (fun idxs0 =>
  search_loop r (zip scores0 idxs0) [])))).

End Retriever.

(** ** [app/agents/compliance_checker.py] *)
Module Compliance.
Import Py Schemas Env Retriever.

(** [IssueEvidence(ref_id=h.get("ref_id", ""), snippet=h.get("chunk", "")[:400],
    source_url=h.get("source_url"))] *)
Definition evidence_of (h : Hit) : IssueEvidence :=
  {| ref_id := h_ref_id h; snippet := take_str 400 (h_chunk h); source_url := h_source_url h |}.

(** The first loop of [cite]: the first hit whose [ref_id] is non-empty and
    not in [used_refs]. *)
Fixpoint first_fresh (hits : list Hit) (used_refs : gset string) : option Hit :=
  match hits with
  | [] => None
  | h :: rest =>
      if truthy (h_ref_id h) && bool_decide (h_ref_id h ∉ used_refs) then Some h
      else first_fresh rest used_refs
  end.

(** [cite(query)], a closure over [retriever] and the set [used_refs], which
    it updates: the state is passed in and out. *)
Definition cite (w : World) (retriever : FaissRetriever) (query : string) (used_refs : gset string)
  : result (list IssueEvidence * gset string) :=
  bind (search w retriever query) (fun hits =>
  match first_fresh hits used_refs with
  | Some h => Ok ([evidence_of h], {[h_ref_id h]} ∪ used_refs)
  | None =>
      (* fallback if all duplicates *)
      match hits with
      | h :: _ => Ok ([evidence_of h], used_refs)
      | [] => Ok ([], used_refs)
      end
  end).

(** A run of [cite] calls over one [used_refs]: the evidence of each call, in
    order, and the final set. *)
Fixpoint cite_all (w : World) (retriever : FaissRetriever) (queries : list string)
  (used_refs : gset string) : result (list (list IssueEvidence) * gset string) :=
  match queries with
  | [] => Ok ([], used_refs)
  | q :: rest =>
      bind (cite w retriever q used_refs) (fun '(ev, used_refs') =>
      bind (cite_all w retriever rest used_refs') (fun '(evs, used_refs'') =>
      Ok (ev :: evs, used_refs'')))
  end.

Definition jurisdiction_query : string :=
  "ADGM jurisdiction courts Companies Regulations article jurisdiction courts".
Definition signature_query : string :=
  "ADGM execution signature requirements signatory section".
Definition adgm_query : string :=
  "ADGM Companies Regulations reference incorporation under ADGM".

Definition jurisdiction_issue (file_name display_name : string) (ev : list IssueEvidence) : IssueItem :=
  {| document := display_name;
     section := "";
     issue := "Jurisdiction references non-ADGM courts.";
     severity := "High";
     evidence := ev;
     suggestion := Some ("Specify ADGM Courts as the governing jurisdiction. Suggested clause: " +:+
       "'This Agreement shall be governed by the laws of the Abu Dhabi Global Market (ADGM), and the courts of ADGM shall have exclusive jurisdiction.'");
     source_filename := Some file_name;
     category := None; groundedness := None; suggestion_long := None |}.

Definition signature_issue (file_name display_name : string) (ev : list IssueEvidence) : IssueItem :=
  {| document := display_name;
     section := "";
     issue := "Missing explicit signatory section.";
     severity := "Medium";
     evidence := ev;
     suggestion := Some ("Add signatory block with name, title, date, and authorized signature. Example: " +:+
       "'Signed for and on behalf of the Company by: Name: __________  Title: __________  Date: __________  Signature: __________'");
     source_filename := Some file_name;
     category := None; groundedness := None; suggestion_long := None |}.

Definition adgm_issue (file_name display_name : string) (ev : list IssueEvidence) : IssueItem :=
  {| document := display_name;
     section := "";
     issue := "Document does not explicitly reference ADGM.";
     severity := "Low";
     evidence := ev;
     suggestion := Some ("Add a clause clarifying ADGM incorporation. Suggested wording: " +:+
       "'The Company is incorporated and existing under the Abu Dhabi Global Market (ADGM) Companies Regulations.'");
     source_filename := Some file_name;
     category := None; groundedness := None; suggestion_long := None |}.

(** One [if cond: issues.append(IssueItem(..., evidence=cite(query), ...))]. *)
Definition flag (w : World) (retriever : FaissRetriever) (cond : bool) (query : string)
  (mk : list IssueEvidence -> IssueItem) (st : list IssueItem * gset string)
  : result (list IssueItem * gset string) :=
  if cond then
    bind (cite w retriever query st.2) (fun '(ev, used_refs) => Ok (st.1 ++ [mk ev], used_refs))
  else Ok st.

(** The queries [_heuristic_issues] cites for a text, in call order. *)
Definition heuristic_queries (text : string) : list string :=
  let lower := lower text in
  (if contains "jurisdiction" lower || contains "federal" lower || contains "uae courts" lower
      || contains "abu dhabi courts" lower then [jurisdiction_query] else []) ++
  (if negb (contains "signature" lower) && negb (contains "signed" lower) then [signature_query] else []) ++
  (if negb (contains "adgm" lower) then [adgm_query] else []).

(** [_heuristic_issues] *)
Definition _heuristic_issues (w : World) (file_name display_name text : string)
  (retriever : FaissRetriever) : result (list IssueItem) :=
  let lower := lower text in
  bind (flag w retriever
          (contains "jurisdiction" lower || contains "federal" lower || contains "uae courts" lower
           || contains "abu dhabi courts" lower)
          jurisdiction_query (jurisdiction_issue file_name display_name) ([], ∅)) (fun st =>
  bind (flag w retriever
          (negb (contains "signature" lower) && negb (contains "signed" lower))
          signature_query (signature_issue file_name display_name) st) (fun st =>
  bind (flag w retriever (negb (contains "adgm" lower))
          adgm_query (adgm_issue file_name display_name) st) (fun st =>
  Ok st.1))).

(** [check_compliance]. The retriever is built first, outside any [try]. *)
Definition check_compliance (w : World) (file_name display_name text : string)
  : result (list IssueItem) :=
  bind (Retriever.__init__ w 4) (fun retriever =>
  if negb (llm_available w) then _heuristic_issues w file_name display_name text retriever
  else
    bind (llm_review w file_name display_name text) (fun issues_all =>
    match issues_all with
    | _ :: _ => Ok issues_all
    | [] => _heuristic_issues w file_name display_name text retriever
    end)).

End Compliance.

(** ** [app/agents/docx_annotator.py]: the anchoring strategies *)
Module Annotator.
Import Py Schemas Docx Env.

(** *** Substring strategy: [_find_paragraph_index] *)

(** [[c.lower() for c in candidates if c]] *)
Definition lowered_candidates (candidates : list string) : list string :=
  lower <$> List.filter truthy candidates.

(** [c and c[:30] in txt] *)
Definition prefix_in (txt c : string) : bool :=
  truthy c && contains (take_str 30 c) txt.

(** The loop over [enumerate(doc.paragraphs)], from position [idx] on. *)
Fixpoint find_loop (idx : nat) (ps : list Paragraph) (lowered : list string) : option nat :=
  match ps with
  | [] => None
  | p :: rest =>
      let txt := lower (text p) in
      if existsb (prefix_in txt) lowered then Some idx
      else find_loop (S idx) rest lowered
  end.

Definition _find_paragraph_index (doc : Document) (candidates : list string) : option nat :=
  let lowered := lowered_candidates candidates in
  match lowered with
  | [] => None
  | _ :: _ => find_loop 0 (paragraphs doc) lowered
  end.

(** The candidate list [annotate_docx] builds for an issue. *)
Definition candidates_of (it : IssueItem) : list string :=
  (match evidence it with
   | ev :: _ => if truthy (snippet ev) then [snippet ev] else []
   | [] => []
   end) ++
  (if truthy (issue it) then [issue it] else []) ++
  (if truthy (section it) then [section it] else []).

(** *** Keyword strategy: [_keyword_anchor] *)

Definition jurisdiction_keywords : list string :=
  ["jurisdiction"; "court"; "uae"; "abu dhabi"; "adgm"].
Definition address_keywords : list string :=
  ["address"; "registered office"].

(** The list [keywords] after the three [if]s, for the lowered issue text. *)
Definition keywords_for (text : string) : list string :=
  let k1 := if contains "jurisdiction" text || contains "court" text
            then jurisdiction_keywords else [] in
  let k2 := if contains "address" text then address_keywords else [] in
  if contains "signature" text || (contains "adgm" text && contains "not" text)
  then [] else k1 ++ k2.

(** [sum(1 for k in keywords if k in pt)] *)
Definition hits (keywords : list string) (pt : string) : nat :=
  length (List.filter (fun k => contains k pt) keywords).

Fixpoint keyword_loop (idx : nat) (ps : list Paragraph) (keywords : list string)
  (best_idx : option nat) (best_hits : nat) : option nat * nat :=
  match ps with
  | [] => (best_idx, best_hits)
  | p :: rest =>
      let pt := lower (text p) in
      let h := hits keywords pt in
      if (best_hits <? h)%nat then keyword_loop (S idx) rest keywords (Some idx) h
      else keyword_loop (S idx) rest keywords best_idx best_hits
  end.

Definition _keyword_anchor (doc : Document) (it : IssueItem) : option nat :=
  let text := lower (issue it) in
  let keywords := keywords_for text in
  match keywords with
  | [] => None
  | _ :: _ =>
      let '(best_idx, best_hits) := keyword_loop 0 (paragraphs doc) keywords None 0 in
      if (0 <? best_hits)%nat then best_idx else None
  end.

(** *** Semantic strategy: [_semantic_anchor] *)

(** [par_emb[i] * q_emb] and [arr.sum()], on float32 arrays. *)
Definition np_mul (a b : vec) : result vec := Np.multiply a b.

Definition np_sum (a : vec) : Np.float32 := Np.sum a.

(** [float((par_emb[i] * q_emb).sum())] *)
Definition score_of (p_emb q_emb : vec) : result Np.PyFloat :=
  bind (np_mul p_emb q_emb) (fun prod => Ok (Np.float (np_sum prod))).

(** The literals [0.2] and [-1.0]: the binary64 nearest to 0.2 is
    3602879701896397 / 2^54. *)
Definition threshold : Np.PyFloat := Np.Real (Np.dyadic 3602879701896397 (-54)).
Definition minus_one : Np.PyFloat := Np.Real (Np.dyadic (-1) 0).

(** [for i in range(len(par_emb))], from position [i] on. *)
Fixpoint semantic_loop (i : nat) (par_emb : list vec) (q_emb : vec)
  (best_idx : option nat) (best_score : Np.PyFloat) : result (option nat * Np.PyFloat) :=
  match par_emb with
  | [] => Ok (best_idx, best_score)
  | e :: rest =>
      bind (score_of e q_emb) (fun score =>
      if Np.lt best_score score then semantic_loop (S i) rest q_emb (Some i) score
      else semantic_loop (S i) rest q_emb best_idx best_score)
  end.

(** The body of the [try] block. *)
Definition semantic_try (w : World) (paragraphs : list string) (query : string)
  : result (option nat) :=
  bind (embed_texts w paragraphs) (fun par_emb =>
  bind (bind (embed_texts w [query]) first) (fun q_emb =>
  bind (semantic_loop 0 par_emb q_emb None minus_one) (fun '(best_idx, best_score) =>
  match best_idx with
  | Some i => if Np.le threshold best_score then Ok (Some i) else Ok None
  | None => Ok None
  end))).

Definition _semantic_anchor (w : World) (doc : Document) (it : IssueItem) : option nat :=
  let query := issue it in
  if negb (truthy query) then None
  else
    let paragraphs := text <$> paragraphs doc in
    match paragraphs with
    | [] => None
    | _ :: _ =>
        match semantic_try w paragraphs query with
        | Ok r => r
        | Err _ => None   (* except Exception: return None *)
        end
    end.

(** *** The cascade of [annotate_docx], for one issue *)
Definition anchor_issue (w : World) (doc : Document) (it : IssueItem) : option nat :=
  match _find_paragraph_index doc (candidates_of it) with
  | Some p_idx => Some p_idx
  | None =>
      match _keyword_anchor doc it with
      | Some p_idx => Some p_idx
      | None => _semantic_anchor w doc it
      end
  end.

(** The first loop of [annotate_docx]: [paragraph_to_issues] and [unanchored]. *)
Definition place (w : World) (doc : Document)
  (st : gmap nat (list IssueItem) * list IssueItem) (it : IssueItem)
  : gmap nat (list IssueItem) * list IssueItem :=
  match anchor_issue w doc it with
  | Some p_idx => (<[p_idx := default [] (st.1 !! p_idx) ++ [it]]> st.1, st.2)
  | None => (st.1, st.2 ++ [it])
  end.

Definition group_issues (w : World) (doc : Document) (issues : list IssueItem)
  : gmap nat (list IssueItem) * list IssueItem :=
  foldl (place w doc) (∅, []) issues.

(** *** Batch refinement: [_llm_anchor_map] *)

(** The paragraph digest: position and first 180 characters of the stripped
    text of each non-empty paragraph, at most 60 of them. *)
Fixpoint digest (i : nat) (ps : list Paragraph) (paras : list (nat * string))
  : list (nat * string) :=
  match ps with
  | [] => paras
  | p :: rest =>
      let txt := strip (text p) in
      let paras := if truthy txt then paras ++ [(i, take_str 180 txt)] else paras in
      if (60 <=? length paras)%nat then paras else digest (S i) rest paras
  end.

(** [[{"idx": i, "issue": it.issue, "section": it.section} for i, it in enumerate(issues)]] *)
Definition issues_payload (issues : list IssueItem) : list (nat * string * string) :=
  imap (fun i it => (i, issue it, section it)) issues.

(** [item.get(key)] on a JSON value: [None] of Python is [Ok None]; a value
    that is not a dict has no [get] and raises. For a repeated key the last
    entry is the one [json.loads] keeps. *)
Definition json_get (key : string) (item : Json) : result (option Json) :=
  match item with
  | JDict kv => Ok ((fun e => e.2.2) <$> list_find (fun e => e.1 = key) (reverse kv))
  | _ => Err (OtherError "AttributeError")
  end.

(** [isinstance(x, int)] and the integer it is ([bool] is a subclass of [int]). *)
Definition as_int (x : option Json) : option Z :=
  match x with
  | Some (JInt z) => Some z
  | Some (JBool b) => Some (if b then 1%Z else 0%Z)
  | _ => None
  end.

(** [for item in data: ...], building [result]. *)
Fixpoint collect (data : list Json) (res : gmap Z Z) : result (gmap Z Z) :=
  match data with
  | [] => Ok res
  | item :: rest =>
      bind (json_get "issue_idx" item) (fun ii =>
      bind (json_get "paragraph_idx" item) (fun pi =>
      match as_int ii, as_int pi with
      | Some ii, Some pi => collect rest (<[ii := pi]> res)
      | _, _ => collect rest res
      end))
  end.

Definition _llm_anchor_map (w : World) (doc : Document) (issues : list IssueItem) : gmap Z Z :=
  if negb (llm_available w) || bool_decide (issues = []) then ∅
  else
    let paras := digest 0 (paragraphs doc) [] in
    match paras with
    | [] => ∅
    | _ :: _ =>
        match bind (llm_anchor_reply w paras (issues_payload issues)) (fun data => collect data ∅) with
        | Ok res => res
        | Err _ => ∅   (* except Exception: return {} *)
        end
    end.

(** *** Structured comments: [_get_comments_part], [_add_word_comment] *)

Definition set_paragraphs (ps : list Paragraph) (d : Document) : Document :=
  {| paragraphs := ps; comments := comments d; can_create_comments := can_create_comments d;
     style_error := style_error d |}.

Definition set_comments (cs : list Comment) (d : Document) : Document :=
  {| paragraphs := paragraphs d; comments := Some cs; can_create_comments := can_create_comments d;
     style_error := style_error d |}.

(** Get or create the comment store: the document afterwards and the store,
    [None] when there is none and none can be created. *)
Definition _get_comments_part (doc : Document) : Document * option (list Comment) :=
  match comments doc with
  | Some cs => (doc, Some cs)
  | None => if can_create_comments doc then (set_comments [] doc, Some []) else (doc, None)
  end.

(** [for c in existing: ... next_id = max(next_id, int(cid))] *)
Fixpoint max_id_loop (existing : list Comment) (next_id : Z) : result Z :=
  match existing with
  | [] => Ok next_id
  | c :: rest =>
      match c_id c with
      | None => max_id_loop rest next_id
      | Some (IdInt z) => max_id_loop rest (Z.max next_id z)
      | Some (IdBad _) => Err ValueError
      end
  end.

(** [comments.xpath(".//w:comment", namespaces=comments.nsmap)]. The element
    of the comments part is of python-docx's own element class, whose
    [xpath] method takes the expression only (it supplies the namespaces
    itself): the keyword argument raises [TypeError], whatever the store
    holds. *)
Definition xpath_with_namespaces (store : list Comment) : result (list Comment) :=
  Err (OtherError "TypeError").

(** The body of the [try] block that determines the next comment id. *)
Definition next_id_try (store : list Comment) : result Z :=
  bind (xpath_with_namespaces store) (fun existing =>
  bind (max_id_loop existing 0) (fun next_id =>
  Ok (next_id + 1)%Z)).

(** The [try] block with its [except Exception: next_id = 0]. *)
Definition next_comment_id (store : list Comment) : Z :=
  match next_id_try store with
  | Ok next_id => next_id
  | Err _ => 0%Z
  end.

Definition comment_ref_run (id : Z) : Run :=
  {| r_text := EmptyString; r_bold := false; r_italic := false; r_highlight_yellow := false;
     r_color_red := false; r_page_break := false; r_comment_ref := Some id |}.

(** Range start first, range end and reference run last. *)
Definition wrap_with_comment (id : Z) (p : Paragraph) : Paragraph :=
  {| p_style := p_style p;
     p_children := CommentRangeStart id :: p_children p
                   ++ [CommentRangeEnd id; RunEl (comment_ref_run id)] |}.

(** [_add_word_comment(doc.paragraphs[j], comment_text)]: the document
    afterwards, the id given (when a comment was added). *)
Definition _add_word_comment (doc : Document) (j : nat) (comment_text : string)
  : Document * option Z :=
  match _get_comments_part doc with
  | (doc, None) => (doc, None)
  | (doc, Some existing) =>
      let next_id := next_comment_id existing in
      let c := {| c_id := Some (IdInt next_id); c_author := "ADGM Agent";
                  c_initials := "AA"; c_body := comment_text |} in
      (set_paragraphs (alter (wrap_with_comment next_id) j (paragraphs doc))
         (set_comments (existing ++ [c]) doc),
       Some next_id)
  end.

(** *** Inline marker: [_add_inline_comment] *)

Definition highlight (c : PChild) : PChild :=
  match c with
  | RunEl r =>
      RunEl {| r_text := r_text r; r_bold := r_bold r; r_italic := r_italic r;
               r_highlight_yellow := true; r_color_red := r_color_red r;
               r_page_break := r_page_break r; r_comment_ref := r_comment_ref r |}
  | _ => c
  end.

Definition note_run (note_text : string) : Run :=
  {| r_text := " [Comment: " +:+ note_text +:+ "] "; r_bold := false; r_italic := true;
     r_highlight_yellow := false; r_color_red := true; r_page_break := false;
     r_comment_ref := None |}.

Definition inline_comment (note_text : string) (p : Paragraph) : Paragraph :=
  add_run (note_run note_text)
    {| p_style := p_style p; p_children := highlight <$> p_children p |}.

Definition _add_inline_comment (doc : Document) (j : nat) (note_text : string) : Document :=
  set_paragraphs (alter (inline_comment note_text) j (paragraphs doc)) doc.

(** *** [_short_citation] *)
Definition _short_citation (w : World) (ev : IssueEvidence) : string :=
  match re_search_citation w (snippet ev) with
  | Some (law, art) => strip law +:+ ", Art. " +:+ strip art
  | None => ref_id ev
  end.

(** *** [annotate_docx] *)

Definition sev_prefix (it : IssueItem) : string :=
  if truthy (severity it) then "[" +:+ severity it +:+ "] " else "".

Definition sug_suffix (it : IssueItem) : string :=
  match suggestion it with
  | Some s => if truthy s then " Suggestion: " +:+ s else ""
  | None => ""
  end.

(** [_short_citation(it.evidence[0]) if it.evidence else ""] *)
Definition cite_of (w : World) (it : IssueItem) : string :=
  match evidence it with
  | ev :: _ => _short_citation w ev
  | [] => ""
  end.

Definition per_clause (cite : string) : string :=
  if truthy cite then " (Per " +:+ cite +:+ ")" else "".

(** One numbered part of the note of a group. *)
Definition note_part (w : World) (i : nat) (it : IssueItem) : string :=
  str_of_nat i +:+ ". " +:+ sev_prefix it +:+ issue it +:+ per_clause (cite_of w it) +:+ sug_suffix it.

Definition note_text_of (w : World) (iss_list : list IssueItem) : string :=
  join "; " (imap (fun i it => note_part w (S i) it) iss_list).

(** [iss_list[0] and issues.index(iss_list[0])]: a model object is truthy, so
    this is the position of the first issue equal to [iss_list[0]]. *)
Definition first_issue_index (issues iss_list : list IssueItem) : result nat :=
  match iss_list with
  | [] => Err IndexError
  | it0 :: _ =>
      match list_find (fun it => it = it0) issues with
      | Some (k, _) => Ok k
      | None => Err ValueError
      end
  end.

(** [sorted(paragraph_to_issues.items())]: by paragraph position. *)
Definition key_le (a b : nat * list IssueItem) : Prop := (a.1 <= b.1)%nat.

#[export] Instance key_le_dec : RelDecision key_le.
Proof. intros a b. unfold key_le. apply _. Defined.

Definition sorted_items (m : gmap nat (list IssueItem)) : list (nat * list IssueItem) :=
  merge_sort key_le (map_to_list m).

(** The body of the loop over the groups. The paragraph used is
    [doc.paragraphs[target_idx]], read once for each of the two calls. *)
Definition annotate_group (w : World) (issues : list IssueItem) (llm_map : gmap Z Z)
  (doc : Document) (g : nat * list IssueItem) : result Document :=
  let '(p_idx, iss_list) := g in
  let note_text := note_text_of w iss_list in
  bind (first_issue_index issues iss_list) (fun k =>
  let target_idx := default (Z.of_nat p_idx) (llm_map !! Z.of_nat k) in
  bind (py_pos (length (paragraphs doc)) target_idx) (fun j =>
  let doc := (_add_word_comment doc j note_text).1 in
  bind (py_pos (length (paragraphs doc)) target_idx) (fun j =>
  Ok (_add_inline_comment doc j note_text)))).

Fixpoint annotate_groups (w : World) (issues : list IssueItem) (llm_map : gmap Z Z)
  (doc : Document) (groups : list (nat * list IssueItem)) : result Document :=
  match groups with
  | [] => Ok doc
  | g :: rest =>
      bind (annotate_group w issues llm_map doc g) (fun doc =>
      annotate_groups w issues llm_map doc rest)
  end.

(** The "Unanchored Comments" section. *)
Definition unanchored_line (w : World) (it : IssueItem) : string :=
  "- " +:+ sev_prefix it +:+ issue it +:+ per_clause (cite_of w it) +:+ sug_suffix it.

Definition add_unanchored_section (w : World) (unanchored : list IssueItem) (doc : Document)
  : result Document :=
  match unanchored with
  | [] => Ok doc
  | _ :: _ =>
      bind (add_heading "Unanchored Comments" 2 (add_paragraph "" doc)) (fun doc =>
      Ok (foldl (fun d it => add_paragraph (unanchored_line w it) d) doc unanchored))
  end.

(** The "Issues Found" section. The first paragraph of an issue gets its runs
    right after it is added, so it is given here with its runs. *)
Definition bold_run (t : string) : Run :=
  {| r_text := t; r_bold := true; r_italic := false; r_highlight_yellow := false;
     r_color_red := false; r_page_break := false; r_comment_ref := None |}.

Definition entry_head (idx : nat) (it : IssueItem) : string :=
  str_of_nat idx +:+ ". [" +:+ severity it +:+ "] ".

Definition entry_paragraph (w : World) (idx : nat) (it : IssueItem) : Paragraph :=
  {| p_style := Normal;
     p_children :=
       [RunEl (bold_run (entry_head idx it)); RunEl (plain_run (issue it +:+ " "))] ++
       (if truthy (cite_of w it) then [RunEl (plain_run ("(Per " +:+ cite_of w it +:+ ")"))] else []) |}.

Definition suggestion_paragraphs (it : IssueItem) : list Paragraph :=
  match suggestion it with
  | Some s => if truthy s then [new_paragraph Normal ("Suggestion: " +:+ s)] else []
  | None => []
  end.

Definition citation_paragraph (ev : IssueEvidence) : Paragraph :=
  let src := match source_url ev with
             | Some u => if truthy u then " (source: " +:+ u +:+ ")" else ""
             | None => ""
             end in
  new_paragraph Normal ("Citation " +:+ ref_id ev +:+ ": " +:+ snippet ev +:+ src).

(** What one pass of the loop [for idx, issue in enumerate(issues, start=1)] appends. *)
Definition issue_block (w : World) (idx : nat) (it : IssueItem) : list Paragraph :=
  entry_paragraph w idx it :: suggestion_paragraphs it ++ (citation_paragraph <$> evidence it).

(** The paragraphs lines 304-322 add below the heading. *)
Definition issue_paragraphs (w : World) (issues : list IssueItem) : list Paragraph :=
  match issues with
  | [] => [new_paragraph Normal "No issues were detected."]
  | _ :: _ => mjoin (imap (fun i it => issue_block w (S i) it) issues)
  end.

(** Lines 302-322: the page break, the heading, the paragraphs below it. *)
Definition append_issues_section (w : World) (issues : list IssueItem) (doc : Document)
  : result Document :=
  bind (add_heading "Issues Found (Automated Review)" 1 (add_page_break doc)) (fun doc =>
  Ok (set_paragraphs (paragraphs doc ++ issue_paragraphs w issues) doc)).

(** The paragraphs of the section, once it is written. *)
Definition issues_section (w : World) (issues : list IssueItem) : list Paragraph :=
  page_break_paragraph ::
  new_paragraph (Heading 1) "Issues Found (Automated Review)" ::
  issue_paragraphs w issues.

(** The document in memory when [annotate_docx] reaches [doc.save]. *)
Definition annotated_document (w : World) (original_path : string) (issues : list IssueItem)
  : result Document :=
  match makedirs w (output_dir w) with
  | Some e => Err e
  | None =>
      bind (open_document w original_path) (fun doc =>
      let '(paragraph_to_issues, unanchored) := group_issues w doc issues in
      let llm_map := _llm_anchor_map w doc issues in
      bind (annotate_groups w issues llm_map doc (sorted_items paragraph_to_issues)) (fun doc =>
      bind (add_unanchored_section w unanchored doc) (fun doc =>
      append_issues_section w issues doc)))
  end.

(** What a run of [annotate_docx] does and returns: the paths given to
    [doc.save], in order; the file written, if any; the value returned or the
    exception raised. *)
Record Outcome : Type := {
  attempted : list string;
  written : option (string * Document);
  returned : result string;
}.

Definition reviewed_path (w : World) (original_path : string) : string :=
  let base := basename original_path in
  let '(name, ext) := splitext base in
  path_join (output_dir w) (name +:+ "_reviewed" +:+ ext).

Definition unique_path (w : World) (original_path : string) : string :=
  let base := basename original_path in
  let '(name, ext) := splitext base in
  let unique_suffix := now_stamp w +:+ "-" +:+ take_str 6 (uuid4_hex w) in
  path_join (output_dir w) (name +:+ "_reviewed_" +:+ unique_suffix +:+ ext).

(** Lines 324-334: save, and on [PermissionError] save once more under the
    unique name. *)
Definition persist (w : World) (original_path : string) (doc : Document) : Outcome :=
  let out_path := reviewed_path w original_path in
  match doc_save w 0 out_path with
  | None =>
      {| attempted := [out_path]; written := Some (out_path, doc); returned := Ok out_path |}
  | Some (PermissionError _) =>
      let out_path' := unique_path w original_path in
      match doc_save w 1 out_path' with
      | None =>
          {| attempted := [out_path; out_path']; written := Some (out_path', doc);
             returned := Ok out_path' |}
      | Some e =>
          {| attempted := [out_path; out_path']; written := None; returned := Err e |}
      end
  | Some e => {| attempted := [out_path]; written := None; returned := Err e |}
  end.

Definition annotate_docx (w : World) (original_path : string) (issues : list IssueItem)
  : Outcome :=
  match annotated_document w original_path issues with
  | Ok doc => persist w original_path doc
  | Err e => {| attempted := []; written := None; returned := Err e |}
  end.

End Annotator.

(** ** Concrete worlds and inputs, for instances of the theorems *)
Module Demo.
Import Py Schemas Docx Env.

Definition q (n d : Z) : Qc := Q2Qc (Qmake n (Z.to_pos d)).

(** The float32 nearest to [m * 2^e]; [m * 2^e] itself when it is one. *)
Definition f32 (m e : Z) : Np.float32 := binary_normalize 24 128 m e false.


(** Every style can be assigned; no style of the name is defined. *)
Definition all_styles (name : string) : option PyErr := None.
Definition no_styles (name : string) : option PyErr :=
  Some (KeyError ("no style with name '" +:+ name +:+ "'")).

(** A world given by the parts that vary between the instances. *)
Definition world (files : gmap string File) (embed : list string -> result (list vec))
  (llm : bool) (reply : result (list Json)) (save : nat -> string -> option PyErr)
  (doc : Document) : World :=
  {| faiss_index_dir := "data/faiss_index";
     output_dir := "data/outputs";
     fs := files;
     embed_texts := embed;
     llm_available := llm;
     llm_review := fun _ _ _ => Ok [];
     llm_anchor_reply := fun _ _ => reply;
     re_search_citation := fun _ => None;
     makedirs := fun _ => None;
     open_document := fun _ => Ok doc;
     doc_save := save;
     now_stamp := "20250811-101500";
     uuid4_hex := "3f2a9c0b5d6e4f708192a3b4c5d6e7f8" |}.

Definition no_model (ts : list string) : result (list vec) := Err (OtherError "no embedding model").
Definition save_ok (n : nat) (p : string) : option PyErr := None.

Definition issue_of (t : string) : IssueItem :=
  {| document := "Articles of Association"; section := ""; issue := t; severity := "High";
     evidence := []; suggestion := None; source_filename := Some "aoa.docx";
     category := None; groundedness := None; suggestion_long := None |}.

Definition texts_document (texts : list string) (store : option (list Comment)) : Document :=
  {| paragraphs := new_paragraph Normal <$> texts; comments := store; can_create_comments := true;
     style_error := all_styles |}.

(** The same document, saved by a program that left the heading styles out. *)
Definition without_styles (d : Document) : Document :=
  {| paragraphs := paragraphs d; comments := comments d;
     can_create_comments := can_create_comments d; style_error := no_styles |}.

(** An index of two chunks, asked for four neighbours: two positions, then
    the placeholder -1 twice. *)
Definition two_chunk_index : FaissIndex :=
  {| ntotal := 2;
     ix_search := fun qs k =>
       Ok ((fun _ => take k [q 9 10; q 1 2; q (-1) 1; q (-1) 1]) <$> qs,
           (fun _ => take k [1; 0; -1; -1]%Z) <$> qs) |}.

Definition two_chunks : list string :=
  ["Companies Regulations 2020, Article 12: registered office."; "ADGM Courts have jurisdiction."].

Definition two_meta : list Meta :=
  [ {| m_source_path := Some "references/companies.txt"; m_chunk_index := Some 0%Z;
       m_title := Some "companies.txt"; m_source_url := None |};
    {| m_source_path := Some "references/courts.txt"; m_chunk_index := Some 0%Z;
       m_title := None; m_source_url := Some "https://www.adgm.com/courts" |} ].

Definition built_files : gmap string File :=
  {[ "data/faiss_index/index.faiss" := FaissFile two_chunk_index;
     "data/faiss_index/chunks.json" := ChunksJson two_chunks;
     "data/faiss_index/meta.json" := MetaJson two_meta ]}.

(** Every text is embedded as the same unit vector. *)
Definition unit_embed (ts : list string) : result (list vec) :=
  Ok ((fun _ => [f32 1 0; Np.zero32]) <$> ts).

Definition built_world : World :=
  world built_files unit_embed false (Ok []) save_ok (texts_document [] None).

(** The same files, no embedding model, no language model. *)
Definition offline_world : World :=
  world built_files no_model false (Ok []) save_ok (texts_document [] None).

Definition two_chunk_retriever : Retriever.FaissRetriever :=
  {| Retriever.index := two_chunk_index; Retriever.chunks := two_chunks;
     Retriever.meta := two_meta; Retriever.top_k := 4 |}.

(** A store that already holds the ids 3 and 7, and a comment without id. *)
Definition old_comment (id : option IdAttr) : Comment :=
  {| c_id := id; c_author := "Reviewer"; c_initials := "R"; c_body := "Earlier remark." |}.

Definition reviewed_document : Document :=
  texts_document ["The registered office address is in Dubai."; "Disputes go to the UAE courts."]
    (Some [old_comment (Some (IdInt 3)); old_comment None; old_comment (Some (IdInt 7))]).

Definition address_issue : IssueItem := issue_of "Registered office address is outside ADGM.".
Definition courts_issue : IssueItem := issue_of "Jurisdiction references non-ADGM courts.".

Definition from_ok {A} (d : A) (r : result A) : A :=
  match r with
  | Ok a => a
  | Err _ => d
  end.

(** The document after the two groups of [reviewed_document] are annotated. *)
Definition reviewed_document_annotated : Document :=
  from_ok reviewed_document
    (Annotator.annotate_groups built_world [address_issue; courts_issue] ∅ reviewed_document
       [(0%nat, [address_issue]); (1%nat, [courts_issue])]).





(** A world with a language model that answers [_llm_anchor_map] with
    [reply]; the document opened is [reviewed_document]. *)
Definition llm_world (reply : result (list Json)) : World :=
  world built_files no_model true reply save_ok reviewed_document.

(** No language model; the document opened is [reviewed_document] without
    its heading styles. *)
Definition unstyled_world : World :=
  world built_files no_model false (Ok []) save_ok (without_styles reviewed_document).

(** The model proposes paragraph 5 for issue 0; the document has two. *)
Definition proposal_out_of_range : list Json :=
  [JDict [("issue_idx", JInt 0); ("paragraph_idx", JInt 5)]].

(** The model proposes paragraph 0 for issue 0. *)
Definition proposal_in_range : list Json :=
  [JDict [("issue_idx", JInt 0); ("paragraph_idx", JInt 0)]].

(** The first [save] finds the destination locked, the second succeeds. *)
Definition save_locked_once (n : nat) (p : string) : option PyErr :=
  match n with
  | O => Some (PermissionError p)
  | S _ => None
  end.

(** The destination is locked for every [save]. *)
Definition save_locked (n : nat) (p : string) : option PyErr := Some (PermissionError p).

Definition locked_once_world : World :=
  world built_files no_model false (Ok []) save_locked_once reviewed_document.

Definition locked_world : World :=
  world built_files no_model false (Ok []) save_locked reviewed_document.

End Demo.

(** ** Further Python primitives *)
Module Builtins.
Import Py.

(** The line feed. *)
Definition nl : string := String (ascii_of_nat 10) EmptyString.

(** [text.split()]: the maximal runs of characters other than whitespace, in
    order; [cur] is the run being read. *)
Fixpoint split_from (cur s : string) : list string :=
  match s with
  | EmptyString => if truthy cur then [cur] else []
  | String c s' =>
      if is_space c then (if truthy cur then [cur] else []) ++ split_from EmptyString s'
      else split_from (cur +:+ String c EmptyString) s'
  end.

(** A bound of a slice of a sequence of length [n]: negative bounds count
    from the end, and every bound is clipped to [0..n]. *)
Definition py_bound (n : nat) (i : Z) : nat :=
  if (i <? 0)%Z then Z.to_nat (Z.max 0 (Z.of_nat n + i)) else Z.to_nat (Z.min i (Z.of_nat n)).

(** [xs[start:stop]] *)
Definition py_slice {A} (xs : list A) (start stop : Z) : list A :=
  let a := py_bound (length xs) start in
  let b := py_bound (length xs) stop in
  take (b - a) (drop a xs).

(** [s.split(sep)[0]] for a separator of one character: what precedes its
    first occurrence. *)
Fixpoint before (sep : ascii) (s : string) : string :=
  match s with
  | EmptyString => EmptyString
  | String c s' => if Ascii.eqb c sep then EmptyString else String c (before sep s')
  end.

(** [s.replace(old, new)] for a non-empty [old], from left to right; [skip]
    counts the characters left of the occurrence just replaced. *)
Fixpoint replace_go (old new : string) (skip : nat) (s : string) : string :=
  match s with
  | EmptyString => EmptyString
  | String c s' =>
      match skip with
      | S k => replace_go old new k s'
      | O =>
          if startswith old s then new +:+ replace_go old new (String.length old - 1) s'
          else String c (replace_go old new 0 s')
      end
  end.

Definition replace (old new s : string) : string := replace_go old new 0 s.

End Builtins.

(** ** Python dicts with string keys, in insertion order *)
Module Dict.

(** [d[k] = v]: an existing key keeps its place. *)
Fixpoint set {V} (k : string) (v : V) (d : list (string * V)) : list (string * V) :=
  match d with
  | [] => [(k, v)]
  | (k', v') :: rest => if String.eqb k' k then (k', v) :: rest else (k', v') :: set k v rest
  end.

(** [d.get(k)] *)
Fixpoint get {V} (k : string) (d : list (string * V)) : option V :=
  match d with
  | [] => None
  | (k', v') :: rest => if String.eqb k' k then Some v' else get k rest
  end.

(** [{k: v for k, v in pairs}] *)
Definition of_pairs {V} (pairs : list (string * V)) : list (string * V) :=
  foldl (fun d kv => set kv.1 kv.2 d) [] pairs.

End Dict.

(** ** [app/services/chains.py] *)
Module Chains.
Import Py Env.

(** What the chains, the intake and the workflow obtain from outside, beside
    the [World]. *)
Record Host : Type := {
  (** [os.path.exists(path)] for an uploaded path *)
  upload_exists : string -> bool;
  (** the labels (strings) that [_load_labels] reads from [doc_types.json];
      [None] when reading raises *)
  doc_type_labels : option (list string);
  (** the prompt formatting and [llm.generate_json_list(prompt)] of
      [lc_classify_doc], by the truncated text and the labels *)
  classify_reply : string -> list string -> result Json;
  (** the same for [lc_detect_process], by the doc types and the truncated text *)
  detect_reply : list string -> string -> result Json;
  (** [float(x)] for an [int] and for a [str] *)
  float_of_int : Z -> result Qc;
  float_of_str : string -> result Qc;
}.

(** [_run_json_list], the reply of the model being [reply]. *)
Definition _run_json_list (w : World) (reply : result Json) : result Json :=
  if negb (llm_available w) then Err (RuntimeError "LLM not configured") else reply.

(** Truthiness of a JSON value. *)
Definition json_truthy (j : Json) : bool :=
  match j with
  | JNull => false
  | JBool b => b
  | JInt z => negb (z =? 0)%Z
  | JFloat q => negb (bool_decide (q = 0%Qc))
  | JStr s => truthy s
  | JList l => negb (bool_decide (l = []))
  | JDict kv => negb (bool_decide (kv = []))
  end.

Definition is_dict (j : Json) : bool :=
  match j with
  | JDict _ => true
  | _ => false
  end.

(** [x == s] for a string [s] *)
Definition is_str (s : string) (j : Json) : bool :=
  match j with
  | JStr t => String.eqb t s
  | _ => false
  end.

(** [out[0]] *)
Definition json_first (out : Json) : result Json :=
  match out with
  | JList (x :: _) => Ok x
  | JStr (String c _) => Ok (JStr (String c EmptyString))
  | JList [] | JStr EmptyString => Err IndexError
  | JDict _ => Err (KeyError "0")
  | JNull | JBool _ | JInt _ | JFloat _ => Err (OtherError "TypeError")
  end.

(** [float(x)] *)
Definition py_float (h : Host) (x : Json) : result Qc :=
  match x with
  | JBool b => Ok (if b then 1%Qc else 0%Qc)
  | JInt z => float_of_int h z
  | JFloat q => Ok q
  | JStr s => float_of_str h s
  | JNull | JList _ | JDict _ => Err (OtherError "TypeError")
  end.

(** The keys of a JSON object, each once, in the order of their first entry. *)
Definition dict_keys (kv : list (string * Json)) : list string :=
  reverse (remove_dups (reverse (kv.*1))).

(** [list(x)] *)
Definition py_list (x : Json) : result (list Json) :=
  match x with
  | JList l => Ok l
  | JStr s => Ok ((fun c => JStr (String c EmptyString)) <$> list_ascii_of_string s)
  | JDict kv => Ok (JStr <$> dict_keys kv)
  | JNull | JBool _ | JInt _ | JFloat _ => Err (OtherError "TypeError")
  end.

(** [float(data.get("confidence", 0.0) or 0.0)] *)
Definition confidence_of (h : Host) (data : Json) : result Qc :=
  bind (Annotator.json_get "confidence" data) (fun c =>
  let c := default (JFloat 0) c in
  py_float h (if json_truthy c then c else JFloat 0)).

(** [lc_classify_doc]: every exception of the body is caught. *)
Definition lc_classify_doc (w : World) (h : Host) (text : string) (labels : list string)
  : Json * Qc :=
  let unknown := (JStr "Unknown", 0%Qc) in
  match
    bind (_run_json_list w (classify_reply h (take_str 1800 text) labels)) (fun out =>
    bind (if is_dict out then Ok (Some out)
          else if json_truthy out then
            bind (json_first out) (fun x => Ok (if is_dict x then Some x else None))
          else Ok None) (fun data =>
    match data with
    | None => Ok unknown
    | Some data =>
        bind (Annotator.json_get "label" data) (fun label =>
        bind (confidence_of h data) (fun conf =>
        Ok (default (JStr "Unknown") label, conf)))
    end))
  with
  | Ok r => r
  | Err _ => unknown
  end.

(** [lc_detect_process]: every exception of the body is caught. *)
Definition lc_detect_process (w : World) (h : Host) (doc_types : list string) (text : string)
  : Json * Qc * list Json :=
  match
    bind (_run_json_list w (detect_reply h doc_types (take_str 2400 text))) (fun out =>
    bind (if is_dict out then Ok out
          else if json_truthy out then json_first out else Ok (JDict [])) (fun data =>
    bind (Annotator.json_get "process" data) (fun process =>
    bind (confidence_of h data) (fun conf =>
    bind (Annotator.json_get "alternatives" data) (fun alternatives =>
    bind (py_list (default (JList []) alternatives)) (fun alternatives =>
    Ok (default (JStr "Unknown") process, conf, alternatives)))))))
  with
  | Ok r => r
  | Err _ => (JStr "Unknown", 0%Qc, [])
  end.

End Chains.

(** ** [app/services/rag_indexer.py] *)
Module Indexer.
Import Py Schemas Env Builtins Chains.

(** [_tokenize_words] *)
Definition _tokenize_words (text : string) : list string := split_from EmptyString text.

(** The [while] loop of [_chunk_text]. One unit of [fuel] is spent on each
    test of the loop condition; [None] says that the loop is still running
    when the fuel is spent. *)
Fixpoint chunk_loop (fuel : nat) (words : list string) (max_tokens overlap : Z)
  (start : Z) (chunks : list string) : option (list string) :=
  match fuel with
  | O => None
  | S fuel' =>
      let n := Z.of_nat (length words) in
      if (start <? n)%Z then
        let end_ := Z.min (start + max_tokens) n in
        let chunk := strip (join " " (py_slice words start end_)) in
        let chunks := if truthy chunk then chunks ++ [chunk] else chunks in
        if (end_ =? n)%Z then Some chunks
        else chunk_loop fuel' words max_tokens overlap (Z.max 0 (end_ - overlap)) chunks
      else Some chunks
  end.

(** [_chunk_text] *)
Definition _chunk_text (fuel : nat) (text : string) (max_tokens overlap : Z)
  : option (list string) :=
  let words := _tokenize_words text in
  match words with
  | [] => Some []
  | _ :: _ => chunk_loop fuel words max_tokens overlap 0 []
  end.

(** What [ingest_references] obtains from outside, beside the [World]. *)
Record Sources : Type := {
  (** [settings.max_chunk_tokens], [settings.chunk_overlap] *)
  max_chunk_tokens : Z;
  chunk_overlap : Z;
  (** [os.walk(settings.references_dir)]: directory and name of every file,
      in the order of the walk *)
  walk : list (string * string);
  (** [_read_txt(path)], [_read_pdf(path)] *)
  read_txt : string -> result string;
  read_pdf : string -> result string;
  (** [_load_sources_list(ref_dir)]: the content of [sources.json], or the
      empty list when the file is absent or cannot be read; the value is
      cached, so every call of a run sees the same one *)
  sources_json : Json;
  (** [faiss.IndexFlatIP(vectors.shape[1])] followed by [index.add(vectors)] *)
  index_flat_ip : list vec -> result FaissIndex;
  (** the exception that writing the file at a path raises, if any *)
  write_error : string -> option PyErr;
}.

(** [_read_docx] *)
Definition _read_docx (w : World) (path : string) : result string :=
  bind (open_document w path) (fun doc => Ok (join nl (Docx.text <$> Docx.paragraphs doc))).

(** The reader [load_reference_files] picks for an extension. *)
Definition read_reference (w : World) (s : Sources) (path ext : string) : option (result string) :=
  if String.eqb ext ".txt" then Some (read_txt s path)
  else if String.eqb ext ".docx" then Some (_read_docx w path)
  else if String.eqb ext ".pdf" then Some (read_pdf s path)
  else None.

(** [load_reference_files(settings.references_dir)] *)
Definition load_reference_files (w : World) (s : Sources) : list (string * string) :=
  foldl (fun items '(root, name) =>
           let path := path_join root name in
           let ext := lower (splitext name).2 in
           match read_reference w s path ext with
           | Some (Ok text) => if truthy (strip text) then items ++ [(path, text)] else items
           | _ => items
           end) [] (walk s).

(** [os.path.basename(url.split("?")[0]).replace("%20", "_")] *)
Definition url_base (url : string) : string :=
  replace "%20" "_" (basename (before "?" url)).

(** The test of [_infer_source_url] on one url. *)
Definition url_matches (base name_no_ext url : string) : bool :=
  truthy (url_base url) &&
  (String.eqb (url_base url) base || String.eqb (url_base url) name_no_ext
   || startswith name_no_ext (url_base url)).

(** The loop of [_infer_source_url] over the entries of [sources]. *)
Fixpoint infer_loop (items : list Json) (base name_no_ext : string) : result (option string) :=
  match items with
  | [] => Ok None
  | item :: rest =>
      bind (Annotator.json_get "url" item) (fun url =>
      let url := default (JStr EmptyString) url in
      if negb (json_truthy url) then infer_loop rest base name_no_ext
      else
        match url with
        | JStr u => if url_matches base name_no_ext u then Ok (Some u)
                    else infer_loop rest base name_no_ext
        | _ => Err (OtherError "AttributeError")
        end)
  end.

(** [_infer_source_url] *)
Definition _infer_source_url (s : Sources) (path : string) : result (option string) :=
  let base := basename path in
  let name_no_ext := (splitext base).1 in
  bind (py_list (sources_json s)) (fun items => infer_loop items base name_no_ext).

(** The entry of [meta.json] for the [i]-th chunk of the file at [path]. *)
Definition meta_of (path : string) (source_url : option string) (i : nat) : Meta :=
  {| m_source_path := Some path;
     m_chunk_index := Some (Z.of_nat i);
     m_title := Some (basename path);
     m_source_url := source_url |}.

(** The loop of [ingest_references] over the reference files;
    [_infer_source_url] is called once per chunk and, the sources being
    cached, answers the same for every chunk of a file. *)
Fixpoint ingest_loop (fuel : nat) (s : Sources) (items : list (string * string))
  (chunks : list string) (meta : list Meta) : option (result (list string * list Meta)) :=
  match items with
  | [] => Some (Ok (chunks, meta))
  | (path, text) :: rest =>
      match _chunk_text fuel text (max_chunk_tokens s) (chunk_overlap s) with
      | None => None
      | Some [] => ingest_loop fuel s rest chunks meta
      | Some parts =>
          match _infer_source_url s path with
          | Err e => Some (Err e)
          | Ok source_url =>
              ingest_loop fuel s rest (chunks ++ parts)
                (meta ++ imap (fun i _ => meta_of path source_url i) parts)
          end
      end
  end.

Definition no_chunks : PyErr :=
  RuntimeError "No reference chunks produced. Ensure references/ has .txt, .pdf, or .docx files.".

(** Writing a file: the exception, or the files with the new one. *)
Definition write (s : Sources) (path : string) (f : File) (files : gmap string File)
  : result (gmap string File) :=
  match write_error s path with
  | Some e => Err e
  | None => Ok (<[path := f]> files)
  end.

(** [ingest_references]: [None] when a chunking loop is still running after
    [fuel] tests; otherwise the exception raised, or the files under
    [faiss_index_dir] when it returns (what a run that raises leaves on disk
    is not modelled). *)
Definition ingest_references (fuel : nat) (w : World) (s : Sources)
  : option (result (gmap string File)) :=
  match makedirs w (faiss_index_dir w) with
  | Some e => Some (Err e)
  | None =>
      match ingest_loop fuel s (load_reference_files w s) [] [] with
      | None => None
      | Some (Err e) => Some (Err e)
      | Some (Ok (chunks, meta)) =>
          Some (if bool_decide (chunks = []) then Err no_chunks
                else
                  bind (embed_texts w chunks) (fun vectors =>
                  bind (index_flat_ip s vectors) (fun index =>
                  bind (write s (path_join (faiss_index_dir w) "index.faiss") (FaissFile index) (fs w))
                    (fun files =>
                  bind (write s (path_join (faiss_index_dir w) "embeddings.npy") OtherFile files)
                    (fun files =>
                  bind (write s (path_join (faiss_index_dir w) "chunks.json") (ChunksJson chunks) files)
                    (fun files =>
                  write s (path_join (faiss_index_dir w) "meta.json") (MetaJson meta) files))))))
      end
  end.

(** The world in which the files under [faiss_index_dir] are [files]. *)
Definition with_files (w : World) (files : gmap string File) : World :=
  {| faiss_index_dir := faiss_index_dir w; output_dir := output_dir w; fs := files;
     embed_texts := embed_texts w; llm_available := llm_available w; llm_review := llm_review w;
     llm_anchor_reply := llm_anchor_reply w; re_search_citation := re_search_citation w;
     makedirs := makedirs w; open_document := open_document w; doc_save := doc_save w;
     now_stamp := now_stamp w; uuid4_hex := uuid4_hex w |}.

End Indexer.

(** ** [app/agents/process_identifier.py] *)
Module ProcessIdentifier.
Import Py Env Builtins Chains.

Definition incorporation_tokens : list string :=
  ["articles of association"; "memorandum of association"; "application for incorporation";
   "incorporation application"; "subscriber"; "share capital"].

Definition licensing_tokens : list string :=
  ["licence"; "license"; "commercial licence"; "business license"; "operating licence"].

(** [any(tok in haystack for tok in tokens)] *)
Definition any_in (tokens : list string) (haystack : string) : bool :=
  existsb (fun tok => contains tok haystack) tokens.

(** [detect_process_from_texts] *)
Definition detect_process_from_texts (texts : list string) : string :=
  let haystack := lower (join nl texts) in
  if negb (truthy haystack) then "Unknown"
  else if any_in incorporation_tokens haystack then "Company Incorporation"
  else if any_in licensing_tokens haystack then "Licensing"
  else "Unknown".

(** Lines 15-21 of [detect_process]: the heuristic on the doc types. *)
Definition doc_type_heuristic (doc_types : list string) : string :=
  let lowered := lower <$> doc_types in
  if existsb (contains "articles of association") lowered
     || existsb (contains "memorandum of association") lowered then "Company Incorporation"
  else if existsb (fun d => contains "licence" d || contains "license" d) lowered then "Licensing"
  else "Unknown".

(** [detect_process]. The body of the [try] is [Ok]: nothing in it raises. *)
Definition detect_process (w : World) (h : Host) (doc_types : list string) : Json :=
  match
    (let text := join " " doc_types in
     let '(proc, conf, _) := lc_detect_process w h doc_types text in
     Ok (if json_truthy proc then proc else JStr "Unknown"))
  with
  | Ok r => r
  | Err _ => JStr (doc_type_heuristic doc_types)
  end.

End ProcessIdentifier.

(** ** [app/agents/doc_intake.py] *)
Module Intake.
Import Py Env Builtins Chains.

Definition DOC_TYPE_KEYWORDS : list (string * list string) :=
  [("Articles of Association", ["articles of association"; "aoa"]);
   ("Memorandum of Association", ["memorandum of association"; "moa"; "mou"]);
   ("Board Resolution", ["board resolution"]);
   ("Shareholder Resolution", ["shareholder resolution"]);
   ("Incorporation Application Form", ["incorporation application"]);
   ("UBO Declaration Form", ["ubo"; "ultimate beneficial owner"]);
   ("Register of Members and Directors", ["register of members"; "register of directors"]);
   ("Change of Registered Address Notice", ["change of registered address"; "registered address"])].

(** [_read_docx] *)
Definition _read_docx (w : World) (path : string) : result string :=
  bind (open_document w path) (fun doc =>
  Ok (join nl (Docx.text <$> Docx.paragraphs doc))).

(** [_load_labels] *)
Definition _load_labels (h : Host) : list string :=
  match doc_type_labels h with
  | Some labels => labels
  | None => DOC_TYPE_KEYWORDS.*1
  end.

(** The keyword heuristic of [_classify]: the first label one of whose
    tokens occurs in the lowered text. *)
Fixpoint keyword_label (table : list (string * list string)) (lower : string) : string :=
  match table with
  | [] => "Unknown"
  | (label, tokens) :: rest =>
      if existsb (fun tok => contains tok lower) tokens then label else keyword_label rest lower
  end.

(** [_classify] *)
Definition _classify (w : World) (h : Host) (text : string) : string :=
  let labels := _load_labels h in
  let by_model :=
    if bool_decide (labels = []) then None
    else
      match (lc_classify_doc w h text labels).1 with
      | JStr label => if truthy label && bool_decide (label ∈ labels) then Some label else None
      | _ => None
      end in
  match by_model with
  | Some label => label
  | None => keyword_label DOC_TYPE_KEYWORDS (lower text)
  end.

Record IntakeDoc : Type := {
  filename : string;
  doc_type : string;
  text : string;
}.

(** [run_doc_intake]; what it reads off each path that exists and has the
    extension [.docx], in whatever case. *)
Fixpoint run_doc_intake_loop (w : World) (h : Host) (file_paths : list string)
  (docs : list IntakeDoc) : result (list IntakeDoc) :=
  match file_paths with
  | [] => Ok docs
  | path :: rest =>
      if negb (upload_exists h path) then run_doc_intake_loop w h rest docs
      else if negb (String.eqb (lower (splitext (basename path)).2) ".docx")
      then run_doc_intake_loop w h rest docs
      else
        bind (_read_docx w path) (fun text =>
        let doc_type := _classify w h text in
        run_doc_intake_loop w h rest
          (docs ++ [{| filename := basename path; doc_type := doc_type; text := text |}]))
  end.

Definition run_doc_intake (w : World) (h : Host) (file_paths : list string)
  : result (list IntakeDoc) :=
  run_doc_intake_loop w h file_paths [].

End Intake.

(** ** [app/workflows/corporate_agent_graph.py]

    One [World] stands for a whole run of the workflow: what the environment
    answers to a call depends on the arguments of the call, not on the calls
    made before it. *)
Module Workflow.
Import Py Schemas Env Chains ProcessIdentifier.

Record WorkflowState : Type := {
  file_paths : list string;
  doc_types : list string;
  process : Json;
  issues : list IssueItem;
  annotated_paths : list (string * string);
  intake_cache : list (string * string);
}.

Definition node_intake (w : World) (h : Host) (state : WorkflowState) : result WorkflowState :=
  bind (Intake.run_doc_intake w h (file_paths state)) (fun docs =>
  Ok {| file_paths := file_paths state;
        doc_types := Intake.doc_type <$> docs;
        process := process state;
        issues := issues state;
        annotated_paths := annotated_paths state;
        intake_cache := Dict.of_pairs ((fun d => (Intake.filename d, Intake.text d)) <$> docs) |}).

Definition node_process_id (w : World) (h : Host) (state : WorkflowState) : WorkflowState :=
  if negb (json_truthy (process state)) then
    let deduced := detect_process w h (doc_types state) in
    let deduced :=
      if is_str "Unknown" deduced
      then JStr (detect_process_from_texts ((intake_cache state).*2))
      else deduced in
    {| file_paths := file_paths state; doc_types := doc_types state; process := deduced;
       issues := issues state; annotated_paths := annotated_paths state;
       intake_cache := intake_cache state |}
  else state.

(** [type_map] of [node_compliance] *)
Definition type_map (state : WorkflowState) : list (string * string) :=
  Dict.of_pairs ((fun pt => (basename pt.1, pt.2)) <$> zip (file_paths state) (doc_types state)).

(** [display = type_map.get(filename, filename)] *)
Definition display_name (state : WorkflowState) (filename : string) : string :=
  default filename (Dict.get filename (type_map state)).

(** The loop of [node_compliance] over the cached texts. *)
Fixpoint compliance_loop (w : World) (state : WorkflowState)
  (texts : list (string * string)) (issues : list IssueItem) : result (list IssueItem) :=
  match texts with
  | [] => Ok issues
  | (filename, text) :: rest =>
      bind (Compliance.check_compliance w filename (display_name state filename) text) (fun found =>
      compliance_loop w state rest (issues ++ found))
  end.

Definition node_compliance (w : World) (state : WorkflowState) : result WorkflowState :=
  bind (compliance_loop w state (intake_cache state) []) (fun issues =>
  Ok {| file_paths := file_paths state; doc_types := doc_types state; process := process state;
        issues := issues; annotated_paths := annotated_paths state;
        intake_cache := intake_cache state |}).

(** The issues [node_annotate] passes for a file name. *)
Definition matching (issues : list IssueItem) (fname : string) : list IssueItem :=
  List.filter (fun i => bool_decide (source_filename i = Some fname) || String.eqb (document i) fname)
    issues.

(** The loop of [node_annotate] over the uploaded paths. *)
Fixpoint annotate_loop (w : World) (issues : list IssueItem) (paths : list string)
  (annotated : list (string * string)) : result (list (string * string)) :=
  match paths with
  | [] => Ok annotated
  | in_path :: rest =>
      let fname := basename in_path in
      bind (Annotator.returned (Annotator.annotate_docx w in_path (matching issues fname))) (fun outp =>
      annotate_loop w issues rest (Dict.set fname outp annotated))
  end.

Definition node_annotate (w : World) (state : WorkflowState) : result WorkflowState :=
  bind (annotate_loop w (issues state) (file_paths state) []) (fun annotated =>
  Ok {| file_paths := file_paths state; doc_types := doc_types state; process := process state;
        issues := issues state; annotated_paths := annotated;
        intake_cache := intake_cache state |}).

(** [build_graph().compile().invoke(state)]: the four nodes, in the order of
    the edges. *)
Definition invoke (w : World) (h : Host) (state : WorkflowState) : result WorkflowState :=
  bind (node_intake w h state) (fun state =>
  bind (node_compliance w (node_process_id w h state)) (fun state =>
  node_annotate w state)).

(** Lines 101-121 of [run_workflow]: the process reported and its confidence. *)
Definition reported_process (w : World) (h : Host) (final_state : WorkflowState)
  : Json * option Qc :=
  if json_truthy (process final_state) then (process final_state, None)
  else
    let texts := (intake_cache final_state).*2 in
    match
      (let '(proc, conf, _) :=
         lc_detect_process w h (doc_types final_state) (join " " (doc_types final_state)) in
       if json_truthy proc && negb (is_str "Unknown" proc) then Ok (proc, Some conf)
       else
         let process := detect_process w h (doc_types final_state) in
         let process :=
           if is_str "Unknown" process then JStr (detect_process_from_texts texts) else process in
         let process := if json_truthy process then process else JStr "Unknown" in
         Ok (process, Some conf))
    with
    | Ok r => r
    | Err _ =>
        let process := detect_process w h (doc_types final_state) in
        let process :=
          if is_str "Unknown" process
          then (let p := detect_process_from_texts texts in JStr (if truthy p then p else "Unknown"))
          else process in
        (process, None)
    end.

(** [run_workflow] up to the call of [verify_checklist]: the final state of
    the graph, the process and its confidence. *)
Definition run_workflow (w : World) (h : Host) (file_paths : list string)
  (target_process : option string) : result (WorkflowState * Json * option Qc) :=
  let state :=
    {| file_paths := file_paths; doc_types := [];
       process := JStr (default "" target_process);
       issues := []; annotated_paths := []; intake_cache := [] |} in
  bind (invoke w h state) (fun final_state =>
  let '(process, process_conf) := reported_process w h final_state in
  Ok (final_state, process, process_conf)).

End Workflow.

(** ** Concrete inputs for the instances of the further theorems *)
Module Samples.
Import Py Schemas Docx Env Chains Indexer Workflow.

(** The entries of [sources.json]: one without url, one with. *)
Definition source_entries : list Json :=
  [JDict [("title", JStr "Register")];
   JDict [("url", JStr "https://www.adgm.com/legal/courts-regulations.html?lang=en")]].

(** Two text files and a file that is not a reference; chunks of four words
    that overlap by one. *)
Definition references : Sources :=
  {| max_chunk_tokens := 4;
     chunk_overlap := 1;
     walk := [("references", "courts.txt"); ("references", "notes.md");
              ("references/sub", "office.TXT")];
     read_txt := fun path =>
       if String.eqb path "references/courts.txt"
       then Ok "ADGM Courts have exclusive jurisdiction over all disputes."
       else Ok "  Registered office   in ADGM. ";
     read_pdf := fun _ => Err (OtherError "not a PDF");
     sources_json := JList source_entries;
     index_flat_ip := fun vectors =>
       Ok {| ntotal := length vectors; ix_search := ix_search Demo.two_chunk_index |};
     write_error := fun _ => None |}.

(** A world with an empty index directory. *)
Definition empty_world : World :=
  Demo.world ∅ Demo.unit_embed false (Ok []) Demo.save_ok (Demo.texts_document [] None).

(** The files a run of [ingest_references] leaves there. *)
Definition ingested_files : gmap string File :=
  match ingest_references 8 empty_world references with
  | Some (Ok files) => files
  | _ => ∅
  end.

(** No language model, no labels file; every path exists but one. *)
Definition host : Host :=
  {| upload_exists := fun path => negb (String.eqb path "uploads/lost.docx");
     doc_type_labels := None;
     classify_reply := fun _ _ => Err (OtherError "no model");
     detect_reply := fun _ _ => Err (OtherError "no model");
     float_of_int := fun z => Ok (Q2Qc (inject_Z z));
     float_of_str := fun _ => Err ValueError |}.

Definition aoa_document : Document :=
  Demo.texts_document
    ["Articles of Association of Example Ltd."; "Disputes go to the UAE courts.";
     "Signed by the directors."] None.

(** Every path opens as [aoa_document]; the index of two chunks is built. *)
Definition upload_world : World :=
  Demo.world Demo.built_files Demo.unit_embed false (Ok []) Demo.save_ok aoa_document.

Definition initial_state (paths : list string) : WorkflowState :=
  {| file_paths := paths; doc_types := []; process := JStr ""; issues := [];
     annotated_paths := []; intake_cache := [] |}.

(** One upload that the intake reads and one that it skips. *)
Definition uploads : list string := ["uploads/aoa.docx"; "uploads/notes.txt"].

Definition final_state : WorkflowState :=
  match run_workflow upload_world host uploads None with
  | Ok (state, _, _) => state
  | Err _ => initial_state uploads
  end.

Definition reported : Json * option Qc :=
  match run_workflow upload_world host uploads None with
  | Ok (_, process, process_conf) => (process, process_conf)
  | Err _ => (JNull, None)
  end.

End Samples.

(** * Properties *)

Import Py Schemas Docx Env.

(** ** Strings *)

(** [s] occurs in [t]. *)
Definition is_substring (s t : string) : Prop := exists a b, t = a +:+ s +:+ b.

Lemma truthy_true s : Py.truthy s = true <-> s <> "".
Proof. destruct s; simpl; split; congruence. Qed.

Lemma truthy_false s : Py.truthy s = false <-> s = "".
Proof. destruct s; simpl; split; congruence. Qed.

Lemma append_cons a (s t : string) : String a s +:+ t = String a (s +:+ t).
Proof. reflexivity. Qed.

Lemma append_nil_l (t : string) : "" +:+ t = t.
Proof. reflexivity. Qed.

Ltac str_simpl := rewrite ?append_cons, ?append_nil_l in *.

Lemma startswith_spec pre s : startswith pre s = true <-> exists post, s = pre +:+ post.
Proof.
  revert s. induction pre as [|a pre IH]; intros s; simpl.
  - split; [intros _; exists s; reflexivity | reflexivity].
  - destruct s as [|b s].
    + split; [discriminate | intros [post H]; discriminate].
    + destruct (Ascii.eqb_spec a b) as [->|Hne].
      * rewrite IH. split; intros [post H]; exists post; str_simpl; congruence.
      * split; [discriminate | intros [post H]; str_simpl; congruence].
Qed.

Lemma contains_spec needle hay : contains needle hay = true <-> is_substring needle hay.
Proof.
  unfold is_substring. induction hay as [|c hay IH].
  - simpl. rewrite orb_false_r, startswith_spec. split.
    + intros [post H]. exists "", post. exact H.
    + intros (a & b & H). destruct a; [exists b; exact H | discriminate].
  - cbn [contains]. rewrite orb_true_iff, IH, startswith_spec. split.
    + intros [[post H] | (a & b & H)].
      * exists "", post. exact H.
      * exists (String c a), b. str_simpl. congruence.
    + intros (a & b & H). destruct a as [|c' a].
      * left. exists b. exact H.
      * right. exists a, b. str_simpl. congruence.
Qed.


Lemma lower_take n s : take_str n (lower s) = lower (take_str n s).
Proof.
  revert s. induction n as [|n IH]; intros [|c s]; simpl; try reflexivity.
  now rewrite IH.
Qed.

Lemma lower_empty s : lower s = "" <-> s = "".
Proof. destruct s; simpl; split; congruence. Qed.

Lemma take_str_length n s : String.length (take_str n s) = Nat.min n (String.length s).
Proof.
  revert s. induction n as [|n IH]; intros [|c s]; simpl; try reflexivity.
  now rewrite IH.
Qed.

Lemma take_str_prefix n m s : (n <= m)%nat -> exists r, take_str m s = take_str n s +:+ r.
Proof.
  revert m s. induction n as [|n IH]; intros m s Hle.
  - exists (take_str m s). destruct s; reflexivity.
  - destruct m as [|m]; [lia|]. destruct s as [|c s].
    + exists "". reflexivity.
    + destruct (IH m s) as [r Hr]; [lia|]. exists r. simpl. str_simpl. now rewrite Hr.
Qed.

Lemma append_assoc (a b c : string) : (a +:+ b) +:+ c = a +:+ b +:+ c.
Proof. induction a; str_simpl; congruence. Qed.

(** A shorter prefix of the candidate occurs wherever a longer one does; the
    converse is what fails. *)
Lemma is_substring_shorter n m c t :
  (n <= m)%nat -> is_substring (take_str m c) t -> is_substring (take_str n c) t.
Proof.
  intros Hle (a & b & ->). destruct (take_str_prefix n m c Hle) as [r ->].
  exists a, (r +:+ b). now rewrite append_assoc.
Qed.

(** ** Substring strategy *)
Section Substring.
Import Annotator.

(** The paragraph contains, case-insensitively, the first 30 characters of a
    non-empty candidate. *)
Definition par_matches (candidates : list string) (p : Paragraph) : Prop :=
  exists c, In c candidates /\ c <> "" /\
    is_substring (lower (take_str 30 c)) (lower (text p)).

Lemma prefix_in_matches candidates p :
  existsb (prefix_in (lower (text p))) (lowered_candidates candidates) = true
  <-> par_matches candidates p.
Proof.
  unfold par_matches, lowered_candidates, prefix_in. rewrite existsb_exists. split.
  - intros (lc & Hin & Hc). apply andb_true_iff in Hc as [Hne Hsub].
    apply list_elem_of_In, list_elem_of_fmap in Hin as (c & -> & Hin).
    apply list_elem_of_In, filter_In in Hin as [Hin Ht].
    exists c. split; [exact Hin|]. split; [now apply truthy_true|].
    rewrite <- lower_take. now apply contains_spec.
  - intros (c & Hin & Hne & Hsub). exists (lower c). split.
    + apply list_elem_of_In, list_elem_of_fmap. exists c. split; [reflexivity|].
      apply list_elem_of_In, filter_In. split; [exact Hin | now apply truthy_true].
    + apply andb_true_iff. split.
      * apply truthy_true. rewrite lower_empty. exact Hne.
      * rewrite lower_take. now apply contains_spec.
Qed.

Lemma find_loop_Some idx ps lowered i :
  find_loop idx ps lowered = Some i <->
  exists k p, i = (idx + k)%nat /\ ps !! k = Some p /\
    existsb (prefix_in (lower (text p))) lowered = true /\
    forall k' p', (k' < k)%nat -> ps !! k' = Some p' ->
      existsb (prefix_in (lower (text p'))) lowered = false.
Proof.
  revert idx. induction ps as [|p ps IH]; intros idx; simpl.
  - split; [discriminate | intros (k & p & _ & H & _); discriminate].
  - destruct (existsb (prefix_in (lower (text p))) lowered) eqn:E.
    + split.
      * intros [= <-]. exists 0%nat, p. repeat split; [lia | exact E | intros; lia].
      * intros (k & q & -> & Hk & Hq & Hmin). destruct k as [|k]; [f_equal; lia|].
        specialize (Hmin 0%nat p ltac:(lia) eq_refl). congruence.
    + rewrite IH. split.
      * intros (k & q & -> & Hk & Hq & Hmin). exists (S k), q.
        repeat split; [lia | exact Hk | exact Hq |].
        intros [|k'] p' Hlt Hp'; simpl in Hp'; [congruence|]. eapply Hmin; [|exact Hp']. lia.
      * intros (k & q & -> & Hk & Hq & Hmin). destruct k as [|k]; simpl in Hk; [congruence|].
        exists k, q. repeat split; [lia | exact Hk | exact Hq |].
        intros k' p' Hlt Hp'. apply (Hmin (S k') p'); [lia | exact Hp'].
Qed.

Lemma find_loop_None idx ps lowered :
  find_loop idx ps lowered = None <->
  forall k p, ps !! k = Some p -> existsb (prefix_in (lower (text p))) lowered = false.
Proof.
  revert idx. induction ps as [|p ps IH]; intros idx; simpl.
  - split; [intros _ k p H; discriminate | reflexivity].
  - destruct (existsb (prefix_in (lower (text p))) lowered) eqn:E.
    + split; [discriminate | intros H; specialize (H 0%nat p eq_refl); congruence].
    + rewrite IH. split.
      * intros H [|k] q Hq; simpl in Hq; [congruence | eauto].
      * intros H k q Hq. apply (H (S k) q Hq).
Qed.

Lemma lowered_nil_no_match candidates p :
  lowered_candidates candidates = [] -> ~ par_matches candidates p.
Proof.
  intros Hnil Hm. apply prefix_in_matches in Hm. rewrite Hnil in Hm. discriminate.
Qed.

Lemma not_true_false (b : bool) : b = false <-> ~ b = true.
Proof. destruct b; split; congruence. Qed.

Lemma find_paragraph_index_Some doc candidates i :
  _find_paragraph_index doc candidates = Some i <->
  (exists p, paragraphs doc !! i = Some p /\ par_matches candidates p) /\
  (forall j q, (j < i)%nat -> paragraphs doc !! j = Some q -> ~ par_matches candidates q).
Proof.
  unfold _find_paragraph_index.
  destruct (lowered_candidates candidates) as [|l ls] eqn:E.
  - split; [discriminate|]. intros [(p & _ & Hm) _].
    exfalso. eapply lowered_nil_no_match; eauto.
  - rewrite <- E, find_loop_Some. split.
    + intros (k & p & -> & Hk & Hp & Hmin). split.
      * exists p. split; [exact Hk | now apply prefix_in_matches].
      * intros j q Hlt Hq Hm. apply prefix_in_matches in Hm.
        rewrite (Hmin j q) in Hm; [discriminate | lia | exact Hq].
    + intros [(p & Hp & Hm) Hmin]. exists i, p. repeat split; [exact Hp | now apply prefix_in_matches |].
      intros k' p' Hlt Hp'. apply not_true_false. rewrite prefix_in_matches. eauto.
Qed.

Lemma find_paragraph_index_None doc candidates :
  _find_paragraph_index doc candidates = None <->
  forall j q, paragraphs doc !! j = Some q -> ~ par_matches candidates q.
Proof.
  unfold _find_paragraph_index.
  destruct (lowered_candidates candidates) as [|l ls] eqn:E.
  - split; [|reflexivity]. intros _ j q _. now apply lowered_nil_no_match.
  - rewrite <- E, find_loop_None. split.
    + intros H j q Hq Hm. apply prefix_in_matches in Hm. rewrite (H j q Hq) in Hm. discriminate.
    + intros H k p Hp. apply not_true_false. rewrite prefix_in_matches. eauto.
Qed.

End Substring.

(** A document of plain paragraphs, for concrete instances. *)
Definition plain_document (texts : list string) : Document :=
  {| paragraphs := new_paragraph Normal <$> texts; comments := None; can_create_comments := true;
     style_error := Demo.all_styles |}.

(** [issue.evidence[0].snippet] when there is evidence, else the empty string. *)
Definition first_snippet (it : IssueItem) : string :=
  match evidence it with
  | ev :: _ => snippet ev
  | [] => ""
  end.

Lemma candidates_of_priority it :
  Annotator.candidates_of it = List.filter truthy [first_snippet it; issue it; section it].
Proof.
  unfold Annotator.candidates_of, first_snippet. simpl.
  destruct (evidence it) as [|ev evs]; simpl;
    repeat match goal with |- context [truthy ?s] => destruct (truthy s) end; reflexivity.
Qed.

(** C6. The candidates of an issue are its first evidence snippet, its text
    and its section label, in this order, the empty ones left out.
    [_find_paragraph_index] returns position [i] exactly when paragraph [i]
    contains, case-insensitively, the first 30 characters of a non-empty
    candidate and no earlier paragraph does; it returns nothing exactly when
    no paragraph does, in particular when every candidate is empty. A
    paragraph that contains the first 29 characters of a candidate but not
    the first 30 does not match. *)
Theorem substring_strategy_lowest_prefix_match :
  forall (doc : Document) (it : IssueItem),
    Annotator.candidates_of it = List.filter truthy [first_snippet it; issue it; section it] /\
    (forall candidates i,
        Annotator._find_paragraph_index doc candidates = Some i <->
        (exists p, paragraphs doc !! i = Some p /\ par_matches candidates p) /\
        (forall j q, (j < i)%nat -> paragraphs doc !! j = Some q -> ~ par_matches candidates q)) /\
    (forall candidates,
        Annotator._find_paragraph_index doc candidates = None <->
        forall j q, paragraphs doc !! j = Some q -> ~ par_matches candidates q) /\
    (forall candidates,
        (forall c, In c candidates -> c = "") ->
        Annotator._find_paragraph_index doc candidates = None) /\
    (forall c i p,
        paragraphs doc !! i = Some p ->
        is_substring (lower (take_str 29 c)) (lower (text p)) ->
        ~ is_substring (lower (take_str 30 c)) (lower (text p)) ->
        Annotator._find_paragraph_index doc [c] <> Some i) /\
    Annotator._find_paragraph_index
      (plain_document ["Intro."; "THE QUICK BROWN FOX JUMPS OVEN the lazy dog"])
      ["the quick brown fox jumps over the lazy dog"] = None /\
    Annotator._find_paragraph_index
      (plain_document ["Intro."; "THE QUICK BROWN FOX JUMPS OVER a fence"; "the quick brown fox jumps over"])
      ["the quick brown fox jumps over the lazy dog"] = Some 1%nat.
Proof.
  intros doc it. split; [apply candidates_of_priority|].
  split; [intros; apply find_paragraph_index_Some|].
  split; [intros; apply find_paragraph_index_None|].
  split; [|split; [|split; reflexivity]].
  - intros candidates Hall. apply find_paragraph_index_None.
    intros j q _ (c & Hin & Hne & _). auto.
  - intros c i p Hp _ Hno Hsome. apply find_paragraph_index_Some in Hsome as [(p' & Hp' & Hm) _].
    assert (p' = p) as -> by congruence.
    destruct Hm as (c' & [<-|[]] & _ & Hsub). contradiction.
Qed.

(** ** Keyword strategy *)
Section Keyword.
Import Annotator.

Variable keywords : list string.



End Keyword.

Section KeywordAnchor.
Import Annotator.















End KeywordAnchor.

(** ** Semantic strategy *)
Section Semantic.
Import Annotator.

Import Np.












Variable q_emb : vec.


End Semantic.

Section SemanticAnchor.
Import Annotator Np.









(** *** The threshold on float32 scores *)









(** The order of numpy's sum on nine elements: eight accumulators, added as
    a tree, then the ninth element. *)
Example numpy_sum_of_nine :
  forall a0 a1 a2 a3 a4 a5 a6 a7 a8 : float32,
    Np.sum [a0; a1; a2; a3; a4; a5; a6; a7; a8] =
      add32 zero32
        (add32 (add32 (add32 (add32 a0 a1) (add32 a2 a3))
                      (add32 (add32 a4 a5) (add32 a6 a7))) a8).
Proof. reflexivity. Qed.

(** A score that is not a number is passed over: it is never above the best
    score so far, and no later score is compared with it. *)
Example semantic_loop_passes_nan :
  semantic_loop 0 [[S754_nan]; [Demo.f32 1 (-1)]] [Demo.f32 1 0] None minus_one
    = Ok (Some 1%nat, float (Demo.f32 1 (-1))).
Proof. vm_compute. reflexivity. Qed.

End SemanticAnchor.

(** ** Retriever *)
Section Search.
Import Retriever.

Definition meta_complete (m : Meta) : Prop :=
  is_Some (m_source_path m) /\ is_Some (m_chunk_index m).

(** Position [idx] addresses both parallel arrays, and the metadata there
    names its source and chunk number. *)
Definition addressable (r : FaissRetriever) (idx : Z) : Prop :=
  (0 <= idx)%Z /\ is_Some (chunks r !! Z.to_nat idx) /\
  exists m, meta r !! Z.to_nat idx = Some m /\ meta_complete m.

(** The hit was built from the score and the position [idx] of one pair:
    chunk and metadata are those at offset [idx]. *)
Definition hit_at (r : FaissRetriever) (h : Hit) (pair : Qc * Z) : Prop :=
  pair.2 <> (-1)%Z /\ h_score h = pair.1 /\
  chunks r !! Z.to_nat pair.2 = Some (h_chunk h) /\
  exists m sp ci, meta r !! Z.to_nat pair.2 = Some m /\
    m_source_path m = Some sp /\ m_chunk_index m = Some ci /\
    h_ref_id h = basename sp +:+ "#chunk-" +:+ str_of_Z ci /\
    h_source_path h = sp /\ h_source_url h = m_source_url m.

Definition not_placeholder (pair : Qc * Z) : bool := negb (pair.2 =? -1)%Z.

Lemma py_index_nonneg {A} (l : list A) (i : Z) a :
  (0 <= i)%Z -> l !! Z.to_nat i = Some a -> py_index l i = Ok a.
Proof.
  intros Hi Hl. unfold py_index, py_pos.
  pose proof (lookup_lt_Some _ _ _ Hl) as Hlt.
  destruct (Z.ltb_spec i 0) as [|_]; [lia|].
  destruct (Z.ltb_spec i 0) as [|_]; [lia|].
  destruct (Z.leb_spec (Z.of_nat (length l)) i) as [|_]; [lia|].
  simpl. rewrite Hl. reflexivity.
Qed.

Lemma make_hit_addressable r score idx :
  idx <> (-1)%Z -> addressable r idx ->
  exists h, make_hit r score idx = Ok h /\ hit_at r h (score, idx).
Proof.
  intros Hne (Hpos & [c Hc] & m & Hm & [sp Hsp] & [ci Hci]).
  unfold make_hit. rewrite (py_index_nonneg _ _ _ Hpos Hc), (py_index_nonneg _ _ _ Hpos Hm).
  simpl. rewrite Hsp, Hci. simpl. eexists. split; [reflexivity|].
  unfold hit_at; simpl. split; [exact Hne|]. split; [reflexivity|]. split; [exact Hc|].
  exists m, sp, ci. repeat split; assumption.
Qed.

Lemma search_loop_spec r pairs : forall results,
  (forall pair, In pair pairs -> pair.2 = (-1)%Z \/ addressable r pair.2) ->
  exists hs, search_loop r pairs results = Ok (results ++ hs) /\
    Forall2 (hit_at r) hs (List.filter not_placeholder pairs).
Proof.
  induction pairs as [|[score idx] pairs IH]; intros results Hall; simpl.
  - exists []. rewrite app_nil_r. split; [reflexivity | constructor].
  - unfold not_placeholder at 1. simpl. destruct (Z.eqb_spec idx (-1)) as [->|Hne]; simpl.
    + apply IH. intros pair Hin. apply Hall. now right.
    + destruct (Hall (score, idx) (or_introl eq_refl)) as [|Hadd]; [contradiction|].
      destruct (make_hit_addressable r score idx Hne Hadd) as (h & -> & Hh). simpl.
      destruct (IH (results ++ [h])) as (hs & -> & Hhs).
      { intros pair Hin. apply Hall. now right. }
      exists (h :: hs). rewrite <- app_assoc. split; [reflexivity | now constructor].
Qed.

Lemma filter_length_le {A} (f : A -> bool) (l : list A) :
  (length (List.filter f l) <= length l)%nat.
Proof. induction l as [|a l IH]; simpl; [lia|]. destruct (f a); simpl; lia. Qed.

(** C10. When the vector index answers a query with [top_k] scores and
    [top_k] positions, each position being the placeholder -1 or a position
    that addresses both parallel arrays, [search] returns a list and does
    not raise: the list has one result for each position other than -1, in
    order, so at most [top_k] results, and the chunk and the metadata of each
    result are those at the position of its pair. *)
Theorem search_skips_placeholders :
  forall (w : World) (r : FaissRetriever) (query : string) (q_vec : list vec)
         (scores0 : list Qc) (idxs0 : list Z) (srest : list (list Qc)) (irest : list (list Z)),
    embed_texts w [query] = Ok q_vec ->
    ix_search (index r) q_vec (top_k r) = Ok (scores0 :: srest, idxs0 :: irest) ->
    length scores0 = top_k r ->
    length idxs0 = top_k r ->
    (forall idx, In idx idxs0 -> idx = (-1)%Z \/ addressable r idx) ->
    exists hits,
      search w r query = Ok hits /\
      (length hits <= top_k r)%nat /\
      length hits = length (List.filter (fun idx => negb (idx =? -1)%Z) idxs0) /\
      Forall2 (hit_at r) hits (List.filter not_placeholder (zip scores0 idxs0)).
Proof.
  intros w r query q_vec scores0 idxs0 srest irest Hq Hix Hls Hli Hall.
  destruct (search_loop_spec r (zip scores0 idxs0) []) as (hs & Hloop & Hhs).
  { intros [s idx] Hin. apply Hall. apply list_elem_of_In in Hin.
    apply elem_of_zip_r in Hin. now apply list_elem_of_In. }
  exists hs. split; [|split; [|split]].
  - unfold search. rewrite Hq. simpl. rewrite Hix. simpl. exact Hloop.
  - apply Forall2_length in Hhs. rewrite Hhs.
    etransitivity; [apply filter_length_le|]. rewrite length_zip. lia.
  - apply Forall2_length in Hhs. rewrite Hhs. clear -Hls Hli.
    assert (Hlen : length scores0 = length idxs0) by lia. clear Hls Hli.
    revert idxs0 Hlen. induction scores0 as [|s ss IH]; intros [|i js] Hlen; simpl in *;
      try discriminate; [reflexivity|].
    unfold not_placeholder at 1. simpl. destruct (negb (i =? -1)%Z); simpl; rewrite IH; auto.
  - exact Hhs.
Qed.

(** An instance: four neighbours asked of an index of two chunks. *)
Lemma search_skips_placeholders_two_chunks :
  exists hits,
    search Demo.built_world Demo.two_chunk_retriever "adgm courts" = Ok hits /\
    (length hits <= 4)%nat /\
    length hits = length (List.filter (fun idx => negb (idx =? -1)%Z) [1; 0; -1; -1]%Z) /\
    Forall2 (hit_at Demo.two_chunk_retriever) hits
      (List.filter not_placeholder
         (zip [Demo.q 9 10; Demo.q 1 2; Demo.q (-1) 1; Demo.q (-1) 1] [1; 0; -1; -1]%Z)).
Proof.
  apply (search_skips_placeholders Demo.built_world Demo.two_chunk_retriever "adgm courts"
           [[Demo.f32 1 0; Np.zero32]] _ _ [] []).
  - reflexivity.
  - reflexivity.
  - reflexivity.
  - reflexivity.
  - intros idx [<-|[<-|[<-|[<-|[]]]]]; [right | right | left | left]; try reflexivity.
    + split; [lia|]. split; [eexists; reflexivity|]. eexists. split; [reflexivity|].
      split; eexists; reflexivity.
    + split; [lia|]. split; [eexists; reflexivity|]. eexists. split; [reflexivity|].
      split; eexists; reflexivity.
Defined.

End Search.

Section RetrieverInit.
Import Retriever Compliance.

Definition index_path (w : World) : string := path_join (faiss_index_dir w) "index.faiss".
Definition chunks_path (w : World) : string := path_join (faiss_index_dir w) "chunks.json".
Definition meta_path (w : World) : string := path_join (faiss_index_dir w) "meta.json".

(** The three files ingestion persists. *)
Definition persisted_files (w : World) : list string :=
  [index_path w; chunks_path w; meta_path w].

Definition absent (w : World) (p : string) : Prop := fs w !! p = None.

Lemma path_exists_false w p : path_exists w p = false <-> absent w p.
Proof.
  unfold path_exists, absent. rewrite bool_decide_eq_false.
  symmetry. apply eq_None_not_Some.
Qed.

Lemma path_exists_true w p : path_exists w p = true <-> is_Some (fs w !! p).
Proof. unfold path_exists. apply bool_decide_eq_true. Qed.

Lemma init_index_not_found w k :
  __init__ w k = Err index_not_found <-> absent w (index_path w) \/ absent w (chunks_path w).
Proof.
  unfold __init__. fold (index_path w) (chunks_path w) (meta_path w).
  destruct (path_exists w (index_path w)) eqn:Ei; simpl.
  - destruct (path_exists w (chunks_path w)) eqn:Ec; simpl.
    + apply path_exists_true in Ei as [fi Hi], Ec as [fc Hc]. split.
      * unfold read_index, load_chunks, load_meta. rewrite Hi, Hc.
        destruct fi; simpl; try discriminate.
        destruct fc; simpl; try discriminate.
        destruct (fs w !! meta_path w) as [[]|]; simpl; discriminate.
      * unfold absent. intros [H|H]; congruence.
    + apply path_exists_false in Ec. split; auto.
  - apply path_exists_false in Ei. split; auto.
Qed.

Lemma search_error_origin w r query e :
  search w r query = Err e ->
  embed_texts w [query] = Err e \/
  (exists q_vec, embed_texts w [query] = Ok q_vec /\ ix_search (index r) q_vec (top_k r) = Err e) \/
  e = IndexError \/ exists key, e = KeyError key.
Proof.
  unfold search. destruct (embed_texts w [query]) as [q_vec|e0]; simpl; [|intros [= ->]; auto].
  destruct (ix_search (index r) q_vec (top_k r)) as [[scores idxs]|e0] eqn:E; simpl;
    [|intros [= ->]; right; left; eauto].
  destruct scores as [|scores0 ?]; simpl; [intros [= <-]; auto|].
  destruct idxs as [|idxs0 ?]; simpl; [intros [= <-]; auto|].
  generalize (@nil Hit). induction (zip scores0 idxs0) as [|[s idx] pairs IH]; intros acc; simpl.
  - discriminate.
  - destruct (idx =? -1)%Z; [apply IH|].
    unfold make_hit, py_index, py_pos, require.
    repeat match goal with
           | |- context [match ?x with _ => _ end] => destruct x; simpl; try (intros [= <-]; eauto)
           end; try apply IH.
Qed.

(** C9, as amended. Constructing the retriever raises the index-not-found
    error exactly when [index.faiss] or [chunks.json] is absent from the
    index directory. [check_compliance] builds the retriever once, outside
    any handler: an error of the construction is the error of
    [check_compliance]. When the three persisted files are present and hold
    an index, the chunk texts and the metadata, construction succeeds with
    these; and [search] raises the index-not-found error only if the
    embedding model or the vector index raises it. *)
Theorem retriever_init_index_not_found :
  forall (w : World) (k : nat),
    (__init__ w k = Err index_not_found <->
     absent w (index_path w) \/ absent w (chunks_path w)) /\
    (forall e file_name display_name text,
        __init__ w 4 = Err e -> check_compliance w file_name display_name text = Err e) /\
    (forall ix cs ms,
        fs w !! index_path w = Some (FaissFile ix) ->
        fs w !! chunks_path w = Some (ChunksJson cs) ->
        fs w !! meta_path w = Some (MetaJson ms) ->
        __init__ w k = Ok {| index := ix; chunks := cs; meta := ms; top_k := k |}) /\
    (forall r query,
        search w r query = Err index_not_found ->
        embed_texts w [query] = Err index_not_found \/
        exists q_vec, embed_texts w [query] = Ok q_vec /\
                      ix_search (index r) q_vec (top_k r) = Err index_not_found).
Proof.
  intros w k. split; [apply init_index_not_found|]. split; [|split].
  - intros e f d t He. unfold check_compliance. rewrite He. reflexivity.
  - intros ix cs ms Hi Hc Hm. unfold __init__. fold (index_path w) (chunks_path w) (meta_path w).
    assert (path_exists w (index_path w) = true) as -> by (apply path_exists_true; eauto).
    assert (path_exists w (chunks_path w) = true) as -> by (apply path_exists_true; eauto).
    simpl. unfold read_index, load_chunks, load_meta. rewrite Hi, Hc, Hm. reflexivity.
  - intros r query He. apply search_error_origin in He as [H | [H | [H | [key H]]]]; auto;
      discriminate.
Qed.

(** The claim as stated fails on an index that is partly there. With
    [meta.json] absent and the two other files present, a persisted file is
    absent and the construction fails, but with the error of opening
    [meta.json], not with the index-not-found error. With only [meta.json]
    present, the index-not-found error is raised although not every
    persisted file is absent. *)
Lemma retriever_init_partial_index :
  (let w := Demo.world (delete "data/faiss_index/meta.json" Demo.built_files)
              Demo.unit_embed false (Ok []) Demo.save_ok (Demo.texts_document [] None) in
   (exists p, In p (persisted_files w) /\ absent w p) /\
   __init__ w 4 = Err (FileNotFoundError "data/faiss_index/meta.json") /\
   __init__ w 4 <> Err index_not_found) /\
  (let w := Demo.world {[ "data/faiss_index/meta.json" := MetaJson Demo.two_meta ]}
              Demo.unit_embed false (Ok []) Demo.save_ok (Demo.texts_document [] None) in
   __init__ w 4 = Err index_not_found /\
   ~ (forall p, In p (persisted_files w) -> absent w p)).
Proof.
  split.
  - split; [|split].
    + exists "data/faiss_index/meta.json". split; [right; right; left; reflexivity|].
      vm_compute. reflexivity.
    + vm_compute. reflexivity.
    + vm_compute. discriminate.
  - split.
    + vm_compute. reflexivity.
    + intros H. specialize (H "data/faiss_index/meta.json" (or_intror (or_intror (or_introl eq_refl)))).
      vm_compute in H. discriminate.
Qed.

End RetrieverInit.

(** ** Citation accumulation *)
Section Cite.
Import Retriever Compliance.

(** Every hit has an empty [ref_id] or one that is in [used]. *)
Definition all_used (hits : list Hit) (used : gset string) : Prop :=
  forall h, In h hits -> h_ref_id h = "" \/ h_ref_id h ∈ used.

Lemma first_fresh_Some hits used h :
  first_fresh hits used = Some h -> In h hits /\ h_ref_id h <> "" /\ h_ref_id h ∉ used.
Proof.
  induction hits as [|h0 hits IH]; simpl; [discriminate|].
  destruct (truthy (h_ref_id h0)) eqn:Et; simpl.
  - case_bool_decide as Hin.
    + intros [= <-]. split; [now left|]. split; [now apply truthy_true | exact Hin].
    + intros H. destruct (IH H) as (? & ? & ?). auto.
  - intros H. destruct (IH H) as (? & ? & ?). auto.
Qed.

Lemma first_fresh_None hits used : first_fresh hits used = None -> all_used hits used.
Proof.
  induction hits as [|h0 hits IH]; simpl; intros H h Hin; [contradiction|].
  destruct (truthy (h_ref_id h0)) eqn:Et; simpl in H.
  - case_bool_decide as Hnin; [discriminate|].
    destruct Hin as [<-|Hin]; [|now apply IH].
    right. destruct (decide (h_ref_id h0 ∈ used)); [assumption | contradiction].
  - destruct Hin as [<-|Hin]; [|now apply IH]. left. now apply truthy_false.
Qed.

(** One call of [cite]: a fresh reference is attached and recorded, or every
    hit is used and the first hit (if any) is attached again. *)
Lemma cite_spec w r query used ev used' :
  cite w r query used = Ok (ev, used') ->
  exists hits, search w r query = Ok hits /\
    ((exists h, In h hits /\ h_ref_id h <> "" /\ (h_ref_id h ∉ used) /\
                ev = [evidence_of h] /\ used' = {[h_ref_id h]} ∪ used) \/
     (all_used hits used /\ used' = used /\
      ev = match hits with h :: _ => [evidence_of h] | [] => [] end)).
Proof.
  unfold cite. destruct (search w r query) as [hits|e]; simpl; [|discriminate].
  intros H. exists hits. split; [reflexivity|].
  destruct (first_fresh hits used) as [h|] eqn:E.
  - injection H as <- <-. apply first_fresh_Some in E as (Hin & Hne & Hnin).
    left. exists h. auto.
  - apply first_fresh_None in E. right.
    destruct hits; injection H as <- <-; auto.
Qed.

(** The reference attached by call [j] is fresh: non-empty, not in the
    initial set, not attached by an earlier call. *)
Definition attached_fresh (used : gset string) (evs : list (list IssueEvidence))
  (j : nat) (ej : IssueEvidence) : Prop :=
  ref_id ej <> "" /\ (ref_id ej ∉ used) /\
  forall k e, (k < j)%nat -> evs !! k = Some [e] -> ref_id e <> ref_id ej.

(** Call [j] fell back to its first hit: every hit of its query had an empty
    [ref_id], or one in the initial set, or one attached by an earlier call. *)
Definition attached_fallback (w : World) (r : FaissRetriever) (queries : list string)
  (used : gset string) (evs : list (list IssueEvidence)) (j : nat) (ej : IssueEvidence) : Prop :=
  exists query h0 rest,
    queries !! j = Some query /\ search w r query = Ok (h0 :: rest) /\ ej = evidence_of h0 /\
    forall h, In h (h0 :: rest) ->
      h_ref_id h = "" \/ h_ref_id h ∈ used \/
      exists k e, (k < j)%nat /\ evs !! k = Some [e] /\ ref_id e = h_ref_id h.

Lemma cite_all_spec w r queries : forall used evs used',
  cite_all w r queries used = Ok (evs, used') ->
  length evs = length queries /\
  used ⊆ used' /\
  (forall j ev, evs !! j = Some ev -> (length ev <= 1)%nat) /\
  forall j ej, evs !! j = Some [ej] ->
    attached_fresh used evs j ej \/ attached_fallback w r queries used evs j ej.
Proof.
  induction queries as [|query queries IH]; intros used evs used'; simpl.
  - intros [= <- <-]. repeat split; [reflexivity | |]; intros j e H; discriminate.
  - destruct (cite w r query used) as [[ev used1]|e] eqn:Ec; simpl; [|discriminate].
    destruct (cite_all w r queries used1) as [[evs' used2]|e] eqn:Ea; simpl; [|discriminate].
    intros [= <- <-]. destruct (IH _ _ _ Ea) as (Hlen & Hsub & Hone & Hall).
    apply cite_spec in Ec as (hits & Hhits & Hcase).
    assert (Hsub1 : used ⊆ used1).
    { destruct Hcase as [(h & _ & _ & _ & _ & ->) | (_ & -> & _)];
        [apply union_subseteq_r | reflexivity]. }
    assert (Hprev : forall e, ev = [e] -> ref_id e = "" \/ ref_id e ∈ used1).
    { intros e ->. destruct Hcase as [(h & _ & _ & _ & [= ->] & ->) | (Hu & -> & Hev)].
      - right. simpl. apply elem_of_union_l, elem_of_singleton. reflexivity.
      - destruct hits as [|h0 hits]; [discriminate|]. injection Hev as ->.
        apply (Hu h0). now left. }
    split; [simpl; lia|]. split; [etransitivity; eassumption|]. split.
    { intros [|j] ev0 Hj; simpl in Hj; [|eauto]. injection Hj as <-.
      destruct Hcase as [(h & _ & _ & _ & -> & _) | (_ & _ & ->)]; [simpl; lia|].
      destruct hits; simpl; lia. }
    intros [|j] ej Hj; simpl in Hj.
    + injection Hj as ->.
      destruct Hcase as [(h & Hin & Hne & Hnin & [= ->] & _) | (Hu & _ & Hev)].
      * left. split; [exact Hne|]. split; [exact Hnin|]. intros k e Hk. lia.
      * right. destruct hits as [|h0 rest]; [discriminate|]. injection Hev as ->.
        exists query, h0, rest. repeat split; auto.
        intros h Hin. destruct (Hu h Hin); auto.
    + destruct (Hall j ej Hj) as [(Hne & Hnin & Hearlier) | (q' & h0 & rest & Hq & Hs & He & Hu)].
      * left. split; [exact Hne|]. split; [intros Hin; apply Hnin, Hsub1, Hin|].
        intros [|k] e Hk He; simpl in He.
        -- injection He as ->. destruct (Hprev e eq_refl) as [H0 | Hin]; [congruence|].
           intros Heq. rewrite Heq in Hin. contradiction.
        -- eapply Hearlier; [|exact He]. lia.
      * right. exists q', h0, rest. repeat split; auto.
        intros h Hin. destruct (Hu h Hin) as [H0 | [Hin1 | (k & e & Hk & He' & Heq)]]; [auto | |].
        -- destruct Hcase as [(h1 & _ & _ & _ & -> & ->) | (_ & -> & _)]; [|auto].
           apply elem_of_union in Hin1 as [Hin1 | Hin1]; [|auto].
           apply elem_of_singleton in Hin1. right. right.
           exists 0%nat, (evidence_of h1). split; [lia|]. split; [reflexivity|]. simpl. congruence.
        -- right. right. exists (S k), e. split; [lia|]. auto.
Qed.

Lemma heuristic_issues_cite_all w file_name display_name text r issues :
  _heuristic_issues w file_name display_name text r = Ok issues ->
  exists used', cite_all w r (heuristic_queries text) ∅ = Ok (evidence <$> issues, used').
Proof.
  unfold _heuristic_issues, heuristic_queries, flag.
  repeat match goal with
         | |- context [if ?c then [?x] else []] => destruct c; simpl
         end;
  repeat match goal with
         | |- context [cite ?w ?r ?q ?u] => destruct (cite w r q u) as [[? ?]|?]; simpl; try discriminate
         end;
  intros [= <-]; eexists; reflexivity.
Qed.

End Cite.

Section CiteTheorem.
Import Retriever Compliance.

(** C4, as amended. In a run of [cite] calls over one [used_refs], each call
    attaches at most one evidence item, and the item of a call is either
    fresh (its [ref_id] is non-empty, was not in the set at the start and
    was not attached by an earlier call) or the first hit of a query all of
    whose hits have an empty [ref_id] or one already in the set or already
    attached. So a [ref_id] is attached a second time only by this
    fall-back. The evidence of the issues of [_heuristic_issues] is such a
    run, over the queries of the flagged conditions, from the empty set. *)
Theorem cite_fresh_or_first_hit_again :
  forall (w : World) (r : FaissRetriever) (queries : list string) (used : gset string)
         (evs : list (list IssueEvidence)) (used' : gset string),
    cite_all w r queries used = Ok (evs, used') ->
    length evs = length queries /\
    (forall j ev, evs !! j = Some ev -> (length ev <= 1)%nat) /\
    (forall j ej, evs !! j = Some [ej] ->
       attached_fresh used evs j ej \/ attached_fallback w r queries used evs j ej) /\
    (forall i j ei ej,
       (i < j)%nat -> evs !! i = Some [ei] -> evs !! j = Some [ej] ->
       ref_id ei = ref_id ej ->
       attached_fallback w r queries used evs j ej) /\
    (forall file_name display_name text issues,
       _heuristic_issues w file_name display_name text r = Ok issues ->
       exists used'', cite_all w r (heuristic_queries text) ∅ = Ok (evidence <$> issues, used'')).
Proof.
  intros w r queries used evs used' Hrun.
  destruct (cite_all_spec w r queries used evs used' Hrun) as (Hlen & _ & Hone & Hall).
  split; [exact Hlen|]. split; [exact Hone|]. split; [exact Hall|]. split.
  - intros i j ei ej Hlt Hi Hj Heq.
    destruct (Hall j ej Hj) as [(_ & _ & Hearlier) | Hfb]; [|exact Hfb].
    exfalso. exact (Hearlier i ei Hlt Hi Heq).
  - intros. eapply heuristic_issues_cite_all; eauto.
Qed.

Definition courts_evidence : IssueEvidence :=
  {| ref_id := "courts.txt#chunk-0"; snippet := "ADGM Courts have jurisdiction.";
     source_url := Some "https://www.adgm.com/courts" |}.
Definition companies_evidence : IssueEvidence :=
  {| ref_id := "companies.txt#chunk-0";
     snippet := "Companies Regulations 2020, Article 12: registered office.";
     source_url := None |}.

(** An instance: three queries against an index of two chunks. The third
    call finds both chunks used and attaches the first hit again. *)
Lemma cite_three_queries_two_chunks :
  attached_fallback Demo.built_world Demo.two_chunk_retriever
    (heuristic_queries "governed by federal law") ∅
    [[courts_evidence]; [companies_evidence]; [courts_evidence]] 2 courts_evidence.
Proof.
  refine (proj1 (proj2 (proj2 (proj2
    (cite_fresh_or_first_hit_again Demo.built_world Demo.two_chunk_retriever
       (heuristic_queries "governed by federal law") ∅
       [[courts_evidence]; [companies_evidence]; [courts_evidence]]
       ({[ "companies.txt#chunk-0" ]} ∪ ({[ "courts.txt#chunk-0" ]} ∪ ∅)) _))))
    0%nat 2%nat courts_evidence courts_evidence _ _ _ _).
  - vm_compute. reflexivity.
  - lia.
  - reflexivity.
  - reflexivity.
  - reflexivity.
Defined.

(** The claim as stated fails: for a document that mentions a federal
    jurisdiction, no signature and no ADGM, [check_compliance] cites three
    times against an index of two chunks, and the first and the third issue
    carry the same [ref_id]. *)
Lemma check_compliance_attaches_ref_twice :
  exists i1 i2 i3,
    check_compliance Demo.built_world "aoa.docx" "Articles of Association"
      "governed by federal law" = Ok [i1; i2; i3] /\
    evidence i1 = [courts_evidence] /\
    evidence i2 = [companies_evidence] /\
    evidence i3 = [courts_evidence].
Proof.
  eexists _, _, _. split; [vm_compute; reflexivity|].
  split; [reflexivity|]. split; reflexivity.
Qed.

End CiteTheorem.

(** ** Comment ids *)
Section CommentIds.
Import Annotator.

(** The comments of the document's store; none when it has no store. *)
Definition stored (d : Document) : list Comment := default [] (comments d).

Definition int_id (c : Comment) : option Z :=
  match c_id c with
  | Some (IdInt z) => Some z
  | _ => None
  end.

(** The integer ids present in a store. *)
Definition int_ids (cs : list Comment) : list Z := omap int_id cs.

(** No [w:id] of the store is a string that [int()] rejects. *)
Definition ids_well_formed (cs : list Comment) : Prop :=
  forall c s, In c cs -> c_id c <> Some (IdBad s).

(** The largest of zero and the integer ids of the store. *)
Definition id_ceiling (cs : list Comment) : Z := foldl Z.max 0%Z (int_ids cs).

(** The loop of the [try] block, were it reached: on a store whose ids read
    as integers it computes the largest of zero and the ids. *)
Lemma max_id_loop_well_formed cs : forall n,
  ids_well_formed cs -> max_id_loop cs n = Ok (foldl Z.max n (int_ids cs)).
Proof.
  induction cs as [|c cs IH]; intros n Hwf; simpl; [reflexivity|].
  assert (Hwf' : ids_well_formed cs) by (intros c' s Hin; apply Hwf; now right).
  unfold int_ids. simpl. unfold int_id at 1.
  destruct (c_id c) as [[z|s]|] eqn:E; simpl.
  - apply IH, Hwf'.
  - exfalso. apply (Hwf c s); [now left | exact E].
  - apply IH, Hwf'.
Qed.

(** The call of [xpath] raises before the loop: the [except] branch gives
    the id 0, whatever the store holds. *)
Lemma next_comment_id_zero cs : next_comment_id cs = 0%Z.
Proof. reflexivity. Qed.

Definition new_comment (id : Z) (body : string) : Comment :=
  {| c_id := Some (IdInt id); c_author := "ADGM Agent"; c_initials := "AA"; c_body := body |}.

(** The store is there or can be created. *)
Definition store_available (d : Document) : Prop :=
  is_Some (comments d) \/ can_create_comments d = true.

(** One call of [_add_word_comment]: nothing changes when there is no store
    and none can be made; otherwise one comment is appended, with the next
    id, and the paragraphs keep their number. *)
Lemma add_word_comment_spec doc j body :
  (~ store_available doc /\ _add_word_comment doc j body = (doc, None)) \/
  (store_available doc /\
   let id := next_comment_id (stored doc) in
   let doc' := (_add_word_comment doc j body).1 in
   (_add_word_comment doc j body).2 = Some id /\
   comments doc' = Some (stored doc ++ [new_comment id body]) /\
   length (paragraphs doc') = length (paragraphs doc) /\
   can_create_comments doc' = can_create_comments doc).
Proof.
  unfold _add_word_comment, _get_comments_part, store_available, stored.
  destruct (comments doc) as [cs|] eqn:E; simpl.
  - right. split; [left; eauto|]. simpl. rewrite length_alter. auto.
  - destruct (can_create_comments doc) eqn:Ec; simpl.
    + right. split; [now right|]. simpl. rewrite length_alter. auto.
    + left. split; [|reflexivity]. intros [[? H]|H]; discriminate.
Qed.


Lemma add_inline_comment_keeps doc j note :
  comments (_add_inline_comment doc j note) = comments doc /\
  length (paragraphs (_add_inline_comment doc j note)) = length (paragraphs doc) /\
  can_create_comments (_add_inline_comment doc j note) = can_create_comments doc.
Proof. unfold _add_inline_comment. simpl. rewrite length_alter. auto. Qed.

(** One group: the document afterwards has the same number of paragraphs,
    and its store is the one before, with one comment of the next id
    appended when a store is available. *)
Lemma annotate_group_spec w issues llm_map doc g doc' :
  annotate_group w issues llm_map doc g = Ok doc' ->
  length (paragraphs doc') = length (paragraphs doc) /\
  can_create_comments doc' = can_create_comments doc /\
  ((~ store_available doc /\ comments doc' = comments doc) \/
   (store_available doc /\
    comments doc' = Some (stored doc ++
      [new_comment (next_comment_id (stored doc)) (note_text_of w g.2)]))).
Proof.
  destruct g as [p_idx iss_list]. unfold annotate_group.
  destruct (first_issue_index issues iss_list) as [k|e]; simpl; [|discriminate].
  destruct (py_pos (length (paragraphs doc)) _) as [j|e]; simpl; [|discriminate].
  destruct (add_word_comment_spec doc j (note_text_of w iss_list))
    as [[Hna Heq] | (Hav & Hid & Hst & Hlen & Hcc)].
  - rewrite Heq. simpl. destruct (py_pos _ _) as [j'|e]; simpl; [|discriminate].
    intros [= <-]. destruct (add_inline_comment_keeps doc j' (note_text_of w iss_list))
      as (Hc & Hl & Hk).
    split; [exact Hl|]. split; [exact Hk|]. left. auto.
  - destruct (py_pos _ _) as [j'|e]; simpl; [|discriminate].
    intros [= <-].
    destruct (add_inline_comment_keeps (_add_word_comment doc j (note_text_of w iss_list)).1 j'
                (note_text_of w iss_list)) as (Hc & Hl & Hk).
    split; [congruence|]. split; [congruence|]. right. split; [exact Hav|]. congruence.
Qed.



End CommentIds.

Section CommentIdsTheorem.
Import Annotator.

(** One pass over the groups: the comments added follow the ones that were
    there, one per group when a store is available, each with the id 0. *)
Lemma annotate_groups_store w issues llm_map groups : forall doc doc',
  annotate_groups w issues llm_map doc groups = Ok doc' ->
  length (paragraphs doc') = length (paragraphs doc) /\
  exists new,
    stored doc' = stored doc ++ new /\
    (store_available doc -> length new = length groups) /\
    (~ store_available doc -> new = []) /\
    int_ids new = replicate (length new) 0%Z.
Proof.
  induction groups as [|g groups IH]; intros doc doc'; simpl.
  - intros [= <-]. split; [reflexivity|]. exists []. rewrite app_nil_r. auto.
  - destruct (annotate_group w issues llm_map doc g) as [doc1|e] eqn:Eg; simpl; [|discriminate].
    intros Hrest. apply annotate_group_spec in Eg as (Hlen1 & Hcc & Hstore).
    destruct (IH doc1 doc' Hrest) as (Hlen & new & Hnew & Hn & Hnone & Hids).
    destruct Hstore as [[Hna Hc] | [Hav Hc]].
    + assert (Hst : stored doc1 = stored doc) by (unfold stored; now rewrite Hc).
      assert (Hna1 : ~ store_available doc1).
      { unfold store_available in *. rewrite Hc, Hcc. exact Hna. }
      split; [congruence|]. exists []. rewrite (Hnone Hna1) in Hnew.
      rewrite Hnew, Hst. split; [reflexivity|]. split; [intros Hav; contradiction|].
      split; reflexivity.
    + set (c0 := new_comment (next_comment_id (stored doc)) (note_text_of w g.2)) in *.
      assert (Hst : stored doc1 = stored doc ++ [c0]) by (unfold stored at 1; now rewrite Hc).
      assert (Hav1 : store_available doc1) by (left; rewrite Hc; eauto).
      split; [congruence|]. exists (c0 :: new). split; [|split; [|split]].
      * rewrite Hnew, Hst, <- app_assoc. reflexivity.
      * intros _. simpl. f_equal. auto.
      * intros Hna. contradiction.
      * change (int_ids (c0 :: new)) with (0%Z :: int_ids new). rewrite Hids. reflexivity.
Qed.

(** C2, at the failing input. The store of the document holds the ids 3
    and 7 and a comment without id; two groups are annotated. The [try]
    block of [_add_word_comment] is written to give one more than the
    largest id, here 8 and then 9, but its first statement, the call of
    [xpath] with the keyword [namespaces], raises [TypeError] on the element
    of the comments part: the [except] branch sets the id to 0. Both
    comments of the pass get the id 0, which is neither distinct nor above
    the ids 3 and 7. So it is for every document: each comment that
    [_add_word_comment] adds has the id 0, and a pass over the groups adds
    one comment per group when a store is available, each with the id 0;
    the loop of the [try] block, were it reached on a store whose ids read
    as integers, would give one more than the largest of zero and the ids. *)
Theorem comment_ids_all_zero :
  let doc := Demo.reviewed_document in
  let issues := [Demo.address_issue; Demo.courts_issue] in
  let groups := [(0%nat, [Demo.address_issue]); (1%nat, [Demo.courts_issue])] in
  int_ids (stored doc) = [3; 7]%Z /\
  bind (max_id_loop (stored doc) 0) (fun next_id => Ok (next_id + 1)%Z) = Ok 8%Z /\
  next_id_try (stored doc) = Err (OtherError "TypeError") /\
  (_add_word_comment doc 0 "1. [High] Note").2 = Some 0%Z /\
  match annotate_groups Demo.built_world issues ∅ doc groups with
  | Ok d => int_ids (stored d) = [3; 7; 0; 0]%Z
  | Err _ => False
  end /\
  (_add_word_comment (Demo.texts_document ["Clause 1."] None) 0 "1. [High] Note").2
    = Some 0%Z /\
  match annotate_groups Demo.built_world issues ∅
          (Demo.texts_document ["Clause 1."; "Clause 2."] None) groups with
  | Ok d => int_ids (stored d) = [0; 0]%Z
  | Err _ => False
  end /\
  (forall d j body id, (_add_word_comment d j body).2 = Some id -> id = 0%Z) /\
  (forall w issues llm_map d groups d',
      annotate_groups w issues llm_map d groups = Ok d' ->
      exists new,
        stored d' = stored d ++ new /\
        (store_available d -> length new = length groups) /\
        int_ids new = replicate (length new) 0%Z) /\
  (forall cs,
      ids_well_formed cs ->
      bind (max_id_loop cs 0) (fun next_id => Ok (next_id + 1)%Z) = Ok (id_ceiling cs + 1)%Z).
Proof.
  intros doc issues groups.
  repeat (split; [vm_compute; reflexivity|]).
  split; [|split].
  - intros d j body id Hid.
    destruct (add_word_comment_spec d j body) as [[_ Heq] | (_ & Hid' & _)].
    + rewrite Heq in Hid. discriminate.
    + simpl in Hid'. rewrite Hid' in Hid. injection Hid as <-. reflexivity.
  - intros w issues' llm_map d groups' d' Hrun.
    destruct (annotate_groups_store w issues' llm_map groups' d d' Hrun)
      as (_ & new & Hnew & Hn & _ & Hids).
    exists new. auto.
  - intros cs Hwf. rewrite (max_id_loop_well_formed cs 0 Hwf). reflexivity.
Qed.

Example comment_ids_after_three_and_seven_values :
  int_ids (stored Demo.reviewed_document_annotated) = [3; 7; 0; 0]%Z.
Proof. vm_compute. reflexivity. Qed.

End CommentIdsTheorem.

(** ** Placement of the issues *)
Section Coverage.
Import Annotator.

Variable w : World.
Variable doc : Document.

(** The issues the cascade anchors at paragraph [p], in order. *)
Definition anchored_at (p : nat) (issues : list IssueItem) : list IssueItem :=
  filter (fun it => anchor_issue w doc it = Some p) issues.

(** The issues the cascade leaves without anchor, in order. *)
Definition unanchored_of (issues : list IssueItem) : list IssueItem :=
  filter (fun it => anchor_issue w doc it = None) issues.

Definition group_entry (l : list IssueItem) : option (list IssueItem) :=
  match l with
  | [] => None
  | _ :: _ => Some l
  end.

Lemma group_entry_default l : default [] (group_entry l) = l.
Proof. destruct l; reflexivity. Qed.

Lemma group_entry_snoc l it : group_entry (l ++ [it]) = Some (l ++ [it]).
Proof. destruct l; reflexivity. Qed.

Lemma group_issues_snoc issues it :
  group_issues w doc (issues ++ [it]) = place w doc (group_issues w doc issues) it.
Proof. unfold group_issues. apply foldl_snoc. Qed.

Lemma group_issues_inv issues :
  (forall p, (group_issues w doc issues).1 !! p = group_entry (anchored_at p issues)) /\
  (group_issues w doc issues).2 = unanchored_of issues /\
  mjoin (map_to_list (group_issues w doc issues).1).*2 ++ (group_issues w doc issues).2 ≡ₚ issues.
Proof.
  induction issues as [|it issues IH] using rev_ind.
  - split; [|split]; [intros p; apply lookup_empty | reflexivity |].
    unfold group_issues. simpl. rewrite map_to_list_empty. reflexivity.
  - rewrite group_issues_snoc. destruct IH as (Hg & Hu & Hperm).
    destruct (group_issues w doc issues) as [g u]. simpl in *.
    unfold place, anchored_at, unanchored_of in *. simpl.
    destruct (anchor_issue w doc it) as [p0|] eqn:Ea; simpl.
    + split; [|split].
      * intros p. rewrite filter_app. destruct (decide (p0 = p)) as [<-|Hne].
        -- rewrite lookup_insert_eq, Hg, group_entry_default, filter_cons_True by exact Ea.
           rewrite filter_nil. symmetry. apply group_entry_snoc.
        -- rewrite lookup_insert_ne by exact Hne.
           rewrite filter_cons_False by congruence. rewrite filter_nil, app_nil_r. apply Hg.
      * rewrite filter_app, filter_cons_False by congruence. rewrite filter_nil, app_nil_r.
        exact Hu.
      * rewrite <- Hperm. rewrite <- insert_delete_eq.
        rewrite map_to_list_insert by apply lookup_delete_eq.
        destruct (g !! p0) as [l|] eqn:El.
        -- rewrite <- (map_to_list_delete g p0 l El). simpl.
           rewrite <- !app_assoc. apply Permutation_app_head.
           cbn [app]. rewrite app_assoc. apply Permutation_cons_append.
        -- rewrite (delete_id g p0 El). simpl. apply Permutation_cons_append.
    + split; [|split].
      * intros p. rewrite filter_app, filter_cons_False by congruence.
        rewrite filter_nil, app_nil_r. apply Hg.
      * rewrite filter_app, filter_cons_True by exact Ea. rewrite filter_nil, Hu. reflexivity.
      * rewrite app_assoc, Hperm. reflexivity.
Qed.


End Coverage.

(** ** The appendix *)
Section Appendix.
Import Annotator.







End Appendix.

(** ** Completion of the annotation pass *)
Section Completion.
Import Annotator.


(** [v] is a position Python accepts for a sequence of length [n]. *)
Definition in_range (n : nat) (v : Z) : Prop := (- Z.of_nat n <= v < Z.of_nat n)%Z.


Lemma py_pos_out_of_range n v : ~ in_range n v -> py_pos n v = Err IndexError.
Proof.
  unfold in_range, py_pos. intros Hr.
  destruct (Z.ltb_spec v 0); simpl.
  - destruct (Z.ltb_spec (Z.of_nat n + v) 0); [reflexivity|].
    destruct (Z.leb_spec (Z.of_nat n) (Z.of_nat n + v)); [reflexivity | lia].
  - destruct (Z.ltb_spec v 0); [lia|].
    destruct (Z.leb_spec (Z.of_nat n) v); [reflexivity | lia].
Qed.




(** A group handed to the annotation loop: not empty, its first issue is one
    of [issues], its paragraph exists. *)
Definition group_ok (issues : list IssueItem) (n : nat) (g : nat * list IssueItem) : Prop :=
  (exists it0 rest, g.2 = it0 :: rest /\ In it0 issues) /\ (g.1 < n)%nat.

Lemma first_issue_index_total issues it0 rest :
  In it0 issues -> exists k, first_issue_index issues (it0 :: rest) = Ok k /\ (k < length issues)%nat.
Proof.
  intros Hin. unfold first_issue_index.
  destruct (list_find (fun it => it = it0) issues) as [[k x]|] eqn:E.
  - exists k. split; [reflexivity|]. apply list_find_Some in E as (Hk & _).
    eapply lookup_lt_Some; eauto.
  - exfalso. apply list_find_None in E. rewrite Forall_forall in E.
    apply (E it0); [now apply list_elem_of_In | reflexivity].
Qed.

(** The position [annotate_group] reads for a group. *)
Definition target_of (issues : list IssueItem) (llm_map : gmap Z Z) (g : nat * list IssueItem) : Z :=
  match first_issue_index issues g.2 with
  | Ok k => default (Z.of_nat g.1) (llm_map !! Z.of_nat k)
  | Err _ => Z.of_nat g.1
  end.


Lemma annotate_group_out_of_range w issues llm_map doc g :
  group_ok issues (length (paragraphs doc)) g ->
  ~ in_range (length (paragraphs doc)) (target_of issues llm_map g) ->
  annotate_group w issues llm_map doc g = Err IndexError.
Proof.
  destruct g as [p l]. intros [(it0 & rest & Hl & Hin) Hp] Hr. cbn [fst snd] in *. subst l.
  destruct (first_issue_index_total issues it0 rest Hin) as (k & Hk & _).
  unfold target_of in Hr. cbn [fst snd] in Hr. rewrite Hk in Hr.
  unfold annotate_group. rewrite Hk. cbn [bind].
  rewrite (py_pos_out_of_range _ _ Hr). reflexivity.
Qed.





(** The paragraphs of the "Unanchored Comments" section. *)
Definition unanchored_section (w : World) (unanchored : list IssueItem) : list Paragraph :=
  match unanchored with
  | [] => []
  | _ :: _ =>
      new_paragraph Normal "" :: new_paragraph (Heading 2) "Unanchored Comments" ::
      ((fun it => new_paragraph Normal (unanchored_line w it)) <$> unanchored)
  end.

(** The heading styles the two sections need: "Heading 1" always, "Heading
    2" when some issue is unanchored. *)
Definition headings_defined (doc : Document) (unanchored : list IssueItem) : Prop :=
  style_error doc "Heading 1" = None /\
  (unanchored <> [] -> style_error doc "Heading 2" = None).

Lemma add_heading_1 t d :
  add_heading t 1 d =
    match style_error d "Heading 1" with
    | Some e => Err e
    | None => Ok (append_paragraph (new_paragraph (Heading 1) t) d)
    end.
Proof. unfold add_heading. replace (heading_name 1) with "Heading 1" by (vm_compute; reflexivity). reflexivity. Qed.

Lemma add_heading_2 t d :
  add_heading t 2 d =
    match style_error d "Heading 2" with
    | Some e => Err e
    | None => Ok (append_paragraph (new_paragraph (Heading 2) t) d)
    end.
Proof. unfold add_heading. replace (heading_name 2) with "Heading 2" by (vm_compute; reflexivity). reflexivity. Qed.

Lemma add_unanchored_lines w l : forall d,
  paragraphs (foldl (fun d it => add_paragraph (unanchored_line w it) d) d l) =
    paragraphs d ++ ((fun it => new_paragraph Normal (unanchored_line w it)) <$> l) /\
  comments (foldl (fun d it => add_paragraph (unanchored_line w it) d) d l) = comments d /\
  style_error (foldl (fun d it => add_paragraph (unanchored_line w it) d) d l) = style_error d.
Proof.
  induction l as [|it l IH]; intros d; simpl; [now rewrite app_nil_r|].
  destruct (IH (add_paragraph (unanchored_line w it) d)) as (-> & -> & ->). simpl.
  rewrite <- app_assoc. auto.
Qed.

(** The "Unanchored Comments" section is written, or the style of its
    heading is missing. *)
Lemma add_unanchored_section_cases w unanchored doc :
  (exists doc', add_unanchored_section w unanchored doc = Ok doc' /\
     (unanchored <> [] -> style_error doc "Heading 2" = None) /\
     paragraphs doc' = paragraphs doc ++ unanchored_section w unanchored /\
     comments doc' = comments doc /\ style_error doc' = style_error doc) \/
  (exists e, add_unanchored_section w unanchored doc = Err e /\
     unanchored <> [] /\ style_error doc "Heading 2" = Some e).
Proof.
  unfold add_unanchored_section, unanchored_section.
  destruct unanchored as [|it0 rest].
  { left. exists doc. rewrite app_nil_r. repeat split; auto. intros H. contradiction. }
  rewrite add_heading_2. change (style_error (add_paragraph "" doc)) with (style_error doc).
  destruct (style_error doc "Heading 2") as [e|] eqn:E.
  - right. exists e. split; [reflexivity|]. split; [discriminate | reflexivity].
  - left. cbn [bind]. eexists. split; [reflexivity|].
    destruct (add_unanchored_lines w (it0 :: rest)
                (append_paragraph (new_paragraph (Heading 2) "Unanchored Comments")
                   (add_paragraph "" doc))) as (-> & -> & ->).
    cbn [paragraphs comments style_error append_paragraph add_paragraph].
    rewrite <- !app_assoc. repeat split; auto.
Qed.

(** The "Issues Found" section is written, or the style of its heading is
    missing. *)
Lemma append_issues_section_cases w issues doc :
  (exists doc', append_issues_section w issues doc = Ok doc' /\
     style_error doc "Heading 1" = None /\
     paragraphs doc' = paragraphs doc ++ issues_section w issues /\
     comments doc' = comments doc) \/
  (exists e, append_issues_section w issues doc = Err e /\ style_error doc "Heading 1" = Some e).
Proof.
  unfold append_issues_section. rewrite add_heading_1.
  change (style_error (add_page_break doc)) with (style_error doc).
  destruct (style_error doc "Heading 1") as [e|] eqn:E.
  - right. exists e. auto.
  - left. cbn [bind]. eexists. split; [reflexivity|]. split; [reflexivity|]. split; [|reflexivity].
    cbn [paragraphs set_paragraphs append_paragraph add_page_break]. unfold issues_section.
    rewrite <- !app_assoc. reflexivity.
Qed.

(** The two sections together, on the document [d] the loop over the
    groups leaves. *)
Definition write_sections (w : World) (issues unanchored : list IssueItem) (d : Document)
  : result Document :=
  bind (add_unanchored_section w unanchored d) (fun d => append_issues_section w issues d).

Lemma write_sections_cases w issues unanchored d :
  (exists d', write_sections w issues unanchored d = Ok d' /\
     headings_defined d unanchored /\
     paragraphs d' = paragraphs d ++ unanchored_section w unanchored ++ issues_section w issues /\
     comments d' = comments d) \/
  (exists e, write_sections w issues unanchored d = Err e /\
     ~ headings_defined d unanchored /\
     (style_error d "Heading 1" = Some e \/ style_error d "Heading 2" = Some e)).
Proof.
  unfold write_sections, headings_defined.
  destruct (add_unanchored_section_cases w unanchored d)
    as [(d1 & -> & H2 & Hp1 & Hc1 & Hs1) | (e & -> & Hne & H2)]; cbn [bind].
  - destruct (append_issues_section_cases w issues d1)
      as [(d2 & -> & H1 & Hp2 & Hc2) | (e & -> & H1)]; rewrite Hs1 in H1.
    + left. exists d2. split; [reflexivity|]. split; [auto|].
      split; [rewrite Hp2, Hp1, <- app_assoc; reflexivity | congruence].
    + right. exists e. split; [reflexivity|]. split; [|now left].
      intros [H _]. congruence.
  - right. exists e. split; [reflexivity|]. split; [|now right].
    intros [_ H]. specialize (H Hne). congruence.
Qed.





End Completion.

Section CoverageTheorem.
Import Annotator.


Example annotation_without_heading_styles :
  annotated_document Demo.unstyled_world "uploads/aoa.docx" [Demo.courts_issue]
    = Err (KeyError "no style with name 'Heading 1'") /\
  written (annotate_docx Demo.unstyled_world "uploads/aoa.docx" [Demo.courts_issue]) = None.
Proof. split; vm_compute; reflexivity. Qed.

End CoverageTheorem.

(** ** Persistence *)
Section Persist.
Import Annotator.

(** C8. [annotate_docx] first saves to [<output_dir>/<name>_reviewed<ext>],
    name and extension being those of the input file. If this save raises
    [PermissionError], it saves once more, to
    [<output_dir>/<name>_reviewed_<timestamp>-<six hex digits><ext>], and an
    exception of that second save is the exception of [annotate_docx]; any
    other exception of the first save is raised without a retry. There are
    never more than two saves. A path is returned only when the save to that
    very path succeeded, and it is the last path tried. *)
Theorem save_retried_once_under_unique_name :
  forall (w : World) (path : string) (issues : list IssueItem),
    let o := annotate_docx w path issues in
    let name := (splitext (basename path)).1 in
    let ext := (splitext (basename path)).2 in
    let p1 := path_join (output_dir w) (name +:+ "_reviewed" +:+ ext) in
    let p2 := path_join (output_dir w)
                (name +:+ "_reviewed_" +:+ (now_stamp w +:+ "-" +:+ take_str 6 (uuid4_hex w)) +:+ ext) in
    (length (attempted o) <= 2)%nat /\
    (forall e, annotated_document w path issues = Err e ->
       attempted o = [] /\ written o = None /\ returned o = Err e) /\
    (forall doc, annotated_document w path issues = Ok doc ->
       match doc_save w 0 p1 with
       | None => attempted o = [p1] /\ written o = Some (p1, doc) /\ returned o = Ok p1
       | Some (PermissionError _) =>
           attempted o = [p1; p2] /\
           match doc_save w 1 p2 with
           | None => written o = Some (p2, doc) /\ returned o = Ok p2
           | Some e => written o = None /\ returned o = Err e
           end
       | Some e => attempted o = [p1] /\ written o = None /\ returned o = Err e
       end) /\
    (forall p, returned o = Ok p ->
       last (attempted o) = Some p /\
       exists doc n, written o = Some (p, doc) /\ doc_save w n p = None /\
                     annotated_document w path issues = Ok doc).
Proof.
  intros w path issues o name ext p1 p2.
  assert (Hp1 : reviewed_path w path = p1).
  { unfold reviewed_path, p1, name, ext. destruct (splitext (basename path)); reflexivity. }
  assert (Hp2 : unique_path w path = p2).
  { unfold unique_path, p2, name, ext. destruct (splitext (basename path)); reflexivity. }
  unfold o, annotate_docx, persist. rewrite Hp1, Hp2.
  destruct (annotated_document w path issues) as [doc|e0] eqn:Ed.
  - destruct (doc_save w 0 p1) as [e1|] eqn:E1.
    + destruct e1; simpl;
        try (split; [lia|]; split; [discriminate|]; split;
             [intros d [= <-]; auto | intros p; discriminate]).
      destruct (doc_save w 1 p2) as [e2|] eqn:E2; simpl.
      * split; [lia|]. split; [discriminate|]. split; [intros d [= <-]; auto|].
        intros p; discriminate.
      * split; [lia|]. split; [discriminate|]. split; [intros d [= <-]; auto|].
        intros p [= <-]. split; [reflexivity|]. exists doc, 1%nat. auto.
    + simpl. split; [lia|]. split; [discriminate|]. split; [intros d [= <-]; auto|].
      intros p [= <-]. split; [reflexivity|]. exists doc, 0%nat. auto.
  - simpl. split; [lia|]. split; [intros e [= <-]; auto|]. split; [discriminate|].
    intros p; discriminate.
Qed.

(** The destination is locked at the first save only: the unique name is
    returned. It is locked at both: the error is raised. *)
Example save_locked_destination :
  returned (annotate_docx Demo.locked_once_world "uploads/aoa.docx" [Demo.courts_issue])
    = Ok "data/outputs/aoa_reviewed_20250811-101500-3f2a9c.docx" /\
  attempted (annotate_docx Demo.locked_once_world "uploads/aoa.docx" [Demo.courts_issue])
    = ["data/outputs/aoa_reviewed.docx"; "data/outputs/aoa_reviewed_20250811-101500-3f2a9c.docx"] /\
  returned (annotate_docx Demo.locked_world "uploads/aoa.docx" [Demo.courts_issue])
    = Err (PermissionError "data/outputs/aoa_reviewed_20250811-101500-3f2a9c.docx") /\
  attempted (annotate_docx Demo.locked_world "uploads/aoa.docx" [Demo.courts_issue])
    = ["data/outputs/aoa_reviewed.docx"; "data/outputs/aoa_reviewed_20250811-101500-3f2a9c.docx"].
Proof. repeat split; vm_compute; reflexivity. Qed.

End Persist.

(** ** Batch refinement *)
Section Refinement.
Import Annotator.

(** The position read for a group is the proposal of the language model for
    the first issue of the group when there is one, and the paragraph of the
    group otherwise. *)
Lemma target_of_proposal issues llm_map p it0 rest k :
  first_issue_index issues (it0 :: rest) = Ok k ->
  target_of issues llm_map (p, it0 :: rest) =
    match llm_map !! Z.of_nat k with
    | Some v => v
    | None => Z.of_nat p
    end.
Proof. intros Hk. unfold target_of. cbn [fst snd]. rewrite Hk. destruct (llm_map !! Z.of_nat k); reflexivity. Qed.

(** A group whose position is out of range stops the loop with [IndexError]. *)
Lemma annotate_groups_out_of_range w issues llm_map g groups doc :
  group_ok issues (length (paragraphs doc)) g ->
  ~ in_range (length (paragraphs doc)) (target_of issues llm_map g) ->
  annotate_groups w issues llm_map doc (g :: groups) = Err IndexError.
Proof.
  intros Hok Hr. simpl. now rewrite (annotate_group_out_of_range w issues llm_map doc g Hok Hr).
Qed.

Definition has_comment_range (p : Paragraph) : bool :=
  existsb (fun c => match c with CommentRangeStart _ => true | _ => false end) (p_children p).

(** The positions of the paragraphs that carry a comment range. *)
Definition commented_positions (d : Document) : list nat :=
  omap id (imap (fun i p => if has_comment_range p then Some i else None) (paragraphs d)).

(** C3, at the failing input. The document has two paragraphs; the issue is
    anchored at paragraph 1 by the keyword strategy. The language model
    proposes paragraph 5 for it: [annotate_docx] raises [IndexError] and
    saves nothing. With no proposal the issue is annotated at paragraph 1,
    with the proposal 0 at paragraph 0, and the file is saved. *)
Theorem llm_proposal_out_of_range_raises :
  let doc := Demo.reviewed_document in
  let issues := [Demo.courts_issue] in
  let bad := Demo.llm_world (Ok Demo.proposal_out_of_range) in
  let none := Demo.llm_world (Ok []) in
  let good := Demo.llm_world (Ok Demo.proposal_in_range) in
  length (paragraphs doc) = 2%nat /\
  anchor_issue bad doc Demo.courts_issue = Some 1%nat /\
  _llm_anchor_map bad doc issues !! 0%Z = Some 5%Z /\
  returned (annotate_docx bad "uploads/aoa.docx" issues) = Err IndexError /\
  attempted (annotate_docx bad "uploads/aoa.docx" issues) = [] /\
  written (annotate_docx bad "uploads/aoa.docx" issues) = None /\
  returned (annotate_docx none "uploads/aoa.docx" issues) = Ok "data/outputs/aoa_reviewed.docx" /\
  returned (annotate_docx good "uploads/aoa.docx" issues) = Ok "data/outputs/aoa_reviewed.docx" /\
  (forall d, annotated_document none "uploads/aoa.docx" issues = Ok d ->
     commented_positions d = [1%nat]) /\
  (forall d, annotated_document good "uploads/aoa.docx" issues = Ok d ->
     commented_positions d = [0%nat]).
Proof.
  intros doc issues bad none good.
  repeat (split; [vm_compute; reflexivity|]).
  split; intros d Hd; vm_compute in Hd; injection Hd as <-; vm_compute; reflexivity.
Qed.

End Refinement.

(** ** Scenarios *)
Section Scenarios.
Import Annotator.

#[local] Instance key_le_total : Total key_le.
Proof. intros a b. unfold key_le. lia. Qed.

(** The groups are annotated in the order of their paragraphs. *)
Lemma sorted_items_sorted (g : gmap nat (list IssueItem)) : Sorted key_le (sorted_items g).
Proof. apply Sorted_merge_sort. apply _. Qed.

Example python_strings :
  lower "Abu Dhabi Z@[" = "abu dhabi z@[" /\
  contains "court" "uae federal courts." = true /\
  splitext "a.b.docx" = ("a.b", ".docx") /\
  splitext ".hidden" = (".hidden", "") /\
  basename "data/uploads/aoa.docx" = "aoa.docx" /\
  str_of_nat 12 = "12" /\
  strip "  Clause 1.  " = "Clause 1.".
Proof. repeat split; vm_compute; reflexivity. Qed.

(** A paragraph that names UAE federal courts, an issue about jurisdiction
    without evidence: the keyword strategy selects the paragraph. *)
Example scenario_keyword_fires :
  let doc := plain_document ["This Agreement shall be governed by UAE Federal Courts."] in
  let it := Demo.issue_of "Jurisdiction references non-ADGM courts." in
  _find_paragraph_index doc (candidates_of it) = None /\
  _keyword_anchor doc it = Some 0%nat.
Proof. split; reflexivity. Qed.

(** The missing-signatory issue has no anchor when the semantic strategy
    finds none (here: no embedding model): it goes to the unanchored list. *)
Example scenario_signature_unanchored :
  let doc := plain_document ["This Agreement shall be governed by UAE Federal Courts."] in
  let it := Demo.issue_of "Missing explicit signatory section." in
  group_issues Demo.offline_world doc [it] = (∅, [it]).
Proof. vm_compute. reflexivity. Qed.

(** Two issues anchored at the same paragraph: one comment, whose body
    numbers both. *)
Example scenario_two_issues_one_comment :
  let doc := Demo.texts_document ["Disputes go to the UAE courts."] None in
  let i1 := Demo.issue_of "Jurisdiction references non-ADGM courts." in
  let i2 := Demo.issue_of "Court venue is outside ADGM." in
  match annotate_groups Demo.built_world [i1; i2] ∅ doc
          (sorted_items (group_issues Demo.built_world doc [i1; i2]).1) with
  | Ok d =>
      c_body <$> stored d =
        ["1. [High] Jurisdiction references non-ADGM courts.; 2. [High] Court venue is outside ADGM."] /\
      commented_positions d = [0%nat]
  | Err _ => False
  end.
Proof. vm_compute. split; reflexivity. Qed.

End Scenarios.

(** * Further properties of the embedded code *)

(** ** Paragraph texts under annotation *)
Section ParagraphTexts.
Import Annotator.

Lemma append_nil_r (s : string) : s +:+ "" = s.
Proof. induction s as [|c s IH]; [reflexivity|]. rewrite append_cons, IH. reflexivity. Qed.

(** The text of a list of paragraph children. *)
Definition children_text (cs : list PChild) : string :=
  foldr (fun r acc => r_text r +:+ acc) EmptyString
    (omap (fun c => match c with RunEl r => Some r | _ => None end) cs).

Lemma text_children p : text p = children_text (p_children p).
Proof. reflexivity. Qed.

Lemma children_text_app cs1 cs2 :
  children_text (cs1 ++ cs2) = children_text cs1 +:+ children_text cs2.
Proof.
  unfold children_text. rewrite omap_app, foldr_app.
  induction (omap _ cs1) as [|r rs IH]; simpl; [reflexivity|].
  rewrite IH, append_assoc. reflexivity.
Qed.

Lemma children_text_highlight cs : children_text (highlight <$> cs) = children_text cs.
Proof.
  unfold children_text. induction cs as [|c cs IH]; [reflexivity|].
  destruct c; simpl; try exact IH. f_equal. exact IH.
Qed.

Lemma children_text_run r : children_text [RunEl r] = r_text r.
Proof. unfold children_text. simpl. apply append_nil_r. Qed.

Lemma children_text_wrap id cs :
  children_text (CommentRangeStart id :: cs ++ [CommentRangeEnd id; RunEl (comment_ref_run id)])
  = children_text cs.
Proof.
  change (CommentRangeStart id :: ?l) with ([CommentRangeStart id] ++ l).
  rewrite !children_text_app.
  change (children_text [CommentRangeStart id]) with "".
  change (children_text [CommentRangeEnd id; RunEl (comment_ref_run id)]) with "".
  rewrite append_nil_l, append_nil_r. reflexivity.
Qed.

Lemma text_wrap_with_comment id p : text (wrap_with_comment id p) = text p.
Proof. exact (children_text_wrap id (p_children p)). Qed.

Lemma children_text_inline note cs :
  children_text ((highlight <$> cs) ++ [RunEl (note_run note)])
  = children_text cs +:+ " [Comment: " +:+ note +:+ "] ".
Proof. rewrite children_text_app, children_text_highlight, children_text_run. reflexivity. Qed.

Lemma text_inline_comment note p :
  text (inline_comment note p) = text p +:+ " [Comment: " +:+ note +:+ "] ".
Proof. exact (children_text_inline note (p_children p)). Qed.

(** [p'] has the style of [p] and its text begins with the text of [p]. *)
Definition extends (p p' : Paragraph) : Prop :=
  p_style p' = p_style p /\ exists suffix, text p' = text p +:+ suffix.

Lemma extends_refl p : extends p p.
Proof. split; [reflexivity|]. exists "". now rewrite append_nil_r. Qed.

Lemma extends_trans p1 p2 p3 : extends p1 p2 -> extends p2 p3 -> extends p1 p3.
Proof.
  intros [Hs1 [s1 H1]] [Hs2 [s2 H2]]. split; [congruence|].
  exists (s1 +:+ s2). rewrite H2, H1. apply append_assoc.
Qed.

(** Every paragraph of [ps] has its extension at the same position of [ps']. *)
Definition all_extended (ps ps' : list Paragraph) : Prop :=
  length ps' = length ps /\
  forall i p, ps !! i = Some p -> exists p', ps' !! i = Some p' /\ extends p p'.

Lemma all_extended_refl ps : all_extended ps ps.
Proof. split; [reflexivity|]. intros i p Hp. exists p. split; [exact Hp | apply extends_refl]. Qed.

Lemma all_extended_trans ps1 ps2 ps3 :
  all_extended ps1 ps2 -> all_extended ps2 ps3 -> all_extended ps1 ps3.
Proof.
  intros [Hl1 H1] [Hl2 H2]. split; [congruence|]. intros i p Hp.
  destruct (H1 i p Hp) as (p2 & Hp2 & He2). destruct (H2 i p2 Hp2) as (p3 & Hp3 & He3).
  exists p3. split; [exact Hp3 | eapply extends_trans; eauto].
Qed.

Lemma all_extended_alter f j ps :
  (forall p, extends p (f p)) -> all_extended ps (alter f j ps).
Proof.
  intros Hf. split; [apply length_alter|]. intros i p Hp.
  destruct (decide (j = i)) as [->|Hne].
  - exists (f p). rewrite list_lookup_alter_eq, Hp. split; [reflexivity | apply Hf].
  - exists p. rewrite list_lookup_alter_ne by exact Hne. split; [exact Hp | apply extends_refl].
Qed.

Lemma add_word_comment_extends doc j body :
  all_extended (paragraphs doc) (paragraphs (_add_word_comment doc j body).1).
Proof.
  unfold _add_word_comment, _get_comments_part.
  destruct (comments doc) as [cs|]; simpl.
  - apply all_extended_alter. intros p. split; [reflexivity|].
    exists "". now rewrite text_wrap_with_comment, append_nil_r.
  - destruct (can_create_comments doc); simpl; [|apply all_extended_refl].
    apply all_extended_alter. intros p. split; [reflexivity|].
    exists "". now rewrite text_wrap_with_comment, append_nil_r.
Qed.

Lemma add_inline_comment_extends doc j note :
  all_extended (paragraphs doc) (paragraphs (_add_inline_comment doc j note)).
Proof.
  unfold _add_inline_comment. simpl. apply all_extended_alter.
  intros p. split; [reflexivity|]. eexists. apply text_inline_comment.
Qed.

Lemma annotate_group_extends w issues llm_map doc g doc' :
  annotate_group w issues llm_map doc g = Ok doc' ->
  all_extended (paragraphs doc) (paragraphs doc').
Proof.
  destruct g as [p_idx iss_list]. unfold annotate_group.
  destruct (first_issue_index issues iss_list) as [k|e]; simpl; [|discriminate].
  destruct (py_pos (length (paragraphs doc)) _) as [j|e]; simpl; [|discriminate].
  destruct (py_pos _ _) as [j'|e]; simpl; [|discriminate].
  intros [= <-]. eapply all_extended_trans;
    [apply add_word_comment_extends | apply add_inline_comment_extends].
Qed.

Lemma annotate_groups_extends w issues llm_map groups : forall doc doc',
  annotate_groups w issues llm_map doc groups = Ok doc' ->
  all_extended (paragraphs doc) (paragraphs doc').
Proof.
  induction groups as [|g groups IH]; intros doc doc'; simpl.
  - intros [= <-]. apply all_extended_refl.
  - destruct (annotate_group w issues llm_map doc g) as [doc1|e] eqn:Eg; simpl; [|discriminate].
    intros Hrest. eapply all_extended_trans;
      [eapply annotate_group_extends; eauto | eapply IH; eauto].
Qed.

End ParagraphTexts.

Section Layout.
Import Annotator.

(** X1. The document [annotate_docx] saves consists of the paragraphs of the
    input, in their order and at their positions, each with its style and
    with a text that begins with its original text; then the "Unanchored
    Comments" section (absent when every issue is anchored, otherwise an
    empty paragraph, the heading and one line per unanchored issue, in
    order); then the "Issues Found" section. *)
Theorem annotated_document_layout :
  forall (w : World) (path : string) (issues : list IssueItem) (doc doc' : Document),
    open_document w path = Ok doc ->
    annotated_document w path issues = Ok doc' ->
    exists body,
      paragraphs doc' =
        body ++ unanchored_section w (unanchored_of w doc issues) ++ issues_section w issues /\
      all_extended (paragraphs doc) body /\
      length (unanchored_section w (unanchored_of w doc issues)) =
        match unanchored_of w doc issues with
        | [] => 0%nat
        | _ :: _ => (2 + length (unanchored_of w doc issues))%nat
        end.
Proof.
  intros w path issues doc doc' Hopen. unfold annotated_document.
  destruct (makedirs w (output_dir w)); [discriminate|]. rewrite Hopen. simpl.
  destruct (group_issues_inv w doc issues) as (_ & Hu & _).
  destruct (group_issues w doc issues) as [g u]. simpl in Hu. subst u.
  destruct (annotate_groups _ _ _ _ _) as [doc1|e] eqn:Eg; simpl; [|discriminate].
  fold (write_sections w issues (unanchored_of w doc issues) doc1).
  destruct (write_sections_cases w issues (unanchored_of w doc issues) doc1)
    as [(d' & -> & _ & Hp & _) | (e & -> & _)]; [|discriminate].
  intros [= <-]. exists (paragraphs doc1). split; [|split].
  - exact Hp.
  - eapply annotate_groups_extends; eauto.
  - unfold unanchored_section. destruct (unanchored_of w doc issues); [reflexivity|].
    simpl. now rewrite length_fmap.
Qed.

Definition signatory_issue : IssueItem := Demo.issue_of "Missing explicit signatory section.".

(** The document of the instance below, as saved. *)
Definition layout_instance : Document :=
  Demo.from_ok Demo.reviewed_document
    (annotated_document (Demo.llm_world (Ok [])) "uploads/aoa.docx"
       [Demo.courts_issue; signatory_issue]).

(** An instance: two paragraphs, one issue anchored, one not. *)
Lemma annotated_document_layout_two_issues :
  exists body,
    paragraphs layout_instance =
      body ++ unanchored_section (Demo.llm_world (Ok []))
                (unanchored_of (Demo.llm_world (Ok [])) Demo.reviewed_document
                   [Demo.courts_issue; signatory_issue])
           ++ issues_section (Demo.llm_world (Ok [])) [Demo.courts_issue; signatory_issue] /\
    all_extended (paragraphs Demo.reviewed_document) body /\
    length (unanchored_section (Demo.llm_world (Ok []))
              (unanchored_of (Demo.llm_world (Ok [])) Demo.reviewed_document
                 [Demo.courts_issue; signatory_issue])) =
      match unanchored_of (Demo.llm_world (Ok [])) Demo.reviewed_document
              [Demo.courts_issue; signatory_issue] with
      | [] => 0%nat
      | _ :: _ => (2 + length (unanchored_of (Demo.llm_world (Ok [])) Demo.reviewed_document
                                 [Demo.courts_issue; signatory_issue]))%nat
      end.
Proof.
  apply (annotated_document_layout (Demo.llm_world (Ok [])) "uploads/aoa.docx"
           [Demo.courts_issue; signatory_issue] Demo.reviewed_document layout_instance).
  - reflexivity.
  - vm_compute. reflexivity.
Defined.

Example layout_instance_texts :
  text <$> paragraphs layout_instance =
    ["The registered office address is in Dubai.";
     "Disputes go to the UAE courts. [Comment: 1. [High] Jurisdiction references non-ADGM courts.] ";
     ""; "Unanchored Comments"; "- [High] Missing explicit signatory section.";
     ""; "Issues Found (Automated Review)";
     "1. [High] Jurisdiction references non-ADGM courts. ";
     "2. [High] Missing explicit signatory section. "].
Proof. vm_compute. reflexivity. Qed.






(** The proposal 0 is a position of the document, which defines no heading
    style: the pass stops at the heading of the "Issues Found" section. *)
Example annotation_stops_at_missing_style :
  let w := Demo.world Demo.built_files Demo.no_model true (Ok Demo.proposal_in_range)
             Demo.save_ok (Demo.without_styles Demo.reviewed_document) in
  annotated_document w "uploads/aoa.docx" [Demo.courts_issue]
    = Err (KeyError "no style with name 'Heading 1'") /\
  attempted (annotate_docx w "uploads/aoa.docx" [Demo.courts_issue]) = [].
Proof. split; vm_compute; reflexivity. Qed.

End Layout.

(** ** The batch refinement pass *)
Section RefinementPass.
Import Annotator.

Lemma take_str_nonempty n s : (0 < n)%nat -> s <> "" -> take_str n s <> "".
Proof. destruct n; [lia|]. destruct s; [congruence|]. intros _ _. discriminate. Qed.

Definition by_position (a b : nat * string) : Prop := (a.1 < b.1)%nat.

Lemma digest_spec ps : forall i acc,
  (length acc < 60)%nat ->
  exists new,
    digest i ps acc = acc ++ new /\
    (length (acc ++ new) <= 60)%nat /\
    (forall k t, In (k, t) new ->
       (i <= k)%nat /\ exists p, ps !! (k - i)%nat = Some p /\ strip (text p) <> "" /\
                                  t = take_str 180 (strip (text p))) /\
    StronglySorted by_position new /\
    ((length (acc ++ new) < 60)%nat ->
     forall j p, ps !! j = Some p -> strip (text p) <> "" ->
                 In ((i + j)%nat, take_str 180 (strip (text p))) new).
Proof.
  induction ps as [|p ps IH]; intros i acc Hacc; cbn [digest].
  - exists []. rewrite app_nil_r. split; [reflexivity|]. split; [lia|].
    split; [intros k t []|]. split; [constructor|]. intros _ j q Hq. discriminate.
  - destruct (truthy (strip (text p))) eqn:Et.
    + apply truthy_true in Et.
      destruct (Nat.leb_spec 60 (length (acc ++ [(i, take_str 180 (strip (text p)))]))) as [Hfull|Hroom].
      * exists [(i, take_str 180 (strip (text p)))]. split; [reflexivity|].
        rewrite length_app in *. simpl in *. split; [lia|]. split; [|split].
        -- intros k t [[= <- <-]|[]]. split; [lia|]. exists p.
           replace (i - i)%nat with 0%nat by lia. auto.
        -- repeat constructor.
        -- intros Hlt. lia.
      * destruct (IH (S i) (acc ++ [(i, take_str 180 (strip (text p)))]) Hroom)
          as (new & Hd & Hlen & Hin & Hsorted & Hall).
        exists ((i, take_str 180 (strip (text p))) :: new).
        rewrite <- app_assoc in Hd, Hlen, Hall. simpl in Hd, Hlen, Hall.
        split; [exact Hd|]. split; [exact Hlen|]. split; [|split].
        -- intros k t [[= <- <-]|Hkt].
           ++ split; [lia|]. exists p. replace (i - i)%nat with 0%nat by lia. auto.
           ++ destruct (Hin k t Hkt) as (Hk & q & Hq & Hne & Ht). split; [lia|].
              exists q. replace (k - i)%nat with (S (k - S i)) by lia. auto.
        -- constructor; [exact Hsorted|]. apply Forall_forall. intros [k t] Hkt.
           apply list_elem_of_In in Hkt. destruct (Hin k t Hkt) as (Hk & _).
           unfold by_position. simpl. lia.
        -- intros Hlt [|j] q Hq Hne; simpl in Hq.
           ++ injection Hq as <-. left. f_equal. lia.
           ++ right. replace (i + S j)%nat with (S i + j)%nat by lia. eapply Hall; eauto.
    + apply truthy_false in Et.
      destruct (Nat.leb_spec 60 (length acc)) as [Hfull|_]; [lia|].
      destruct (IH (S i) acc Hacc) as (new & Hd & Hlen & Hin & Hsorted & Hall).
      exists new. split; [exact Hd|]. split; [exact Hlen|]. split; [|split].
      * intros k t Hkt. destruct (Hin k t Hkt) as (Hk & q & Hq & Hne & Ht). split; [lia|].
        exists q. replace (k - i)%nat with (S (k - S i)) by lia. auto.
      * exact Hsorted.
      * intros Hlt [|j] q Hq Hne; simpl in Hq.
        -- injection Hq as <-. contradiction.
        -- replace (i + S j)%nat with (S i + j)%nat by lia. eapply Hall; eauto.
Qed.

(** X3. The paragraph digest sent to the language model has at most 60
    entries, by increasing position. Every entry is the position of a
    paragraph whose stripped text is not empty, with the first 180
    characters of that text (so between 1 and 180 characters). When the
    digest has fewer than 60 entries, every paragraph with a non-empty
    stripped text is in it. *)
Theorem digest_at_most_sixty_non_blank :
  forall (doc : Document),
    let d := digest 0 (paragraphs doc) [] in
    (length d <= 60)%nat /\
    StronglySorted by_position d /\
    (forall k t, In (k, t) d ->
       exists p, paragraphs doc !! k = Some p /\ strip (text p) <> "" /\
                 t = take_str 180 (strip (text p)) /\
                 t <> "" /\ (String.length t <= 180)%nat) /\
    ((length d < 60)%nat ->
     forall k p, paragraphs doc !! k = Some p -> strip (text p) <> "" ->
                 In (k, take_str 180 (strip (text p))) d).
Proof.
  intros doc d. destruct (digest_spec (paragraphs doc) 0 []) as (new & Hd & Hlen & Hin & Hs & Hall);
    [simpl; lia|].
  simpl in Hd, Hlen, Hall. unfold d. rewrite Hd.
  split; [exact Hlen|]. split; [exact Hs|]. split.
  - intros k t Hkt. destruct (Hin k t Hkt) as (_ & p & Hp & Hne & Ht).
    rewrite Nat.sub_0_r in Hp. exists p. split; [exact Hp|]. split; [exact Hne|].
    split; [exact Ht|]. subst t. split.
    + apply take_str_nonempty; [lia | exact Hne].
    + rewrite take_str_length. lia.
  - intros Hlt k p Hp Hne. apply (Hall Hlt k p Hp Hne).
Qed.

(** The proposal an item of the reply makes: its two fields, when it is a
    JSON object and both are integers. *)
Definition proposal (item : Json) : option (Z * Z) :=
  match json_get "issue_idx" item, json_get "paragraph_idx" item with
  | Ok ii, Ok pi =>
      match as_int ii, as_int pi with
      | Some a, Some b => Some (a, b)
      | _, _ => None
      end
  | _, _ => None
  end.

Definition is_object (item : Json) : Prop := exists kv, item = JDict kv.

Lemma collect_objects data : forall res,
  (forall item, In item data -> is_object item) ->
  collect data res = Ok (foldl (fun m kv => <[kv.1 := kv.2]> m) res (omap proposal data)).
Proof.
  induction data as [|item data IH]; intros res Hall; [reflexivity|].
  destruct (Hall item (or_introl eq_refl)) as [kv ->].
  assert (Hrest : forall item, In item data -> is_object item) by (intros; apply Hall; now right).
  cbn [collect omap list_omap]. unfold proposal at 1. cbn [json_get bind].
  destruct (as_int _) as [a|]; [destruct (as_int _) as [b|]|]; cbn [foldl]; apply IH, Hrest.
Qed.

Lemma collect_not_object data : forall res,
  (exists item, In item data /\ ~ is_object item) ->
  exists e, collect data res = Err e.
Proof.
  induction data as [|item data IH]; intros res (bad & Hin & Hbad); [contradiction|].
  destruct Hin as [->|Hin].
  - destruct bad; try (eexists; reflexivity). exfalso. apply Hbad. eexists. reflexivity.
  - destruct item; try (eexists; reflexivity).
    cbn [collect json_get bind].
    destruct (as_int _) as [a|]; [destruct (as_int _) as [b|]|]; apply IH; eauto.
Qed.

(** The value of the last pair with key [k]. *)
Definition last_for (k v : Z) (l : list (Z * Z)) : Prop :=
  exists pre post, l = pre ++ (k, v) :: post /\ forall v', ~ In (k, v') post.

Lemma last_for_snoc_eq k v v0 l : last_for k v (l ++ [(k, v0)]) <-> v = v0.
Proof.
  split.
  - intros (pre & post & Heq & Hlast).
    destruct post as [|x post _] using rev_ind.
    + apply app_inj_tail in Heq as [_ [= <-]]. reflexivity.
    + exfalso. rewrite app_comm_cons, app_assoc in Heq.
      apply app_inj_tail in Heq as [_ <-]. apply (Hlast v0), in_or_app. right. now left.
  - intros ->. exists l, []. split; [reflexivity | intros v' []].
Qed.

Lemma last_for_snoc_ne k v k0 v0 l :
  k0 <> k -> (last_for k v (l ++ [(k0, v0)]) <-> last_for k v l).
Proof.
  intros Hne. split.
  - intros (pre & post & Heq & Hlast).
    destruct post as [|x post _] using rev_ind.
    + apply app_inj_tail in Heq as [_ [= ? ?]]. congruence.
    + rewrite app_comm_cons, app_assoc in Heq. apply app_inj_tail in Heq as [-> <-].
      exists pre, post. split; [reflexivity|]. intros v' Hin.
      apply (Hlast v'), in_or_app. now left.
  - intros (pre & post & -> & Hlast). exists pre, (post ++ [(k0, v0)]).
    split; [now rewrite <- app_assoc|]. intros v' Hin.
    apply in_app_or in Hin as [Hin|[[= ? ?]|[]]]; [apply (Hlast v' Hin) | congruence].
Qed.

Lemma foldl_insert_lookup (l : list (Z * Z)) k v :
  foldl (fun m kv => <[kv.1 := kv.2]> m) (∅ : gmap Z Z) l !! k = Some v <-> last_for k v l.
Proof.
  induction l as [|[k0 v0] l IH] using rev_ind.
  - simpl. rewrite lookup_empty. split; [discriminate|].
    intros (pre & post & Heq & _). destruct pre; discriminate.
  - rewrite foldl_snoc. simpl. destruct (decide (k0 = k)) as [->|Hne].
    + rewrite lookup_insert_eq, last_for_snoc_eq. split; congruence.
    + rewrite lookup_insert_ne by exact Hne. rewrite IH. symmetry. now apply last_for_snoc_ne.
Qed.

(** X4. [_llm_anchor_map] is empty when no language model is configured,
    when there is no issue, when no paragraph has text, when the model call
    raises, and when one item of the reply is not a JSON object: in that case
    the proposals of the other items are dropped as well. Otherwise it maps
    [k] to [v] exactly when the last item that proposes, with two integer
    fields, a paragraph for issue [k] proposes [v]. *)
Theorem llm_anchor_map_all_or_nothing :
  forall (w : World) (doc : Document) (issues : list IssueItem),
    let paras := digest 0 (paragraphs doc) [] in
    let reply := llm_anchor_reply w paras (issues_payload issues) in
    (llm_available w = false \/ issues = [] \/ paras = [] ->
     _llm_anchor_map w doc issues = ∅) /\
    (forall e, reply = Err e -> _llm_anchor_map w doc issues = ∅) /\
    (forall data, reply = Ok data ->
       (exists item, In item data /\ ~ is_object item) ->
       _llm_anchor_map w doc issues = ∅) /\
    (forall data, llm_available w = true -> issues <> [] -> paras <> [] ->
       reply = Ok data ->
       (forall item, In item data -> is_object item) ->
       forall k v, _llm_anchor_map w doc issues !! k = Some v <->
                   last_for k v (omap proposal data)).
Proof.
  intros w doc issues paras reply. unfold _llm_anchor_map. fold paras. fold reply.
  split; [|split; [|split]].
  - intros [-> | [-> | Hp]]; [reflexivity | |].
    + rewrite orb_true_r. reflexivity.
    + rewrite Hp. destruct (_ || _); reflexivity.
  - intros e ->. destruct (_ || _); [reflexivity|]. destruct paras; reflexivity.
  - intros data -> Hbad. destruct (_ || _); [reflexivity|]. destruct paras; [reflexivity|].
    simpl. destruct (collect_not_object data ∅ Hbad) as [e ->]. reflexivity.
  - intros data -> Hne Hp -> Hall k v. simpl.
    rewrite bool_decide_eq_false_2 by exact Hne. destruct paras; [contradiction|].
    simpl. rewrite (collect_objects data ∅ Hall). apply foldl_insert_lookup.
Qed.

End RefinementPass.

(** ** Comment markers *)
Section Markers.
Import Annotator.

Definition start_id (c : PChild) : option Z :=
  match c with CommentRangeStart z => Some z | _ => None end.
Definition end_id (c : PChild) : option Z :=
  match c with CommentRangeEnd z => Some z | _ => None end.
Definition ref_id_of (c : PChild) : option Z :=
  match c with RunEl r => r_comment_ref r | _ => None end.

(** The ids of the markers of one kind in a paragraph, and in a document,
    paragraph by paragraph. *)
Definition kind_ids (kind : PChild -> option Z) (p : Paragraph) : list Z :=
  omap kind (p_children p).

Definition marker_ids (kind : PChild -> option Z) (d : Document) : list Z :=
  mjoin (kind_ids kind <$> paragraphs d).

Definition marker_kind (kind : PChild -> option Z) : Prop :=
  kind = start_id \/ kind = end_id \/ kind = ref_id_of.

Lemma py_pos_Ok_lt n v j : py_pos n v = Ok j -> (j < n)%nat.
Proof.
  unfold py_pos. destruct (Z.ltb_spec v 0); simpl.
  - destruct (Z.ltb_spec (Z.of_nat n + v) 0); simpl; [discriminate|].
    destruct (Z.leb_spec (Z.of_nat n) (Z.of_nat n + v)); [discriminate|]. intros [= <-]. lia.
  - destruct (Z.ltb_spec v 0); [lia|]. simpl.
    destruct (Z.leb_spec (Z.of_nat n) v); [discriminate|]. intros [= <-]. lia.
Qed.

Lemma mjoin_alter_cons {A} (f : Paragraph -> list A) (g : Paragraph -> Paragraph) (x : A) :
  (forall p, f (g p) ≡ₚ x :: f p) ->
  forall ps j, (j < length ps)%nat -> mjoin (f <$> alter g j ps) ≡ₚ x :: mjoin (f <$> ps).
Proof.
  intros Hfg. induction ps as [|p ps IH]; intros j Hj; simpl in Hj; [lia|].
  destruct j as [|j].
  - change (mjoin (f <$> alter g 0 (p :: ps))) with (f (g p) ++ mjoin (f <$> ps)).
    change (mjoin (f <$> p :: ps)) with (f p ++ mjoin (f <$> ps)).
    rewrite Hfg. reflexivity.
  - change (mjoin (f <$> alter g (S j) (p :: ps))) with (f p ++ mjoin (f <$> alter g j ps)).
    change (mjoin (f <$> p :: ps)) with (f p ++ mjoin (f <$> ps)).
    rewrite IH by lia. symmetry. apply Permutation_middle.
Qed.

Lemma mjoin_alter_same {A} (f : Paragraph -> list A) (g : Paragraph -> Paragraph) :
  (forall p, f (g p) = f p) ->
  forall ps j, mjoin (f <$> alter g j ps) = mjoin (f <$> ps).
Proof.
  intros Hfg. induction ps as [|p ps IH]; intros j; [reflexivity|].
  destruct j as [|j].
  - change (mjoin (f <$> alter g 0 (p :: ps))) with (f (g p) ++ mjoin (f <$> ps)).
    now rewrite Hfg.
  - change (mjoin (f <$> alter g (S j) (p :: ps))) with (f p ++ mjoin (f <$> alter g j ps)).
    now rewrite IH.
Qed.

Lemma wrap_markers kind id p :
  marker_kind kind ->
  kind_ids kind (wrap_with_comment id p) ≡ₚ id :: kind_ids kind p.
Proof.
  unfold kind_ids, wrap_with_comment. cbn [p_children].
  intros [-> | [-> | ->]].
  - cbn [omap list_omap start_id]. rewrite omap_app. cbn [omap list_omap start_id].
    now rewrite app_nil_r.
  - cbn [omap list_omap end_id]. rewrite omap_app. cbn [omap list_omap end_id].
    symmetry. apply Permutation_cons_append.
  - cbn [omap list_omap ref_id_of]. rewrite omap_app.
    cbn [omap list_omap ref_id_of comment_ref_run r_comment_ref].
    symmetry. apply Permutation_cons_append.
Qed.

Lemma inline_markers kind note p :
  marker_kind kind ->
  kind_ids kind (inline_comment note p) = kind_ids kind p.
Proof.
  unfold kind_ids, inline_comment, add_run. cbn [p_children]. intros Hk.
  rewrite omap_app.
  assert (Hnote : omap kind [RunEl (note_run note)] = []).
  { destruct Hk as [-> | [-> | ->]]; reflexivity. }
  rewrite Hnote, app_nil_r.
  induction (p_children p) as [|c cs IH]; [reflexivity|].
  rewrite fmap_cons. cbn [omap list_omap]. rewrite IH. clear IH.
  destruct Hk as [-> | [-> | ->]]; destruct c; reflexivity.
Qed.

Lemma add_inline_markers kind doc j note :
  marker_kind kind ->
  marker_ids kind (_add_inline_comment doc j note) = marker_ids kind doc /\
  stored (_add_inline_comment doc j note) = stored doc.
Proof.
  intros Hk. split; [|reflexivity]. unfold marker_ids, _add_inline_comment.
  cbn [paragraphs set_paragraphs].
  apply mjoin_alter_same. intros p. now apply inline_markers.
Qed.

Lemma add_word_markers kind doc j body :
  marker_kind kind -> (j < length (paragraphs doc))%nat ->
  exists new,
    stored (_add_word_comment doc j body).1 = stored doc ++ new /\
    marker_ids kind (_add_word_comment doc j body).1 ≡ₚ int_ids new ++ marker_ids kind doc.
Proof.
  intros Hk Hj. unfold _add_word_comment, _get_comments_part.
  destruct (comments doc) as [cs|] eqn:Ec.
  - eexists [_]. cbn [fst]. split.
    + unfold stored. cbn [comments set_paragraphs set_comments]. rewrite Ec. reflexivity.
    + unfold marker_ids. cbn [paragraphs set_paragraphs set_comments].
      rewrite (mjoin_alter_cons _ _ (next_comment_id cs));
        [reflexivity | intros p; now apply wrap_markers | exact Hj].
  - destruct (can_create_comments doc).
    + eexists [_]. cbn [fst]. split.
      * unfold stored. cbn [comments set_paragraphs set_comments]. rewrite Ec. reflexivity.
      * unfold marker_ids. cbn [paragraphs set_paragraphs set_comments].
        rewrite (mjoin_alter_cons _ _ (next_comment_id []));
          [reflexivity | intros p; now apply wrap_markers | exact Hj].
    + exists []. cbn [fst]. rewrite app_nil_r. split; reflexivity.
Qed.

Lemma annotate_group_markers kind w issues llm_map doc g doc' :
  marker_kind kind ->
  annotate_group w issues llm_map doc g = Ok doc' ->
  exists new,
    stored doc' = stored doc ++ new /\
    marker_ids kind doc' ≡ₚ int_ids new ++ marker_ids kind doc.
Proof.
  intros Hk. destruct g as [p_idx iss_list]. unfold annotate_group.
  destruct (first_issue_index issues iss_list) as [k|e]; cbn [bind]; [|discriminate].
  destruct (py_pos (length (paragraphs doc)) _) as [j|e] eqn:Ej; cbn [bind]; [|discriminate].
  apply py_pos_Ok_lt in Ej.
  destruct (py_pos _ _) as [j'|e]; cbn [bind]; [|discriminate].
  intros [= <-].
  destruct (add_inline_markers kind (_add_word_comment doc j (note_text_of w iss_list)).1 j'
              (note_text_of w iss_list) Hk) as [-> ->].
  now apply add_word_markers.
Qed.

Lemma repeated_id_not_NoDup (l : list Z) (n : nat) :
  (2 <= n)%nat -> ~ NoDup (l ++ replicate n 0%Z).
Proof.
  intros Hn Hnd. apply NoDup_app in Hnd as (_ & _ & Hnd).
  destruct n as [|[|n]]; [lia | lia |]. simpl in Hnd.
  apply NoDup_cons in Hnd as [Hin _]. apply Hin. left.
Qed.

(** X5. In one pass over the groups, the comments added to the store and
    the markers added to the paragraphs go together: the range starts, the
    range ends and the comment references of the document afterwards are
    those from before plus, once for each comment the pass added, the id of
    that comment, a marker of each kind per comment. Every comment the pass
    adds has the id 0: once the pass has added two comments, the range
    starts of the document, its range ends and its references each hold an
    id twice. *)
Theorem comment_markers_follow_store :
  forall (w : World) (issues : list IssueItem) (llm_map : gmap Z Z)
         (groups : list (nat * list IssueItem)) (doc doc' : Document),
    annotate_groups w issues llm_map doc groups = Ok doc' ->
    exists new,
      stored doc' = stored doc ++ new /\
      length (int_ids new) = length new /\
      int_ids new = replicate (length new) 0%Z /\
      marker_ids start_id doc' ≡ₚ marker_ids start_id doc ++ int_ids new /\
      marker_ids end_id doc' ≡ₚ marker_ids end_id doc ++ int_ids new /\
      marker_ids ref_id_of doc' ≡ₚ marker_ids ref_id_of doc ++ int_ids new /\
      ((2 <= length new)%nat ->
       ~ NoDup (marker_ids start_id doc') /\ ~ NoDup (marker_ids end_id doc') /\
       ~ NoDup (marker_ids ref_id_of doc')).
Proof.
  intros w issues llm_map groups.
  assert (Hgen : forall kind, marker_kind kind -> forall doc doc',
    annotate_groups w issues llm_map doc groups = Ok doc' ->
    exists new, stored doc' = stored doc ++ new /\ length (int_ids new) = length new /\
                marker_ids kind doc' ≡ₚ marker_ids kind doc ++ int_ids new).
  { intros kind Hk. induction groups as [|g groups IH]; intros doc doc'; simpl.
    - intros [= <-]. exists []. rewrite !app_nil_r. auto.
    - destruct (annotate_group w issues llm_map doc g) as [doc1|e] eqn:Eg; simpl; [|discriminate].
      intros Hrest. destruct (IH _ _ Hrest) as (new' & Hs' & Hl' & Hm').
      pose proof (annotate_group_spec _ _ _ _ _ _ Eg) as (_ & _ & Hst).
      destruct (annotate_group_markers kind _ _ _ _ _ _ Hk Eg) as (new1 & Hs1 & Hm1).
      exists (new1 ++ new'). split; [|split].
      + rewrite Hs', Hs1, <- app_assoc. reflexivity.
      + unfold int_ids in *. rewrite omap_app, !length_app, Hl'. f_equal.
        destruct Hst as [[_ Hc] | [_ Hc]].
        * assert (new1 = []) as ->; [|reflexivity].
          unfold stored in Hs1. rewrite Hc in Hs1.
          apply (f_equal length) in Hs1. rewrite length_app in Hs1.
          destruct new1; [reflexivity | simpl in Hs1; lia].
        * unfold stored at 1 in Hs1. rewrite Hc in Hs1. simpl in Hs1.
          apply app_inv_head in Hs1. subst new1. reflexivity.
      + rewrite Hm', Hm1. unfold int_ids. rewrite omap_app.
        rewrite (Permutation_app_comm (omap int_id new1)). now rewrite <- app_assoc. }
  intros doc doc' Hrun.
  destruct (Hgen start_id (or_introl eq_refl) doc doc' Hrun) as (new & Hs & Hl & Hstart).
  destruct (Hgen end_id (or_intror (or_introl eq_refl)) doc doc' Hrun) as (new2 & Hs2 & _ & Hend).
  destruct (Hgen ref_id_of (or_intror (or_intror eq_refl)) doc doc' Hrun) as (new3 & Hs3 & _ & Href).
  assert (new2 = new) as -> by (rewrite Hs in Hs2; now apply app_inv_head in Hs2).
  assert (new3 = new) as -> by (rewrite Hs in Hs3; now apply app_inv_head in Hs3).
  destruct (annotate_groups_store w issues llm_map groups doc doc' Hrun)
    as (_ & new4 & Hs4 & _ & _ & Hids).
  assert (new4 = new) as -> by (rewrite Hs in Hs4; now apply app_inv_head in Hs4).
  exists new. split; [exact Hs|]. split; [exact Hl|]. split; [exact Hids|].
  split; [exact Hstart|]. split; [exact Hend|]. split; [exact Href|].
  intros Hn. rewrite Hstart, Hend, Href, Hids.
  repeat split; now apply repeated_id_not_NoDup.
Qed.

(** An instance: the store with the ids 3 and 7 and two groups. *)
Lemma comment_markers_after_two_groups :
  exists new,
    stored Demo.reviewed_document_annotated = stored Demo.reviewed_document ++ new /\
    length (int_ids new) = length new /\
    int_ids new = replicate (length new) 0%Z /\
    marker_ids start_id Demo.reviewed_document_annotated
      ≡ₚ marker_ids start_id Demo.reviewed_document ++ int_ids new /\
    marker_ids end_id Demo.reviewed_document_annotated
      ≡ₚ marker_ids end_id Demo.reviewed_document ++ int_ids new /\
    marker_ids ref_id_of Demo.reviewed_document_annotated
      ≡ₚ marker_ids ref_id_of Demo.reviewed_document ++ int_ids new /\
    ((2 <= length new)%nat ->
     ~ NoDup (marker_ids start_id Demo.reviewed_document_annotated) /\
     ~ NoDup (marker_ids end_id Demo.reviewed_document_annotated) /\
     ~ NoDup (marker_ids ref_id_of Demo.reviewed_document_annotated)).
Proof.
  apply (comment_markers_follow_store Demo.built_world
           [Demo.address_issue; Demo.courts_issue] ∅
           [(0%nat, [Demo.address_issue]); (1%nat, [Demo.courts_issue])]).
  vm_compute. reflexivity.
Defined.

Example comment_markers_after_two_groups_values :
  marker_ids start_id Demo.reviewed_document_annotated = [0; 0]%Z /\
  marker_ids end_id Demo.reviewed_document_annotated = [0; 0]%Z /\
  marker_ids ref_id_of Demo.reviewed_document_annotated = [0; 0]%Z /\
  int_ids (stored Demo.reviewed_document_annotated) = [3; 7; 0; 0]%Z.
Proof. repeat split; vm_compute; reflexivity. Qed.

End Markers.

(** ** Results of a search *)
Section SearchResults.
Import Retriever.

(** The hit was read from the parallel arrays at position [pair.2], the way
    Python indexes them. *)
Definition hit_read_at (r : FaissRetriever) (h : Hit) (pair : Qc * Z) : Prop :=
  h_score h = pair.1 /\
  py_index (chunks r) pair.2 = Ok (h_chunk h) /\
  exists m, py_index (meta r) pair.2 = Ok m /\
    m_source_path m = Some (h_source_path h) /\
    (exists ci, m_chunk_index m = Some ci /\
       h_ref_id h = basename (h_source_path h) +:+ "#chunk-" +:+ str_of_Z ci) /\
    h_title h = default (basename (h_source_path h)) (m_title m) /\
    h_source_url h = m_source_url m.

Lemma make_hit_Ok r score idx h :
  make_hit r score idx = Ok h -> hit_read_at r h (score, idx).
Proof.
  unfold make_hit, hit_read_at.
  destruct (py_index (chunks r) idx) as [chunk|e] eqn:Ec; cbn [bind]; [|discriminate].
  destruct (py_index (meta r) idx) as [m|e] eqn:Em; cbn [bind]; [|discriminate].
  destruct (m_source_path m) as [sp|] eqn:Esp; cbn [require bind]; [|discriminate].
  destruct (m_chunk_index m) as [ci|] eqn:Eci; cbn [require bind]; [|discriminate].
  intros [= <-]. cbn. split; [reflexivity|]. split; [exact Ec|]. exists m.
  split; [exact Em|]. split; [exact Esp|].
  split; [exists ci; split; [exact Eci | reflexivity]|]. split; reflexivity.
Qed.

Lemma search_loop_Ok r pairs : forall results out,
  search_loop r pairs results = Ok out ->
  exists hs, out = results ++ hs /\
    Forall2 (hit_read_at r) hs (List.filter not_placeholder pairs).
Proof.
  induction pairs as [|[score idx] pairs IH]; intros results out; cbn [search_loop].
  - intros [= <-]. exists []. rewrite app_nil_r. split; [reflexivity | constructor].
  - cbn [List.filter]. unfold not_placeholder at 1. cbn [snd].
    destruct (idx =? -1)%Z; cbn [negb].
    + apply IH.
    + destruct (make_hit r score idx) as [h|e] eqn:Eh; cbn [bind]; [|discriminate].
      intros Hrest. apply IH in Hrest as (hs & -> & Hhs).
      exists (h :: hs). rewrite <- app_assoc. split; [reflexivity|].
      constructor; [now apply make_hit_Ok | exact Hhs].
Qed.

(** X6. Whenever [search] returns a list, the list has exactly one result
    for every position of the index's answer other than -1, in the order of
    the answer, and each result carries the score of its pair and the chunk
    and the metadata that Python's indexing reads at that position. No
    position is dropped silently: a position that cannot be read, or
    metadata without [source_path] or [chunk_index], makes the whole search
    raise. *)
Theorem search_one_result_per_position :
  forall (w : World) (r : FaissRetriever) (query : string) (hits : list Hit),
    search w r query = Ok hits ->
    exists q_vec scores0 idxs0 srest irest,
      embed_texts w [query] = Ok q_vec /\
      ix_search (index r) q_vec (top_k r) = Ok (scores0 :: srest, idxs0 :: irest) /\
      Forall2 (hit_read_at r) hits (List.filter not_placeholder (zip scores0 idxs0)) /\
      (length hits <= length idxs0)%nat.
Proof.
  intros w r query hits. unfold search.
  destruct (embed_texts w [query]) as [q_vec|e] eqn:Eq; cbn [bind]; [|discriminate].
  destruct (ix_search (index r) q_vec (top_k r)) as [[scores idxs]|e] eqn:Ei; cbn [bind];
    [|discriminate].
  destruct scores as [|scores0 srest]; cbn [first bind]; [discriminate|].
  destruct idxs as [|idxs0 irest]; cbn [first bind]; [discriminate|].
  intros Hloop. apply search_loop_Ok in Hloop as (hs & Heq & Hhs). simpl in Heq. subst hs.
  exists q_vec, scores0, idxs0, srest, irest.
  split; [reflexivity|]. split; [exact Ei|]. split; [exact Hhs|].
  apply Forall2_length in Hhs. rewrite Hhs.
  etransitivity; [apply filter_length_le|]. rewrite length_zip. lia.
Qed.

(** An instance: the index of two chunks asked for four neighbours. *)
Lemma search_two_chunks_results :
  exists q_vec scores0 idxs0 srest irest,
    embed_texts Demo.built_world ["adgm courts"] = Ok q_vec /\
    ix_search (index Demo.two_chunk_retriever) q_vec (top_k Demo.two_chunk_retriever)
      = Ok (scores0 :: srest, idxs0 :: irest) /\
    Forall2 (hit_read_at Demo.two_chunk_retriever)
      (Demo.from_ok [] (search Demo.built_world Demo.two_chunk_retriever "adgm courts"))
      (List.filter not_placeholder (zip scores0 idxs0)) /\
    (length (Demo.from_ok [] (search Demo.built_world Demo.two_chunk_retriever "adgm courts"))
     <= length idxs0)%nat.
Proof.
  apply (search_one_result_per_position Demo.built_world Demo.two_chunk_retriever "adgm courts").
  vm_compute. reflexivity.
Defined.

End SearchResults.

(** ** One call of [cite] *)
Section CiteCall.
Import Retriever Compliance.

Lemma take_str_le n s : (String.length (take_str n s) <= n)%nat.
Proof. rewrite take_str_length. lia. Qed.

(** X7. A call of [cite] raises exactly when the search raises, with the
    same exception. When it returns, the evidence is empty exactly when the
    search found no hit; otherwise it is one item, made from a hit of this
    search, with a snippet of at most 400 characters. The set [used_refs]
    only grows, by at most the [ref_id] of that item, and never by the empty
    string. *)
Theorem cite_one_item_from_the_hits :
  forall (w : World) (r : FaissRetriever) (query : string) (used : gset string),
    (forall e, cite w r query used = Err e <-> search w r query = Err e) /\
    (forall ev used',
       cite w r query used = Ok (ev, used') ->
       exists hits,
         search w r query = Ok hits /\
         (ev = [] <-> hits = []) /\
         (length ev <= 1)%nat /\
         (forall e, In e ev ->
            (exists h, In h hits /\ e = evidence_of h) /\
            (String.length (snippet e) <= 400)%nat) /\
         used ⊆ used' /\
         (forall x, x ∈ used' -> x ∈ used \/ (x <> "" /\ exists e, In e ev /\ ref_id e = x))).
Proof.
  intros w r query used. split.
  - intros e. unfold cite. destruct (search w r query) as [hits|e0]; cbn [bind].
    + split; [|discriminate]. destruct (first_fresh hits used); [discriminate|].
      destruct hits; discriminate.
    + split; intros [= <-]; reflexivity.
  - intros ev used' Hc. apply cite_spec in Hc as (hits & Hs & Hcase). exists hits.
    split; [exact Hs|].
    destruct Hcase as [(h & Hin & Hne & Hnin & -> & ->) | (Hu & -> & ->)].
    + split; [split; [discriminate | intros ->; contradiction]|].
      split; [simpl; lia|]. split; [|split].
      * intros e [<-|[]]. split; [eauto | apply take_str_le].
      * apply union_subseteq_r.
      * intros x Hx. apply elem_of_union in Hx as [Hx|Hx]; [|now left].
        apply elem_of_singleton in Hx. subst x. right. split; [exact Hne|].
        exists (evidence_of h). split; [now left | reflexivity].
    + split; [destruct hits; split; congruence|].
      split; [destruct hits; simpl; lia|]. split; [|split].
      * destruct hits as [|h0 hits]; intros e []; [subst e|contradiction].
        split; [exists h0; split; [now left | reflexivity] | apply take_str_le].
      * reflexivity.
      * intros x Hx. now left.
Qed.

End CiteCall.

(** ** The heuristic checks *)
Section Heuristics.
Import Retriever Compliance.

(** The three conditions of [_heuristic_issues], on the document text. *)
Definition jurisdiction_flag (text : string) : bool :=
  let lower := lower text in
  contains "jurisdiction" lower || contains "federal" lower || contains "uae courts" lower
  || contains "abu dhabi courts" lower.

Definition signature_flag (text : string) : bool :=
  let lower := lower text in
  negb (contains "signature" lower) && negb (contains "signed" lower).

Definition adgm_flag (text : string) : bool :=
  negb (contains "adgm" (lower text)).

(** The issue texts the flags stand for, in the order of the checks. *)
Definition flagged_issues (text : string) : list string :=
  (if jurisdiction_flag text then ["Jurisdiction references non-ADGM courts."] else []) ++
  (if signature_flag text then ["Missing explicit signatory section."] else []) ++
  (if adgm_flag text then ["Document does not explicitly reference ADGM."] else []).

Definition heuristic_shape (file_name display_name : string) (it : IssueItem) : Prop :=
  document it = display_name /\ source_filename it = Some file_name /\ section it = "" /\
  (length (evidence it) <= 1)%nat /\
  (severity it = "High" \/ severity it = "Medium" \/ severity it = "Low") /\
  (exists s, suggestion it = Some s /\ s <> "") /\
  category it = None /\ groundedness it = None /\ suggestion_long it = None.

Lemma cite_length w r query used ev used' :
  cite w r query used = Ok (ev, used') -> (length ev <= 1)%nat.
Proof.
  intros Hc. apply cite_spec in Hc as (hits & _ & [(h & _ & _ & _ & -> & _) | (_ & _ & ->)]);
    [simpl; lia|]. destruct hits; simpl; lia.
Qed.

Lemma flag_Ok w r (cond : bool) query mk st st' :
  flag w r cond query mk st = Ok st' ->
  exists add, st'.1 = st.1 ++ add /\
    if cond then exists ev, add = [mk ev] /\ (length ev <= 1)%nat else add = [].
Proof.
  unfold flag. destruct cond.
  - destruct (cite w r query st.2) as [[ev used]|e] eqn:E; cbn [bind]; [|discriminate].
    intros [= <-]. exists [mk ev]. split; [reflexivity|]. exists ev. split; [reflexivity|].
    eapply cite_length; eauto.
  - intros [= <-]. exists []. now rewrite app_nil_r.
Qed.

Lemma flag_Err w r (cond : bool) query mk st e :
  flag w r cond query mk st = Err e -> cond = true /\ search w r query = Err e.
Proof.
  unfold flag. destruct cond; [|discriminate].
  destruct (cite w r query st.2) as [[ev used]|e0] eqn:E; cbn [bind]; [discriminate|].
  intros [= <-]. split; [reflexivity|]. unfold cite in E.
  destruct (search w r query) as [hits|e1]; cbn [bind] in E; [|congruence].
  destruct (first_fresh hits st.2); [discriminate|]. destruct hits; discriminate.
Qed.

(** X8. When [_heuristic_issues] returns, the issues are those of the
    conditions that hold for the text, in the fixed order jurisdiction,
    signatory section, ADGM reference: at most three. Each carries the
    display name as document, the file name as source file, an empty
    section, at most one evidence item and a suggestion. When no condition
    holds it returns the empty list without a search; when it raises, the
    exception is the one of a search for one of its queries. *)
Theorem heuristic_issues_follow_flags :
  forall (w : World) (file_name display_name text : string) (r : FaissRetriever),
    (forall issues,
       _heuristic_issues w file_name display_name text r = Ok issues ->
       issue <$> issues = flagged_issues text /\
       (length issues <= 3)%nat /\
       Forall (heuristic_shape file_name display_name) issues) /\
    (flagged_issues text = [] ->
     _heuristic_issues w file_name display_name text r = Ok []) /\
    (forall e,
       _heuristic_issues w file_name display_name text r = Err e ->
       exists query, In query (heuristic_queries text) /\ search w r query = Err e).
Proof.
  intros w file_name display_name text r.
  assert (Hshape : forall mk, In mk [jurisdiction_issue file_name display_name;
                                     signature_issue file_name display_name;
                                     adgm_issue file_name display_name] ->
                   forall ev, (length ev <= 1)%nat ->
                   heuristic_shape file_name display_name (mk ev)).
  { intros mk Hmk ev Hev. destruct Hmk as [<-|[<-|[<-|[]]]]; unfold heuristic_shape; cbn;
      repeat split; auto; eexists; (split; [reflexivity | discriminate]). }
  unfold _heuristic_issues, flagged_issues, heuristic_queries.
  fold (jurisdiction_flag text) (signature_flag text) (adgm_flag text).
  set (fj := jurisdiction_flag text). set (fs := signature_flag text). set (fa := adgm_flag text).
  destruct (flag w r fj jurisdiction_query (jurisdiction_issue file_name display_name) ([], ∅))
    as [st1|e1] eqn:E1; cbn [bind].
  2:{ apply flag_Err in E1 as [Hfj He]. rewrite Hfj.
      split; [intros; discriminate|]. split; [discriminate|].
      intros e [= <-]. exists jurisdiction_query. split; [now left | exact He]. }
  destruct (flag w r fs signature_query (signature_issue file_name display_name) st1)
    as [st2|e2] eqn:E2; cbn [bind].
  2:{ apply flag_Err in E2 as [Hfs He]. rewrite Hfs.
      split; [intros; discriminate|]. split; [destruct fj; discriminate|].
      intros e [= <-]. exists signature_query. split; [|exact He].
      apply in_or_app. right. now left. }
  destruct (flag w r fa adgm_query (adgm_issue file_name display_name) st2)
    as [st3|e3] eqn:E3; cbn [bind].
  2:{ apply flag_Err in E3 as [Hfa He]. rewrite Hfa.
      split; [intros; discriminate|]. split; [destruct fj, fs; discriminate|].
      intros e [= <-]. exists adgm_query. split; [|exact He].
      apply in_or_app. right. apply in_or_app. right. now left. }
  apply flag_Ok in E1 as (a1 & H1 & C1), E2 as (a2 & H2 & C2), E3 as (a3 & H3 & C3).
  cbn [fst] in H1. rewrite H3, H2, H1.
  split; [|split; [|discriminate]].
  - intros issues [= <-].
    destruct fj, fs, fa;
      repeat match goal with
             | H : exists ev, _ |- _ => destruct H as (? & -> & ?)
             | H : _ = [] |- _ => rewrite H
             end;
      (split; [reflexivity|]; split; [simpl; lia|]);
      repeat (constructor; [apply Hshape; [cbn; tauto | assumption]|]); constructor.
  - destruct fj, fs, fa; try discriminate. intros _. subst. reflexivity.
Qed.

Lemma lower_app a b : lower (a +:+ b) = lower a +:+ lower b.
Proof. induction a as [|c a IH]; [reflexivity|]. rewrite append_cons. simpl. now rewrite IH. Qed.

Lemma is_substring_middle s a t b : is_substring s t -> is_substring s (a +:+ t +:+ b).
Proof.
  intros (x & y & ->). exists (a +:+ x), (y +:+ b). now rewrite !append_assoc.
Qed.

Lemma contains_middle s a t b :
  contains s (lower t) = true -> contains s (lower (a +:+ t +:+ b)) = true.
Proof.
  rewrite !contains_spec, !lower_app. apply is_substring_middle.
Qed.

Lemma contains_middle_false s a t b :
  contains s (lower (a +:+ t +:+ b)) = false -> contains s (lower t) = false.
Proof.
  intros H. destruct (contains s (lower t)) eqn:E; [|reflexivity].
  rewrite (contains_middle s a t b E) in H. discriminate.
Qed.

(** The clauses that the suggestions of the three issues quote. *)
Definition jurisdiction_clause : string :=
  "This Agreement shall be governed by the laws of the Abu Dhabi Global Market (ADGM), and the courts of ADGM shall have exclusive jurisdiction.".
Definition signatory_block : string :=
  "Signed for and on behalf of the Company by: Name: __________  Title: __________  Date: __________  Signature: __________".
Definition adgm_clause : string :=
  "The Company is incorporated and existing under the Abu Dhabi Global Market (ADGM) Companies Regulations.".

(** X9. Adding text around a document never removes the jurisdiction flag
    and never raises the signatory or the ADGM flag. In particular, whatever
    the document is, once the clause that the jurisdiction issue suggests is
    inserted the jurisdiction issue is still reported, while inserting the
    suggested signatory block, or the suggested ADGM clause, ends the
    corresponding issue. *)
Theorem flags_under_added_text :
  forall (before text after : string),
    (jurisdiction_flag text = true -> jurisdiction_flag (before +:+ text +:+ after) = true) /\
    (signature_flag text = false -> signature_flag (before +:+ text +:+ after) = false) /\
    (adgm_flag text = false -> adgm_flag (before +:+ text +:+ after) = false) /\
    jurisdiction_flag (before +:+ jurisdiction_clause +:+ after) = true /\
    signature_flag (before +:+ signatory_block +:+ after) = false /\
    adgm_flag (before +:+ adgm_clause +:+ after) = false /\
    (forall f d ev,
       suggestion (jurisdiction_issue f d ev) =
         Some ("Specify ADGM Courts as the governing jurisdiction. Suggested clause: '"
               +:+ jurisdiction_clause +:+ "'") /\
       suggestion (signature_issue f d ev) =
         Some ("Add signatory block with name, title, date, and authorized signature. Example: '"
               +:+ signatory_block +:+ "'") /\
       suggestion (adgm_issue f d ev) =
         Some ("Add a clause clarifying ADGM incorporation. Suggested wording: '"
               +:+ adgm_clause +:+ "'")).
Proof.
  intros before text after.
  assert (HJ : forall t, jurisdiction_flag t = true ->
                         jurisdiction_flag (before +:+ t +:+ after) = true).
  { intros t. unfold jurisdiction_flag. cbv zeta. rewrite !orb_true_iff.
    intros [[[H|H]|H]|H]; rewrite (contains_middle _ before t after H); auto. }
  assert (HS : forall t, signature_flag t = false ->
                         signature_flag (before +:+ t +:+ after) = false).
  { intros t. unfold signature_flag. cbv zeta. rewrite !andb_false_iff, !negb_false_iff.
    intros [H|H]; rewrite (contains_middle _ before t after H); auto. }
  assert (HA : forall t, adgm_flag t = false -> adgm_flag (before +:+ t +:+ after) = false).
  { intros t. unfold adgm_flag. rewrite !negb_false_iff. apply contains_middle. }
  split; [apply HJ|]. split; [apply HS|]. split; [apply HA|].
  split; [apply HJ; vm_compute; reflexivity|].
  split; [apply HS; vm_compute; reflexivity|].
  split; [apply HA; vm_compute; reflexivity|].
  intros f d ev. repeat split; vm_compute; reflexivity.
Qed.

End Heuristics.

(** ** Words and chunks *)
Section Tokens.
Import Builtins Indexer.

Fixpoint no_space (s : string) : bool :=
  match s with
  | EmptyString => true
  | String c s' => negb (is_space c) && no_space s'
  end.

(** A word: non-empty and free of whitespace. *)
Definition is_word (s : string) : Prop := truthy s = true /\ no_space s = true.

Lemma no_space_app a b : no_space (a +:+ b) = no_space a && no_space b.
Proof.
  induction a as [|c a IH]; [reflexivity|]. rewrite append_cons. simpl. rewrite IH.
  now rewrite andb_assoc.
Qed.

Lemma truthy_app_r a b : truthy b = true -> truthy (a +:+ b) = true.
Proof. destruct a; [now rewrite append_nil_l | now rewrite append_cons]. Qed.

Lemma split_from_words s : forall cur,
  no_space cur = true -> Forall is_word (split_from cur s).
Proof.
  induction s as [|c s IH]; intros cur Hcur; cbn [split_from].
  - destruct (truthy cur) eqn:E; constructor; [split; assumption | constructor].
  - destruct (is_space c) eqn:Ec.
    + apply Forall_app. split; [|now apply IH].
      destruct (truthy cur) eqn:E; constructor; [split; assumption | constructor].
    + apply IH. rewrite no_space_app, Hcur. simpl. now rewrite Ec.
Qed.

Lemma split_from_word w : forall cur s,
  no_space w = true -> split_from cur (w +:+ s) = split_from (cur +:+ w) s.
Proof.
  induction w as [|c w IH]; intros cur s Hw.
  - now rewrite append_nil_l, append_nil_r.
  - simpl in Hw. apply andb_true_iff in Hw as [Hc Hw]. apply negb_true_iff in Hc.
    rewrite append_cons. cbn [split_from]. rewrite Hc, IH by exact Hw.
    f_equal. rewrite append_assoc, append_cons, append_nil_l. reflexivity.
Qed.

Lemma tokenize_join ws :
  Forall is_word ws -> _tokenize_words (join " " ws) = ws.
Proof.
  unfold _tokenize_words. induction 1 as [|w ws [Hw1 Hw2] Hws IH]; [reflexivity|].
  destruct ws as [|w2 ws].
  - cbn [join]. rewrite <- (append_nil_r w) at 1. rewrite split_from_word by exact Hw2.
    rewrite append_nil_l. cbn [split_from]. now rewrite Hw1.
  - change (join " " (w :: w2 :: ws)) with (w +:+ " " +:+ join " " (w2 :: ws)).
    rewrite split_from_word by exact Hw2. rewrite append_nil_l.
    change (" " +:+ join " " (w2 :: ws)) with (String " "%char (join " " (w2 :: ws))).
    cbn [split_from]. change (is_space " ") with true. cbn match. rewrite Hw1, IH. reflexivity.
Qed.

Fixpoint last_nonspace (s : string) : bool :=
  match s with
  | EmptyString => false
  | String c s' => if truthy s' then last_nonspace s' else negb (is_space c)
  end.

Lemma last_nonspace_truthy s : last_nonspace s = true -> truthy s = true.
Proof. destruct s; [discriminate | reflexivity]. Qed.

Lemma rstrip_last_nonspace s : last_nonspace s = true -> rstrip s = s.
Proof.
  induction s as [|c s IH]; [reflexivity|]. cbn [last_nonspace rstrip].
  destruct (truthy s) eqn:E.
  - intros H. rewrite (IH H), E. cbn [negb]. now rewrite andb_false_r.
  - destruct s; [|discriminate]. intros H. apply negb_true_iff in H. cbn [rstrip]. now rewrite H.
Qed.

Lemma last_nonspace_app a b : truthy b = true -> last_nonspace (a +:+ b) = last_nonspace b.
Proof.
  intros Hb. induction a as [|c a IH]; [now rewrite append_nil_l|].
  rewrite append_cons. cbn [last_nonspace]. now rewrite (truthy_app_r a b Hb).
Qed.

Lemma word_last_nonspace w : is_word w -> last_nonspace w = true.
Proof.
  intros [H1 H2]. induction w as [|c w IH]; [discriminate|].
  simpl in H2. apply andb_true_iff in H2 as [Hc Hw]. cbn [last_nonspace].
  destruct (truthy w) eqn:E; [now apply IH | exact Hc].
Qed.

Lemma join_last_nonspace ws :
  Forall is_word ws -> ws <> [] -> last_nonspace (join " " ws) = true.
Proof.
  induction 1 as [|w ws Hw Hws IH]; [congruence|]. intros _.
  destruct ws as [|w2 ws]; [now apply word_last_nonspace|].
  change (join " " (w :: w2 :: ws)) with (w +:+ String " "%char (join " " (w2 :: ws))).
  assert (HJ : last_nonspace (join " " (w2 :: ws)) = true) by now apply IH.
  rewrite last_nonspace_app by reflexivity. cbn [last_nonspace].
  now rewrite (last_nonspace_truthy _ HJ).
Qed.

Lemma lstrip_join ws : Forall is_word ws -> lstrip (join " " ws) = join " " ws.
Proof.
  destruct 1 as [|w ws [H1 H2] Hws]; [reflexivity|].
  destruct w as [|c w]; [discriminate|]. simpl in H2. apply andb_true_iff in H2 as [Hc _].
  apply negb_true_iff in Hc.
  destruct ws as [|w2 ws].
  - cbn [join lstrip]. now rewrite Hc.
  - change (join " " (String c w :: w2 :: ws)) with (String c w +:+ " " +:+ join " " (w2 :: ws)).
    rewrite append_cons. cbn [lstrip]. now rewrite Hc.
Qed.

(** A chunk made of words is left alone by [strip] and is non-empty. *)
Lemma strip_join ws :
  Forall is_word ws -> ws <> [] ->
  strip (join " " ws) = join " " ws /\ truthy (join " " ws) = true.
Proof.
  intros Hws Hne. unfold strip. rewrite lstrip_join by exact Hws.
  pose proof (join_last_nonspace ws Hws Hne) as HJ.
  split; [now apply rstrip_last_nonspace | now apply last_nonspace_truthy].
Qed.

End Tokens.

Section Chunks.
Import Builtins Indexer.

Variables (words : list string) (max_tokens overlap : Z).

(** The words of the [i]-th chunk: [max_tokens] words (fewer at the end of
    the text), starting [max_tokens - overlap] words after the start of the
    chunk before. *)
Definition window (i : nat) : list string :=
  take (Z.to_nat max_tokens) (drop (i * Z.to_nat (max_tokens - overlap)) words).

Hypothesis Hwords : Forall is_word words.
Hypothesis Hrange : (0 <= overlap < max_tokens)%Z.

Let n := length words.
Let m := Z.to_nat max_tokens.
Let step := Z.to_nat (max_tokens - overlap).

Lemma py_slice_window i :
  (i * step < n)%nat ->
  py_slice words (Z.of_nat (i * step)) (Z.min (Z.of_nat (i * step) + max_tokens) (Z.of_nat n))
  = window i.
Proof.
  intros Hi. unfold py_slice, py_bound, window. fold n step.
  destruct (Z.ltb_spec (Z.of_nat (i * step)) 0); [lia|].
  destruct (Z.ltb_spec (Z.min (Z.of_nat (i * step) + max_tokens) (Z.of_nat n)) 0); [lia|].
  replace (Z.to_nat (Z.min (Z.of_nat (i * step)) (Z.of_nat n))) with (i * step)%nat by lia.
  destruct (Z.le_gt_cases (Z.of_nat (i * step) + max_tokens) (Z.of_nat n)).
  - f_equal. lia.
  - rewrite !take_ge; [reflexivity | |]; rewrite length_drop; fold n; lia.
Qed.

Lemma window_nonempty i : (i * step < n)%nat -> window i <> [].
Proof.
  intros Hi Hnil. apply (f_equal length) in Hnil. unfold window in Hnil.
  rewrite length_take, length_drop in Hnil. fold n step in Hnil. simpl in Hnil. lia.
Qed.

Lemma window_words i : Forall is_word (window i).
Proof. unfold window. apply Forall_take, Forall_drop, Hwords. Qed.

Lemma chunk_loop_windows : forall fuel i chunks,
  (i * step < n)%nat ->
  (n - i * step <= fuel)%nat ->
  (forall j, (j < i)%nat -> (j * step + m < n)%nat) ->
  exists k, (i < k)%nat /\
    chunk_loop fuel words max_tokens overlap (Z.of_nat (i * step)) chunks
      = Some (chunks ++ ((fun j => join " " (window j)) <$> seq i (k - i))) /\
    ((k - 1) * step < n <= (k - 1) * step + m)%nat /\
    (forall j, (S j < k)%nat -> (j * step + m < n)%nat).
Proof.
  induction fuel as [|fuel IH]; intros i chunks Hi Hfuel Hbefore; [lia|].
  cbn [chunk_loop]. fold n.
  destruct (Z.ltb_spec (Z.of_nat (i * step)) (Z.of_nat n)); [|lia].
  rewrite py_slice_window by exact Hi.
  destruct (strip_join (window i) (window_words i) (window_nonempty i Hi)) as [-> ->].
  destruct (Z.eqb_spec (Z.min (Z.of_nat (i * step) + max_tokens) (Z.of_nat n)) (Z.of_nat n)) as [He|He].
  - exists (S i). split; [lia|]. replace (S i - i)%nat with 1%nat by lia.
    split; [reflexivity|]. replace (S i - 1)%nat with i by lia.
    split; [lia|]. intros j Hj. apply Hbefore. lia.
  - replace (Z.max 0 (Z.min (Z.of_nat (i * step) + max_tokens) (Z.of_nat n) - overlap))
      with (Z.of_nat (S i * step)) by lia.
    destruct (IH (S i) (chunks ++ [join " " (window i)])) as (k & Hk & Hrun & Hlast & Hfull);
      [lia | lia | |].
    { intros j Hj. destruct (decide (j = i)) as [->|]; [lia | apply Hbefore; lia]. }
    exists k. split; [lia|]. rewrite Hrun, <- app_assoc.
    replace (k - i)%nat with (S (k - S i)) by lia.
    split; [reflexivity|]. split; [exact Hlast|]. exact Hfull.
Qed.

End Chunks.

Section ChunkText.
Import Builtins Indexer.

Lemma tokenize_words_ok text : Forall is_word (_tokenize_words text).
Proof. now apply split_from_words. Qed.

Lemma chunk_text_loop fuel text max_tokens overlap :
  _tokenize_words text <> [] ->
  _chunk_text fuel text max_tokens overlap
  = chunk_loop fuel (_tokenize_words text) max_tokens overlap 0 [].
Proof. unfold _chunk_text. destruct (_tokenize_words text); [congruence | reflexivity]. Qed.

Lemma chunk_text_no_words fuel text max_tokens overlap :
  _tokenize_words text = [] -> _chunk_text fuel text max_tokens overlap = Some [].
Proof. unfold _chunk_text. now intros ->. Qed.

(** With [0 <= overlap < max_tokens] and fuel for one test per word,
    [_chunk_text] returns the windows [0..k-1]; the last one reaches the end
    of the words and no earlier one does. *)
Lemma chunk_text_closed_form text max_tokens overlap fuel :
  (0 <= overlap < max_tokens)%Z ->
  (length (_tokenize_words text) <= fuel)%nat ->
  exists k,
    _chunk_text fuel text max_tokens overlap
    = Some ((fun i => join " " (window (_tokenize_words text) max_tokens overlap i)) <$> seq 0 k) /\
    (k = 0%nat <-> _tokenize_words text = []) /\
    (forall i, k = S i ->
       (i * Z.to_nat (max_tokens - overlap) < length (_tokenize_words text)
        <= i * Z.to_nat (max_tokens - overlap) + Z.to_nat max_tokens)%nat) /\
    (forall i, (S i < k)%nat ->
       (i * Z.to_nat (max_tokens - overlap) + Z.to_nat max_tokens
        < length (_tokenize_words text))%nat).
Proof.
  intros Hrange Hfuel. pose proof (tokenize_words_ok text) as Hwords.
  destruct (decide (_tokenize_words text = [])) as [Hnil|Hne].
  { exists 0%nat. rewrite chunk_text_no_words by exact Hnil.
    split; [reflexivity|]. split; [tauto|]. split; intros; lia. }
  rewrite chunk_text_loop by exact Hne.
  assert (Hn : (0 < length (_tokenize_words text))%nat)
    by (destruct (_tokenize_words text); [congruence | simpl; lia]).
  destruct (chunk_loop_windows (_tokenize_words text) max_tokens overlap Hwords Hrange fuel 0 [])
    as (k & Hk & Hrun & Hlast & Hfull); [simpl; lia | simpl; lia | intros; lia |].
  change (Z.of_nat (0 * _)) with 0%Z in Hrun. rewrite Hrun. cbn [app].
  replace (k - 0)%nat with k by lia.
  exists k. split; [reflexivity|].
  split; [split; [lia | intros Hnil; rewrite Hnil in Hn; simpl in Hn; lia]|].
  split; [|exact Hfull].
  intros i ->. replace (S i - 1)%nat with i in Hlast by lia. exact Hlast.
Qed.

(** X10. With [0 <= overlap < max_tokens], [_chunk_text] returns once it has
    tested its loop condition at most once per word, and the chunks are the
    windows of the word list: chunk [i] is made of the words from position
    [i * (max_tokens - overlap)] on, at most [max_tokens] of them, joined by
    single spaces, so that splitting a chunk gives its words back. No chunk
    is empty; every chunk but the last has exactly [max_tokens] words and
    ends with the [overlap] words with which the next one starts; the last
    chunk ends with the last word; every word of the text lies in some
    chunk. A text without words gives no chunk. *)
Theorem chunk_text_windows :
  forall (text : string) (max_tokens overlap : Z) (fuel : nat),
    (0 <= overlap < max_tokens)%Z ->
    (length (_tokenize_words text) <= fuel)%nat ->
    let words := _tokenize_words text in
    let W := window words max_tokens overlap in
    let step := Z.to_nat (max_tokens - overlap) in
    exists k,
      _chunk_text fuel text max_tokens overlap = Some ((fun i => join " " (W i)) <$> seq 0 k) /\
      (k = 0%nat <-> words = []) /\
      (forall i, (i < k)%nat ->
         W i <> [] /\ (length (W i) <= Z.to_nat max_tokens)%nat /\
         _tokenize_words (join " " (W i)) = W i) /\
      (forall i, (S i < k)%nat ->
         length (W i) = Z.to_nat max_tokens /\
         drop step (W i) = take (Z.to_nat overlap) (W (S i))) /\
      (forall i, k = S i -> W i = drop (i * step) words) /\
      (forall j, (j < length words)%nat ->
         exists i, (i < k)%nat /\ (i * step <= j < i * step + Z.to_nat max_tokens)%nat).
Proof.
  intros text max_tokens overlap fuel Hrange Hfuel words W step.
  pose proof (tokenize_words_ok text) as Hwords. fold words in Hwords.
  destruct (chunk_text_closed_form text max_tokens overlap fuel Hrange Hfuel)
    as (k & Hrun & Hk & Hlast & Hfull).
  fold words step in Hrun, Hk, Hlast, Hfull. fold W in Hrun.
  exists k. split; [exact Hrun|]. split; [exact Hk|].
  assert (Hstart : forall i, (i < k)%nat -> (i * step < length words)%nat).
  { intros i Hi. destruct (decide (k = S i)) as [Hik|Hik].
    - specialize (Hlast i Hik). lia.
    - specialize (Hfull i ltac:(lia)). lia. }
  split; [|split; [|split]].
  - intros i Hi. split; [now apply window_nonempty, Hstart|].
    split; [unfold W, window; rewrite length_take; lia|].
    apply tokenize_join, window_words, Hwords.
  - intros i Hi. specialize (Hfull i Hi).
    split.
    + unfold W, window. rewrite length_take, length_drop. fold step. lia.
    + unfold W, window. fold step.
      rewrite take_take.
      replace (Z.to_nat overlap `min` Z.to_nat max_tokens)%nat with (Z.to_nat overlap) by lia.
      replace (Z.to_nat max_tokens) with (step + Z.to_nat overlap)%nat by lia.
      rewrite <- take_drop_commute, drop_drop. f_equal. f_equal. lia.
  - intros i Hik. specialize (Hlast i Hik).
    unfold W, window. fold step. apply take_ge. rewrite length_drop. lia.
  - intros j Hj.
    assert (Hk0 : (0 < k)%nat).
    { destruct k; [|lia]. pose proof (proj1 Hk eq_refl) as Hnil. rewrite Hnil in Hj. simpl in Hj. lia. }
    destruct (le_lt_dec k (j / step)) as [Hbig|Hsmall].
    + exists (k - 1)%nat. split; [lia|].
      specialize (Hlast (k - 1)%nat ltac:(lia)).
      assert (step * (j / step) <= j)%nat by (apply Nat.Div0.mul_div_le).
      nia.
    + exists (j / step)%nat. split; [lia|].
      assert (Hs : (0 < step)%nat) by lia.
      pose proof (Nat.div_mod_eq j step) as Hdm.
      pose proof (Nat.mod_upper_bound j step ltac:(lia)) as Hmod. nia.
Qed.

(** An instance: seven words, chunks of four words that overlap by one. *)
Lemma chunk_text_seven_words :
  let words := _tokenize_words "ADGM Courts have exclusive jurisdiction over all disputes." in
  let W := window words 4 1 in
  let step := Z.to_nat (4 - 1) in
  exists k,
    _chunk_text 8 "ADGM Courts have exclusive jurisdiction over all disputes." 4 1
      = Some ((fun i => join " " (W i)) <$> seq 0 k) /\
    (k = 0%nat <-> words = []) /\
    (forall i, (i < k)%nat ->
       W i <> [] /\ (length (W i) <= Z.to_nat 4)%nat /\
       _tokenize_words (join " " (W i)) = W i) /\
    (forall i, (S i < k)%nat ->
       length (W i) = Z.to_nat 4 /\
       drop step (W i) = take (Z.to_nat 1) (W (S i))) /\
    (forall i, k = S i -> W i = drop (i * step) words) /\
    (forall j, (j < length words)%nat ->
       exists i, (i < k)%nat /\ (i * step <= j < i * step + Z.to_nat 4)%nat).
Proof.
  apply (chunk_text_windows "ADGM Courts have exclusive jurisdiction over all disputes." 4 1 8).
  - lia.
  - vm_compute. lia.
Defined.

Example chunk_text_seven_words_chunks :
  _chunk_text 8 "ADGM Courts have exclusive jurisdiction over all disputes." 4 1
  = Some ["ADGM Courts have exclusive"; "exclusive jurisdiction over all"; "all disputes."].
Proof. vm_compute. reflexivity. Qed.

Lemma chunk_loop_stuck words max_tokens overlap :
  (0 < length words)%nat -> (max_tokens < Z.of_nat (length words))%Z ->
  (max_tokens <= overlap)%Z ->
  forall fuel chunks, chunk_loop fuel words max_tokens overlap 0 chunks = None.
Proof.
  intros Hn Hm Ho. induction fuel as [|fuel IH]; intros chunks; [reflexivity|].
  cbn [chunk_loop].
  destruct (Z.ltb_spec 0 (Z.of_nat (length words))); [|lia].
  destruct (Z.eqb_spec (Z.min (0 + max_tokens) (Z.of_nat (length words))) (Z.of_nat (length words)));
    [lia|].
  replace (Z.max 0 (Z.min (0 + max_tokens) (Z.of_nat (length words)) - overlap)) with 0%Z by lia.
  apply IH.
Qed.

(** X11. For an overlap that is not negative, [_chunk_text] returns exactly
    when the text has no word, or the overlap is smaller than [max_tokens],
    or the text has at most [max_tokens] words; in these cases one test of
    the loop condition per word is enough. Otherwise (an overlap of at least
    [max_tokens] on a longer text) the loop starts every round at word 0 and
    never ends, whatever the number of rounds. *)
Theorem chunk_text_returns_iff :
  forall (text : string) (max_tokens overlap : Z),
    (0 <= overlap)%Z ->
    ((exists fuel chunks, _chunk_text fuel text max_tokens overlap = Some chunks) <->
     (_tokenize_words text = [] \/ overlap < max_tokens \/
      Z.of_nat (length (_tokenize_words text)) <= max_tokens)%Z) /\
    ((overlap < max_tokens \/ Z.of_nat (length (_tokenize_words text)) <= max_tokens)%Z ->
     forall fuel, (length (_tokenize_words text) <= fuel)%nat ->
       _chunk_text fuel text max_tokens overlap <> None).
Proof.
  intros text max_tokens overlap Ho.
  assert (Hret : (overlap < max_tokens \/ Z.of_nat (length (_tokenize_words text)) <= max_tokens)%Z ->
     forall fuel, (length (_tokenize_words text) <= fuel)%nat ->
       _chunk_text fuel text max_tokens overlap <> None).
  { intros Hcase fuel Hfuel.
    destruct (Z.lt_ge_cases overlap max_tokens) as [Hlt|Hge].
    - destruct (chunk_text_closed_form text max_tokens overlap fuel ltac:(lia) Hfuel) as (k & -> & _).
      discriminate.
    - destruct Hcase as [?|Hle]; [lia|].
      destruct (decide (_tokenize_words text = [])) as [Hnil|Hne];
        [now rewrite chunk_text_no_words|].
      rewrite chunk_text_loop by exact Hne.
      assert (Hn : (0 < length (_tokenize_words text))%nat)
        by (destruct (_tokenize_words text); [congruence | simpl; lia]).
      destruct fuel as [|fuel]; [lia|].
      cbn [chunk_loop].
      destruct (Z.ltb_spec 0 (Z.of_nat (length (_tokenize_words text)))); [|lia].
      destruct (Z.eqb_spec (Z.min (0 + max_tokens) (Z.of_nat (length (_tokenize_words text))))
                  (Z.of_nat (length (_tokenize_words text)))); [discriminate | lia]. }
  split; [|exact Hret]. split.
  - intros (fuel & chunks & Hrun).
    destruct (_tokenize_words text) as [|w0 ws] eqn:Ew; [now left|]. right.
    destruct (Z.lt_ge_cases overlap max_tokens) as [Hlt|Hge]; [now left|]. right.
    destruct (Z.le_gt_cases (Z.of_nat (length (w0 :: ws))) max_tokens) as [Hle|Hgt]; [exact Hle|].
    rewrite chunk_text_loop in Hrun by (rewrite Ew; discriminate). rewrite Ew in Hrun.
    rewrite chunk_loop_stuck in Hrun; [discriminate | simpl; lia | lia | lia].
  - intros [Hnil|Hcase].
    + exists 0%nat, []. now apply chunk_text_no_words.
    + specialize (Hret Hcase (length (_tokenize_words text)) ltac:(lia)).
      destruct (_chunk_text (length (_tokenize_words text)) text max_tokens overlap) as [chunks|] eqn:E;
        [|congruence].
      exists (length (_tokenize_words text)), chunks. exact E.
Qed.

(** An instance: with an overlap of four words on chunks of four, the text of
    seven words is never chunked. *)
Lemma chunk_text_overlap_four_of_four :
  ((exists fuel chunks,
      _chunk_text fuel "ADGM Courts have exclusive jurisdiction over all disputes." 4 4 = Some chunks) <->
   (_tokenize_words "ADGM Courts have exclusive jurisdiction over all disputes." = [] \/ 4 < 4 \/
    Z.of_nat (length (_tokenize_words "ADGM Courts have exclusive jurisdiction over all disputes.")) <= 4)%Z) /\
  ((4 < 4 \/
    Z.of_nat (length (_tokenize_words "ADGM Courts have exclusive jurisdiction over all disputes.")) <= 4)%Z ->
   forall fuel,
     (length (_tokenize_words "ADGM Courts have exclusive jurisdiction over all disputes.") <= fuel)%nat ->
     _chunk_text fuel "ADGM Courts have exclusive jurisdiction over all disputes." 4 4 <> None).
Proof.
  apply (chunk_text_returns_iff "ADGM Courts have exclusive jurisdiction over all disputes." 4 4). lia.
Defined.

Example chunk_text_overlap_four_of_four_runs :
  forall fuel,
    _chunk_text fuel "ADGM Courts have exclusive jurisdiction over all disputes." 4 4 = None.
Proof.
  intros fuel. rewrite chunk_text_loop by (vm_compute; discriminate).
  apply chunk_loop_stuck; vm_compute; [lia | reflexivity | discriminate].
Qed.

End ChunkText.

(** ** The source url of a reference file *)
Section SourceUrl.
Import Builtins Chains Indexer.

Lemma take_drop_str n : forall s, take_str n s +:+ drop_str n s = s.
Proof.
  induction n as [|n IH]; intros [|c s]; try reflexivity.
  cbn [take_str drop_str]. rewrite append_cons. now rewrite IH.
Qed.

(** The name without extension is a prefix of the base name. *)
Lemma splitext_prefix base : startswith (splitext base).1 base = true.
Proof.
  apply startswith_spec. unfold splitext. destruct (last_dot false 0 base) as [i|]; cbn [fst].
  - exists (drop_str i base). symmetry. apply take_drop_str.
  - exists "". symmetry. apply append_nil_r.
Qed.

Lemma startswith_refl s : startswith s s = true.
Proof. apply startswith_spec. exists "". symmetry. apply append_nil_r. Qed.

(** The two equality tests of [_infer_source_url] add nothing to the test
    by prefix. *)
Lemma url_matches_prefix base url :
  url_matches base (splitext base).1 url
  = truthy (url_base url) && startswith (splitext base).1 (url_base url).
Proof.
  unfold url_matches. destruct (truthy (url_base url)); [|reflexivity]. cbn [andb].
  destruct (String.eqb_spec (url_base url) base) as [->|_].
  - now rewrite splitext_prefix.
  - destruct (String.eqb_spec (url_base url) (splitext base).1) as [->|_]; [|reflexivity].
    now rewrite startswith_refl.
Qed.

(** [item.get("url", "")] *)
Definition url_of (item : Json) : result Json :=
  bind (Annotator.json_get "url" item) (fun url => Ok (default (JStr "") url)).

(** The url names the file with this name without extension: its base name
    is not empty and starts with that name. *)
Definition names_file (stem url : string) : Prop :=
  url_base url <> "" /\ exists rest, url_base url = stem +:+ rest.

(** The loop passes over the entry: it has no url, or an empty one, or one
    that does not name the file. *)
Definition passed_over (stem : string) (item : Json) : Prop :=
  exists url, url_of item = Ok url /\
    (json_truthy url = false \/ exists u, url = JStr u /\ u <> "" /\ ~ names_file stem u).

(** The loop returns the url of the entry. *)
Definition chosen (stem : string) (item : Json) (u : string) : Prop :=
  url_of item = Ok (JStr u) /\ u <> "" /\ names_file stem u.

(** The loop raises at the entry: it is not an object, or its url is neither
    empty nor a string. *)
Definition broken (item : Json) (e : PyErr) : Prop :=
  url_of item = Err e \/
  (exists url, url_of item = Ok url /\ json_truthy url = true /\ (forall u, url <> JStr u) /\
               e = OtherError "AttributeError").

Lemma names_file_spec base u :
  url_matches base (splitext base).1 u = true <-> names_file (splitext base).1 u.
Proof.
  rewrite url_matches_prefix, andb_true_iff, startswith_spec. unfold names_file.
  destruct (url_base u); cbn [truthy]; split; intros [H1 H2]; split; auto; congruence.
Qed.

Lemma truthy_ne s : truthy s = true <-> s <> "".
Proof. destruct s; cbn; split; congruence. Qed.

(** One round of the loop. *)
Lemma infer_loop_cons item rest base :
  (passed_over (splitext base).1 item /\
   infer_loop (item :: rest) base (splitext base).1 = infer_loop rest base (splitext base).1) \/
  (exists u, chosen (splitext base).1 item u /\
             infer_loop (item :: rest) base (splitext base).1 = Ok (Some u)) \/
  (exists e, broken item e /\ infer_loop (item :: rest) base (splitext base).1 = Err e).
Proof.
  cbn [infer_loop]. unfold passed_over, chosen, broken, url_of.
  destruct (Annotator.json_get "url" item) as [url|e]; cbn [bind].
  2:{ right. right. exists e. split; [now left | reflexivity]. }
  destruct (json_truthy (default (JStr "") url)) eqn:Et; cbn [negb].
  2:{ left. split; [|reflexivity]. eexists. split; [reflexivity | now left]. }
  remember (default (JStr "") url) as d eqn:Ed.
  destruct d as [| b | z | q | u | l | kv];
    try (right; right; eexists; split;
         [right; eexists; split; [reflexivity|]; split; [exact Et|];
          split; [intros u'; discriminate | reflexivity] | reflexivity]).
  cbn [json_truthy] in Et. apply truthy_ne in Et.
  destruct (url_matches base (splitext base).1 u) eqn:Em.
  - right. left. exists u. split; [|reflexivity].
    split; [reflexivity|]. split; [exact Et | now apply names_file_spec].
  - left. split; [|reflexivity]. eexists. split; [reflexivity|]. right. exists u.
    split; [reflexivity|]. split; [exact Et|]. rewrite <- names_file_spec. congruence.
Qed.

Lemma passed_over_not_chosen stem item u : passed_over stem item -> chosen stem item u -> False.
Proof.
  intros (url & Hurl & Hcase) (Hu & Hne & Hnames). rewrite Hu in Hurl. injection Hurl as <-.
  destruct Hcase as [Hf|(u' & [= <-] & _ & Hnot)]; [|contradiction].
  cbn in Hf. apply truthy_ne in Hne. congruence.
Qed.

Lemma passed_over_not_broken stem item e : passed_over stem item -> broken item e -> False.
Proof.
  intros (url & Hurl & Hcase) [He|(url' & Hurl' & Ht & Hns & _)]; [congruence|].
  rewrite Hurl in Hurl'. injection Hurl' as <-.
  destruct Hcase as [Hf|(u & -> & _)]; [congruence | now apply (Hns u)].
Qed.

Lemma chosen_not_broken stem item u e : chosen stem item u -> broken item e -> False.
Proof.
  intros (Hu & _) [He|(url' & Hurl' & _ & Hns & _)]; [congruence|].
  rewrite Hu in Hurl'. injection Hurl' as <-. now apply (Hns u).
Qed.

(** The first entry that is not passed over decides. *)
Inductive first_entry (stem : string) : list Json -> result (option string) -> Prop :=
| all_passed_over items :
    Forall (passed_over stem) items -> first_entry stem items (Ok None)
| entry_chosen before item after u :
    Forall (passed_over stem) before -> chosen stem item u ->
    first_entry stem (before ++ item :: after) (Ok (Some u))
| entry_broken before item after e :
    Forall (passed_over stem) before -> broken item e ->
    first_entry stem (before ++ item :: after) (Err e).

Lemma first_entry_cons stem item items r :
  passed_over stem item -> first_entry stem items r -> first_entry stem (item :: items) r.
Proof.
  intros Hp [items' Hall|before it after u Hb Hc|before it after e Hb He].
  - apply all_passed_over. now constructor.
  - apply (entry_chosen stem (item :: before)); [now constructor | exact Hc].
  - apply (entry_broken stem (item :: before)); [now constructor | exact He].
Qed.

Lemma infer_loop_first_entry base items :
  first_entry (splitext base).1 items (infer_loop items base (splitext base).1).
Proof.
  induction items as [|item items IH].
  - apply all_passed_over. constructor.
  - destruct (infer_loop_cons item items base) as [[Hp ->]|[(u & Hc & ->)|(e & He & ->)]].
    + now apply first_entry_cons.
    + apply (entry_chosen _ []); [constructor | exact Hc].
    + apply (entry_broken _ []); [constructor | exact He].
Qed.

Lemma first_entry_unique stem items : forall r r',
  first_entry stem items r -> first_entry stem items r' -> r = r'.
Proof.
  induction items as [|item items IH]; intros r r' H H'.
  - inversion H as [? _|[|? ?] ? ? ? ? ? Heq|[|? ?] ? ? ? ? ? Heq]; try discriminate Heq.
    inversion H' as [? _|[|? ?] ? ? ? ? ? Heq'|[|? ?] ? ? ? ? ? Heq']; try discriminate Heq'.
    reflexivity.
  - assert (Hhead : forall r, first_entry stem (item :: items) r ->
              (passed_over stem item /\ first_entry stem items r) \/
              (exists u, chosen stem item u /\ r = Ok (Some u)) \/
              (exists e, broken item e /\ r = Err e)).
    { intros r0 H0.
      inversion H0 as [? Hall Heq Hr|before it after u Hb Hc Heq Hr|before it after e Hb He Heq Hr].
      - apply Forall_cons in Hall as [Hp Hall]. left. split; [exact Hp | now apply all_passed_over].
      - destruct before as [|b before]; cbn [app] in Heq; injection Heq as Hi Hitems.
        + subst it. right. left. eauto.
        + subst b. rewrite <- Hitems. apply Forall_cons in Hb as [Hp Hb].
          left. split; [exact Hp | now apply entry_chosen].
      - destruct before as [|b before]; cbn [app] in Heq; injection Heq as Hi Hitems.
        + subst it. right. right. eauto.
        + subst b. rewrite <- Hitems. apply Forall_cons in Hb as [Hp Hb].
          left. split; [exact Hp | now apply entry_broken]. }
    destruct (Hhead r H) as [[Hp Hr]|[(u & Hc & ->)|(e & He & ->)]];
      destruct (Hhead r' H') as [[Hp' Hr']|[(u' & Hc' & ->)|(e' & He' & ->)]].
    + now apply IH.
    + destruct (passed_over_not_chosen _ _ _ Hp Hc').
    + destruct (passed_over_not_broken _ _ _ Hp He').
    + destruct (passed_over_not_chosen _ _ _ Hp' Hc).
    + destruct Hc as (Hu & _), Hc' as (Hu' & _). congruence.
    + destruct (chosen_not_broken _ _ _ _ Hc He').
    + destruct (passed_over_not_broken _ _ _ Hp' He).
    + destruct (chosen_not_broken _ _ _ _ Hc' He).
    + f_equal. destruct He as [He|(url & Hurl & _ & _ & ->)], He' as [He'|(url' & Hurl' & _ & _ & ->)];
        congruence.
Qed.

(** X19. [_infer_source_url] answers with the url of the first entry of the
    sources that names the file: an entry whose url is a non-empty string
    with a base name (query string removed, [%20] written [_]) that is not
    empty and starts with the name of the file without its extension. The
    tests for equality with the file's base name and with its name without
    extension add nothing: both are cases of the test by prefix. Entries
    without url, with an empty url or with a url that does not name the file
    are passed over. The answer is [None] exactly when every entry is passed
    over, and an exception is raised exactly at a first entry not passed
    over that is not an object or whose url is not a string. *)
Theorem infer_source_url_first_prefix_match :
  forall (s : Sources) (path : string) (items : list Json),
    py_list (sources_json s) = Ok items ->
    let stem := (splitext (basename path)).1 in
    (forall u, _infer_source_url s path = Ok (Some u) <->
       exists before item after,
         items = before ++ item :: after /\
         Forall (passed_over stem) before /\ chosen stem item u) /\
    (_infer_source_url s path = Ok None <-> Forall (passed_over stem) items) /\
    (forall e, _infer_source_url s path = Err e <->
       exists before item after,
         items = before ++ item :: after /\
         Forall (passed_over stem) before /\ broken item e) /\
    (forall url,
       url_matches (basename path) stem url = true <-> names_file stem url).
Proof.
  intros s path items Hitems stem. unfold _infer_source_url. rewrite Hitems. cbn [bind].
  fold stem. pose proof (infer_loop_first_entry (basename path) items) as Hfirst. fold stem in Hfirst.
  assert (Huniq : forall r, first_entry stem items r -> infer_loop items (basename path) stem = r).
  { intros r Hr. eapply first_entry_unique; [exact Hfirst | exact Hr]. }
  split; [|split; [|split]].
  - intros u. split.
    + intros Hr. rewrite Hr in Hfirst.
      inversion Hfirst as [| before item after u' Hb Hc Heq Hu |]. subst u'.
      exists before, item, after. split; [reflexivity|]. split; assumption.
    + intros (before & item & after & -> & Hb & Hc). apply Huniq. now apply entry_chosen.
  - split.
    + intros Hr. rewrite Hr in Hfirst. inversion Hfirst as [? Hall | |]. exact Hall.
    + intros Hall. apply Huniq. now apply all_passed_over.
  - intros e. split.
    + intros Hr. rewrite Hr in Hfirst.
      inversion Hfirst as [| | before item after e' Hb He Heq He']. subst e'.
      exists before, item, after. split; [reflexivity|]. split; assumption.
    + intros (before & item & after & -> & Hb & He). apply Huniq. now apply entry_broken.
  - intros url. apply names_file_spec.
Qed.

(** An instance: the sources of the samples and the file [courts.txt]. *)
Lemma infer_source_url_courts :
  let stem := (splitext (basename "references/courts.txt")).1 in
  (forall u, _infer_source_url Samples.references "references/courts.txt" = Ok (Some u) <->
     exists before item after,
       Samples.source_entries = before ++ item :: after /\
       Forall (passed_over stem) before /\ chosen stem item u) /\
  (_infer_source_url Samples.references "references/courts.txt" = Ok None <->
     Forall (passed_over stem) Samples.source_entries) /\
  (forall e, _infer_source_url Samples.references "references/courts.txt" = Err e <->
     exists before item after,
       Samples.source_entries = before ++ item :: after /\
       Forall (passed_over stem) before /\ broken item e) /\
  (forall url,
     url_matches (basename "references/courts.txt") stem url = true <-> names_file stem url).
Proof.
  apply (infer_source_url_first_prefix_match Samples.references "references/courts.txt"
           Samples.source_entries).
  reflexivity.
Defined.

(** The file [courts.txt] and a file with the one-letter name [c.txt] get
    the same url, that of [courts-regulations.html]; [office.TXT] gets none. *)
Example infer_source_url_by_prefix :
  _infer_source_url Samples.references "references/courts.txt"
    = Ok (Some "https://www.adgm.com/legal/courts-regulations.html?lang=en") /\
  _infer_source_url Samples.references "references/c.txt"
    = Ok (Some "https://www.adgm.com/legal/courts-regulations.html?lang=en") /\
  _infer_source_url Samples.references "references/sub/office.TXT" = Ok None.
Proof. vm_compute. repeat split; reflexivity. Qed.

Lemma infer_loop_returns items base stem :
  Forall (fun item => exists url, url_of item = Ok url /\
                        (json_truthy url = false \/ exists u, url = JStr u)) items ->
  exists r, infer_loop items base stem = Ok r.
Proof.
  induction 1 as [|item items (url & Hurl & Hcase) _ IH]; [eexists; reflexivity|].
  cbn [infer_loop]. unfold url_of in Hurl.
  destruct (Annotator.json_get "url" item) as [o|]; cbn [bind] in *; [|discriminate].
  injection Hurl as ->. destruct Hcase as [->|(u & ->)]; cbn [negb]; [exact IH|].
  destruct (json_truthy (JStr u)); cbn [negb]; [|exact IH].
  destruct (url_matches base stem u); [eexists; reflexivity | exact IH].
Qed.

End SourceUrl.

(** ** Ingestion and the retriever *)
Section Ingest.
Import Builtins Chains Indexer Retriever.

Lemma append_cancel_l p a b : p +:+ a = p +:+ b -> a = b.
Proof.
  induction p as [|c p IH]; [now rewrite !append_nil_l|].
  rewrite !append_cons. intros [= H]. now apply IH.
Qed.

Lemma path_join_name_inj d a b :
  startswith "/" a = false -> startswith "/" b = false ->
  path_join d a = path_join d b -> a = b.
Proof.
  unfold path_join. intros -> ->.
  destruct (negb (truthy d)); [easy|].
  destruct (String.eqb _ "/"); [apply append_cancel_l|].
  intros H. apply append_cancel_l in H. now apply append_cancel_l in H.
Qed.

Lemma py_index_nat {A} (l : list A) (pos : nat) (a : A) :
  l !! pos = Some a -> py_index l (Z.of_nat pos) = Ok a.
Proof.
  intros Hl. pose proof (lookup_lt_Some _ _ _ Hl) as Hlt.
  unfold py_index, py_pos.
  destruct (Z.ltb_spec (Z.of_nat pos) 0); [lia|].
  destruct (Z.ltb_spec (Z.of_nat pos) 0); [lia|].
  destruct (Z.leb_spec (Z.of_nat (length l)) (Z.of_nat pos)); [lia|].
  cbn [orb bind]. rewrite Nat2Z.id, Hl. reflexivity.
Qed.

Lemma chunk_loop_truthy fuel words max_tokens overlap : forall start chunks out,
  Forall (fun c => truthy c = true) chunks ->
  chunk_loop fuel words max_tokens overlap start chunks = Some out ->
  Forall (fun c => truthy c = true) out.
Proof.
  induction fuel as [|fuel IH]; intros start chunks out Hchunks; [discriminate|].
  cbn [chunk_loop].
  set (chunk := strip (join " " (py_slice words start _))).
  assert (Hnext : Forall (fun c => truthy c = true)
                    (if truthy chunk then chunks ++ [chunk] else chunks)).
  { destruct (truthy chunk) eqn:E; [|exact Hchunks].
    apply Forall_app. split; [exact Hchunks | now constructor]. }
  destruct (_ <? _)%Z; [|now intros [= <-]].
  destruct (_ =? _)%Z; [now intros [= <-]|]. now apply IH.
Qed.

Lemma chunk_text_truthy fuel text max_tokens overlap parts :
  _chunk_text fuel text max_tokens overlap = Some parts ->
  Forall (fun c => truthy c = true) parts.
Proof.
  unfold _chunk_text. destruct (_tokenize_words text); [now intros [= <-]|].
  now apply chunk_loop_truthy.
Qed.

(** Chunk [c] with metadata [m] is the [i]-th chunk of a loaded reference file. *)
Definition chunk_of_reference (fuel : nat) (s : Sources) (items : list (string * string))
  (c : string) (m : Meta) : Prop :=
  exists path text parts (i : nat),
    In (path, text) items /\
    _chunk_text fuel text (max_chunk_tokens s) (chunk_overlap s) = Some parts /\
    parts !! i = Some c /\ truthy c = true /\
    exists source_url, _infer_source_url s path = Ok source_url /\ m = meta_of path source_url i.

Lemma imap_meta_Forall2 fuel s items path text parts source_url :
  In (path, text) items ->
  _chunk_text fuel text (max_chunk_tokens s) (chunk_overlap s) = Some parts ->
  _infer_source_url s path = Ok source_url ->
  Forall2 (chunk_of_reference fuel s items) parts
    (imap (fun i _ => meta_of path source_url i) parts).
Proof.
  intros Hin Hparts Hurl. pose proof (chunk_text_truthy _ _ _ _ _ Hparts) as Htr.
  apply Forall2_same_length_lookup_2; [now rewrite length_imap|].
  intros i c m Hc Hm. rewrite list_lookup_imap, Hc in Hm. injection Hm as <-.
  exists path, text, parts, i. split; [exact Hin|]. split; [exact Hparts|]. split; [exact Hc|].
  split; [eapply Forall_lookup_1 in Htr; eauto|].
  exists source_url. split; [exact Hurl | reflexivity].
Qed.

Lemma ingest_loop_spec fuel s all : forall items chunks meta chunks' meta',
  (forall it, In it items -> In it all) ->
  ingest_loop fuel s items chunks meta = Some (Ok (chunks', meta')) ->
  exists cs ms, chunks' = chunks ++ cs /\ meta' = meta ++ ms /\
    Forall2 (chunk_of_reference fuel s all) cs ms.
Proof.
  induction items as [|[path text] items IH]; intros chunks meta chunks' meta' Hall; cbn [ingest_loop].
  - intros [= <- <-]. exists [], []. rewrite !app_nil_r. repeat split. constructor.
  - destruct (_chunk_text fuel text _ _) as [[|part parts]|] eqn:Eparts; [| |discriminate].
    + apply IH. intros it Hit. apply Hall. now right.
    + destruct (_infer_source_url s path) as [source_url|] eqn:Eurl; [|discriminate].
      intros Hrest.
      apply IH in Hrest as (cs & ms & -> & -> & Hcs); [|intros it Hit; apply Hall; now right].
      exists ((part :: parts) ++ cs),
        (imap (fun i _ => meta_of path source_url i) (part :: parts) ++ ms).
      rewrite <- !app_assoc. split; [reflexivity|]. split; [reflexivity|].
      apply Forall2_app; [|exact Hcs].
      apply imap_meta_Forall2 with (text := text); [apply Hall; now left | exact Eparts | exact Eurl].
Qed.

Lemma write_Ok s path f files files' :
  write s path f files = Ok files' -> files' = <[path := f]> files.
Proof. unfold write. destruct (write_error s path); [discriminate | now intros [= <-]]. Qed.

(** X12. When [ingest_references] returns, the retriever can be constructed
    over the files it wrote, whatever was in the directory before. The
    retriever holds a non-empty list of chunks and one metadata entry per
    chunk; each chunk is a non-empty chunk of a loaded reference file, and
    its entry names that file, the position of the chunk within the file
    and the source url inferred for the file. The index is the one built
    from the embeddings of these chunks.
    Every position of the chunk list can be read by [search]: the result at
    a position carries the chunk stored there and the [ref_id]
    [<base name>#chunk-<i>] of the file and the position it came from. *)
Theorem ingest_then_retriever :
  forall (fuel : nat) (w : World) (s : Sources) (files : gmap string File) (k : nat),
    ingest_references fuel w s = Some (Ok files) ->
    exists r,
      __init__ (with_files w files) k = Ok r /\ top_k r = k /\
      chunks r <> [] /\
      Forall2 (chunk_of_reference fuel s (load_reference_files w s)) (chunks r) (meta r) /\
      (exists vectors,
         embed_texts w (chunks r) = Ok vectors /\ index_flat_ip s vectors = Ok (index r)) /\
      (forall (pos : nat) (c : string) (score : Qc),
         chunks r !! pos = Some c ->
         exists h path text parts (i : nat),
           make_hit r score (Z.of_nat pos) = Ok h /\
           h_chunk h = c /\ c <> "" /\
           In (path, text) (load_reference_files w s) /\
           _chunk_text fuel text (max_chunk_tokens s) (chunk_overlap s) = Some parts /\
           parts !! i = Some c /\
           h_ref_id h = basename path +:+ "#chunk-" +:+ str_of_Z (Z.of_nat i) /\
           h_source_path h = path /\ h_title h = basename path /\
           _infer_source_url s path = Ok (h_source_url h)).
Proof.
  intros fuel w s files k. unfold ingest_references.
  destruct (makedirs w (faiss_index_dir w)); [discriminate|].
  destruct (ingest_loop fuel s (load_reference_files w s) [] []) as [[[cs ms]|]|] eqn:Eloop;
    [|discriminate|discriminate].
  apply (ingest_loop_spec fuel s (load_reference_files w s)) in Eloop
    as (cs' & ms' & Hcs & Hms & Hall); [|auto].
  simpl in Hcs, Hms. subst cs' ms'.
  case_bool_decide as Hne; [discriminate|].
  destruct (embed_texts w cs) as [vectors|] eqn:Eemb; cbn [bind]; [|discriminate].
  destruct (index_flat_ip s vectors) as [ix|] eqn:Eix; cbn [bind]; [|discriminate].
  destruct (write s _ (FaissFile ix) (fs w)) as [f1|] eqn:E1; cbn [bind]; [|discriminate].
  destruct (write s _ OtherFile f1) as [f2|] eqn:E2; cbn [bind]; [|discriminate].
  destruct (write s _ (ChunksJson cs) f2) as [f3|] eqn:E3; cbn [bind]; [|discriminate].
  intros [= E4]. apply write_Ok in E1, E2, E3, E4. subst f1 f2 f3.
  set (dir := faiss_index_dir w) in *.
  assert (Hd : forall a b, a <> b -> startswith "/" a = false -> startswith "/" b = false ->
                           path_join dir a <> path_join dir b).
  { intros a b Hab Ha Hb Heq. apply Hab. eapply path_join_name_inj; eauto. }
  assert (Hindex : files !! path_join dir "index.faiss" = Some (FaissFile ix)).
  { subst files. rewrite !lookup_insert_ne by (apply Hd; [discriminate | reflexivity..]).
    apply lookup_insert_eq. }
  assert (Hchunks : files !! path_join dir "chunks.json" = Some (ChunksJson cs)).
  { subst files. rewrite lookup_insert_ne by (apply Hd; [discriminate | reflexivity..]).
    apply lookup_insert_eq. }
  assert (Hmeta : files !! path_join dir "meta.json" = Some (MetaJson ms)).
  { subst files. apply lookup_insert_eq. }
  exists {| index := ix; chunks := cs; meta := ms; top_k := k |}.
  split.
  { unfold __init__, path_exists, read_index, load_chunks, load_meta. cbn [fs faiss_index_dir with_files].
    fold dir. rewrite Hindex, Hchunks, Hmeta. cbn [bind].
    rewrite !bool_decide_eq_true_2 by eauto. reflexivity. }
  cbn [chunks meta index top_k]. split; [reflexivity|]. split; [exact Hne|]. split; [exact Hall|].
  split; [exists vectors; split; assumption|].
  intros pos c score Hc.
  destruct (Forall2_lookup_l _ _ _ _ _ Hall Hc)
    as (m & Hm & (path & text & parts & i & Hin & Hparts & Hi & Htr & source_url & Hurl & ->)).
  exists {| h_score := score; h_chunk := c;
            h_ref_id := basename path +:+ "#chunk-" +:+ str_of_Z (Z.of_nat i);
            h_source_path := path; h_title := basename path;
            h_source_url := source_url |}, path, text, parts, i.
  split.
  { unfold make_hit. cbn [chunks meta]. rewrite (py_index_nat _ _ _ Hc), (py_index_nat _ _ _ Hm).
    reflexivity. }
  cbn. repeat split; try assumption; try reflexivity.
  intros ->. discriminate.
Qed.

Lemma split_from_cur cur s : truthy cur = true -> split_from cur s <> [].
Proof.
  revert cur. induction s as [|c s IH]; intros cur Hcur; cbn [split_from].
  - now rewrite Hcur.
  - destruct (is_space c).
    + rewrite Hcur. discriminate.
    + apply IH. now apply truthy_app_r.
Qed.

Lemma tokenize_lstrip text : truthy (lstrip text) = true -> _tokenize_words text <> [].
Proof.
  unfold _tokenize_words. induction text as [|c text IH]; [discriminate|].
  cbn [lstrip split_from]. destruct (is_space c).
  - intros H. rewrite app_nil_l. now apply IH.
  - intros _. now apply split_from_cur.
Qed.

(** A text that [strip] leaves non-empty has a word. *)
Lemma tokenize_strip text : truthy (strip text) = true -> _tokenize_words text <> [].
Proof.
  intros H. apply tokenize_lstrip. unfold strip in H. destruct (lstrip text); [discriminate | reflexivity].
Qed.

Lemma load_reference_files_strip w s :
  Forall (fun it : string * string => truthy (strip it.2) = true) (load_reference_files w s).
Proof.
  unfold load_reference_files.
  assert (H : forall files items,
    Forall (fun it : string * string => truthy (strip it.2) = true) items ->
    Forall (fun it : string * string => truthy (strip it.2) = true)
      (foldl (fun items '(root, name) =>
           let path := path_join root name in
           let ext := lower (splitext name).2 in
           match read_reference w s path ext with
           | Some (Ok text) => if truthy (strip text) then items ++ [(path, text)] else items
           | _ => items
           end) items files)).
  { induction files as [|[root name] files IH]; intros items Hitems; cbn [foldl]; [exact Hitems|].
    apply IH. cbv zeta. destruct (read_reference w s _ _) as [[text|]|]; try exact Hitems.
    destruct (truthy (strip text)) eqn:E; [|exact Hitems].
    apply Forall_app. split; [exact Hitems | now constructor]. }
  apply H. constructor.
Qed.

Lemma ingest_loop_returns fuel s : forall items chunks meta,
  (0 <= chunk_overlap s < max_chunk_tokens s)%Z ->
  (forall path, exists source_url, _infer_source_url s path = Ok source_url) ->
  Forall (fun it : string * string =>
            truthy (strip it.2) = true /\ (length (_tokenize_words it.2) <= fuel)%nat) items ->
  exists chunks' meta',
    ingest_loop fuel s items chunks meta = Some (Ok (chunks', meta')) /\
    (items <> [] -> chunks' <> []).
Proof.
  induction items as [|[path text] items IH]; intros chunks meta Hrange Hurl Hitems;
    cbn [ingest_loop].
  - exists chunks, meta. split; [reflexivity | congruence].
  - apply Forall_cons in Hitems as [[Hstrip Hfuel] Hitems]. cbn [snd] in Hstrip, Hfuel.
    destruct (chunk_text_closed_form text _ _ fuel Hrange Hfuel) as (k & -> & Hk & _).
    destruct k as [|k]; [exfalso; apply (tokenize_strip text Hstrip); now apply Hk|].
    cbn [seq fmap list_fmap]. destruct (Hurl path) as [source_url ->].
    match goal with
    | |- context [ingest_loop fuel s items ?cs ?ms] =>
        destruct (IH cs ms Hrange Hurl Hitems) as (chunks' & meta' & Hrun & _)
    end.
    exists chunks', meta'. split; [exact Hrun|]. intros _ Hnil. subst chunks'.
    apply (ingest_loop_spec fuel s items items) in Hrun as (cs & ms & Heq & _); [|auto].
    symmetry in Heq. apply app_eq_nil in Heq as [Heq _]. apply app_eq_nil in Heq as [_ Heq].
    discriminate.
Qed.

(** X13. Let the settings satisfy [0 <= chunk_overlap < max_chunk_tokens],
    and let the directory be creatable, [_infer_source_url] raise for no
    path, the embedding model and the index accept every non-empty list of
    chunks, and the writes succeed. Then
    [ingest_references] raises its error "No reference chunks produced"
    exactly when [load_reference_files] loads no file, and otherwise returns
    with the index written: a file that is loaded has a text that is not
    blank, so it always contributes a chunk. *)
Theorem ingest_succeeds_iff_reference_loaded :
  forall (fuel : nat) (w : World) (s : Sources),
    (0 <= chunk_overlap s < max_chunk_tokens s)%Z ->
    Forall (fun it : string * string => (length (_tokenize_words it.2) <= fuel)%nat)
      (load_reference_files w s) ->
    makedirs w (faiss_index_dir w) = None ->
    (forall path, exists source_url, _infer_source_url s path = Ok source_url) ->
    (forall chunks, chunks <> [] -> exists vectors index,
        embed_texts w chunks = Ok vectors /\ index_flat_ip s vectors = Ok index) ->
    (forall path, write_error s path = None) ->
    (load_reference_files w s = [] -> ingest_references fuel w s = Some (Err no_chunks)) /\
    (load_reference_files w s <> [] -> exists files, ingest_references fuel w s = Some (Ok files)).
Proof.
  intros fuel w s Hrange Hfuel Hmk Hurl Hembed Hwrite. unfold ingest_references. rewrite Hmk.
  split.
  - intros ->. reflexivity.
  - intros Hne.
    destruct (ingest_loop_returns fuel s (load_reference_files w s) [] [] Hrange Hurl)
      as (chunks & meta & -> & Hchunks).
    { apply Forall_and. split; [apply load_reference_files_strip | exact Hfuel]. }
    specialize (Hchunks Hne). rewrite bool_decide_eq_false_2 by exact Hchunks.
    destruct (Hembed chunks Hchunks) as (vectors & index & -> & Hix). cbn [bind]. rewrite Hix.
    unfold write. rewrite !Hwrite. cbn [bind]. eexists. reflexivity.
Qed.

(** An instance: two text files and a file that is not a reference. *)
Lemma ingest_two_references_then_retriever :
  exists r,
    __init__ (with_files Samples.empty_world Samples.ingested_files) 4 = Ok r /\ top_k r = 4%nat /\
    chunks r <> [] /\
    Forall2 (chunk_of_reference 8 Samples.references
               (load_reference_files Samples.empty_world Samples.references)) (chunks r) (meta r) /\
    (exists vectors,
       embed_texts Samples.empty_world (chunks r) = Ok vectors /\
       index_flat_ip Samples.references vectors = Ok (index r)) /\
    (forall (pos : nat) (c : string) (score : Qc),
       chunks r !! pos = Some c ->
       exists h path text parts (i : nat),
         make_hit r score (Z.of_nat pos) = Ok h /\
         h_chunk h = c /\ c <> "" /\
         In (path, text) (load_reference_files Samples.empty_world Samples.references) /\
         _chunk_text 8 text (max_chunk_tokens Samples.references) (chunk_overlap Samples.references)
           = Some parts /\
         parts !! i = Some c /\
         h_ref_id h = basename path +:+ "#chunk-" +:+ str_of_Z (Z.of_nat i) /\
         h_source_path h = path /\ h_title h = basename path /\
         _infer_source_url Samples.references path = Ok (h_source_url h)).
Proof.
  apply (ingest_then_retriever 8 Samples.empty_world Samples.references Samples.ingested_files 4).
  vm_compute. reflexivity.
Defined.

Example ingest_two_references_chunks :
  Retriever.chunks (Demo.from_ok Demo.two_chunk_retriever
                      (__init__ (with_files Samples.empty_world Samples.ingested_files) 4))
  = ["ADGM Courts have exclusive"; "exclusive jurisdiction over all"; "all disputes.";
     "Registered office in ADGM."] /\
  m_source_url <$> Retriever.meta (Demo.from_ok Demo.two_chunk_retriever
                      (__init__ (with_files Samples.empty_world Samples.ingested_files) 4))
  = [Some "https://www.adgm.com/legal/courts-regulations.html?lang=en";
     Some "https://www.adgm.com/legal/courts-regulations.html?lang=en";
     Some "https://www.adgm.com/legal/courts-regulations.html?lang=en"; None].
Proof. vm_compute. split; reflexivity. Qed.

(** An instance of the second theorem, on the same references. *)
Lemma ingest_two_references_succeeds :
  (load_reference_files Samples.empty_world Samples.references = [] ->
   ingest_references 8 Samples.empty_world Samples.references = Some (Err no_chunks)) /\
  (load_reference_files Samples.empty_world Samples.references <> [] ->
   exists files, ingest_references 8 Samples.empty_world Samples.references = Some (Ok files)).
Proof.
  apply (ingest_succeeds_iff_reference_loaded 8 Samples.empty_world Samples.references).
  - vm_compute. split; [discriminate | reflexivity].
  - vm_compute. repeat constructor.
  - reflexivity.
  - intros path. unfold _infer_source_url. cbn [Samples.references sources_json py_list bind].
    apply infer_loop_returns. repeat constructor; eexists; (split; [reflexivity|]); eauto.
  - intros chunks _. eexists _, _. split; reflexivity.
  - reflexivity.
Defined.

End Ingest.

(** ** Process detection from the texts *)
Section ProcessFromTexts.
Import Builtins ProcessIdentifier.

(** [c] does not occur in [s]. *)
Fixpoint free_of (c : ascii) (s : string) : bool :=
  match s with
  | EmptyString => true
  | String a s' => negb (Ascii.eqb a c) && free_of c s'
  end.

Lemma startswith_before c tok : forall a b,
  free_of c tok = true -> startswith tok (a +:+ String c b) = true -> startswith tok a = true.
Proof.
  induction tok as [|t tok IH]; intros a b Hfree; [reflexivity|].
  simpl in Hfree. apply andb_true_iff in Hfree as [Ht Hfree]. apply negb_true_iff in Ht.
  destruct a as [|a0 a].
  - rewrite append_nil_l. cbn [startswith]. now rewrite Ht.
  - rewrite append_cons. cbn [startswith]. destruct (Ascii.eqb t a0); [|discriminate]. now apply IH.
Qed.

Lemma contains_startswith tok s : startswith tok s = true -> contains tok s = true.
Proof. intros H. destruct s; cbn [contains]; now rewrite H. Qed.

Lemma contains_tail tok c s : contains tok s = true -> contains tok (String c s) = true.
Proof. intros H. cbn [contains]. rewrite H. now rewrite orb_true_r. Qed.

(** A token free of [c] that occurs in [a c b] occurs in [a] or in [b]. *)
Lemma contains_split c tok b : forall a,
  free_of c tok = true -> truthy tok = true ->
  contains tok (a +:+ String c b) = true -> contains tok a = true \/ contains tok b = true.
Proof.
  intros a Hfree Htok. induction a as [|a0 a IH].
  - rewrite append_nil_l. cbn [contains]. intros H. apply orb_true_iff in H as [H|H]; [|now right].
    destruct tok as [|t tok]; [discriminate|]. simpl in Hfree.
    apply andb_true_iff in Hfree as [Ht _]. apply negb_true_iff in Ht.
    cbn [startswith] in H. now rewrite Ht in H.
  - rewrite append_cons. intros H.
    change (contains tok (String a0 (a +:+ String c b)))
      with (startswith tok (String a0 (a +:+ String c b)) || contains tok (a +:+ String c b)) in H.
    apply orb_true_iff in H as [H|H].
    + left. apply contains_startswith. rewrite <- append_cons in H.
      eapply startswith_before; eauto.
    + destruct (IH H) as [Ha|Hb]; [left; now apply contains_tail | now right].
Qed.

Lemma lower_join sep parts : lower (join sep parts) = join (lower sep) (lower <$> parts).
Proof.
  induction parts as [|p parts IH]; [reflexivity|].
  destruct parts as [|p2 parts]; [reflexivity|].
  change (join sep (p :: p2 :: parts)) with (p +:+ sep +:+ join sep (p2 :: parts)).
  rewrite !lower_app, IH. reflexivity.
Qed.

Lemma contains_join_part tok sep parts p :
  In p parts -> contains tok p = true -> contains tok (join sep parts) = true.
Proof.
  rewrite !contains_spec. intros Hin Hp. induction parts as [|p1 parts IH]; [destruct Hin|].
  destruct parts as [|p2 parts].
  - destruct Hin as [->|[]]. exact Hp.
  - change (join sep (p1 :: p2 :: parts)) with (p1 +:+ sep +:+ join sep (p2 :: parts)).
    destruct Hin as [->|Hin].
    + rewrite <- (append_nil_l (p +:+ _)). now apply is_substring_middle.
    + specialize (IH Hin). rewrite <- append_assoc, <- (append_nil_r (join _ _)).
      now apply is_substring_middle.
Qed.

Lemma contains_join_nl tok parts :
  free_of (ascii_of_nat 10) tok = true -> truthy tok = true ->
  (contains tok (join nl parts) = true <-> exists p, In p parts /\ contains tok p = true).
Proof.
  intros Hfree Htok. split.
  - induction parts as [|p parts IH].
    + cbn [join]. destruct tok; [discriminate|]. discriminate.
    + destruct parts as [|p2 parts]; [intros H; exists p; split; [now left | exact H]|].
      change (join nl (p :: p2 :: parts))
        with (p +:+ String (ascii_of_nat 10) (join nl (p2 :: parts))).
      intros H. apply contains_split in H as [H|H]; [| |exact Hfree|exact Htok].
      * exists p. split; [now left | exact H].
      * destruct (IH H) as (p' & Hin & Hp'). exists p'. split; [now right | exact Hp'].
  - intros (p & Hin & Hp). eapply contains_join_part; eauto.
Qed.

(** Some text mentions a token of the list, whatever the case of its letters. *)
Definition mentions (tokens texts : list string) : Prop :=
  exists text tok, In text texts /\ In tok tokens /\ contains tok (lower text) = true.

Lemma any_in_mentions tokens texts :
  Forall (fun tok => free_of (ascii_of_nat 10) tok = true /\ truthy tok = true) tokens ->
  any_in tokens (lower (join nl texts)) = true <-> mentions tokens texts.
Proof.
  intros Htok. unfold any_in, mentions. rewrite existsb_exists, lower_join.
  change (lower nl) with nl. split.
  - intros (tok & Hin & Hc). pose proof (proj1 (List.Forall_forall _ _) Htok tok Hin) as [Hf Ht].
    apply contains_join_nl in Hc as (p & Hp & Hc); [|exact Hf|exact Ht].
    apply in_map_iff in Hp as (text & <- & Htext). exists text, tok. auto.
  - intros (text & tok & Htext & Hin & Hc). exists tok. split; [exact Hin|].
    pose proof (proj1 (List.Forall_forall _ _) Htok tok Hin) as [Hf Ht].
    apply contains_join_nl; [exact Hf | exact Ht|].
    exists (lower text). split; [now apply in_map | exact Hc].
Qed.

Lemma contains_trans a b c : contains a b = true -> contains b c = true -> contains a c = true.
Proof.
  rewrite !contains_spec. intros (x & y & ->) (x' & y' & ->).
  exists (x' +:+ x), (y +:+ y'). now rewrite !append_assoc.
Qed.

(** The three longer licensing tokens add nothing to ["licence"] and ["license"]. *)
Lemma licensing_short texts :
  mentions licensing_tokens texts <-> mentions ["licence"; "license"] texts.
Proof.
  split; intros (text & tok & Htext & Hin & Hc).
  - simpl in Hin. destruct Hin as [<-|[<-|[<-|[<-|[<-|[]]]]]].
    + exists text, "licence". split; [exact Htext|]. split; [now left | exact Hc].
    + exists text, "license". split; [exact Htext|]. split; [right; now left | exact Hc].
    + exists text, "licence". split; [exact Htext|]. split; [now left|].
      eapply contains_trans; [|exact Hc]. reflexivity.
    + exists text, "license". split; [exact Htext|]. split; [right; now left|].
      eapply contains_trans; [|exact Hc]. reflexivity.
    + exists text, "licence". split; [exact Htext|]. split; [now left|].
      eapply contains_trans; [|exact Hc]. reflexivity.
  - exists text, tok. split; [exact Htext|]. split; [|exact Hc].
    destruct Hin as [<-|[<-|[]]]; simpl; auto.
Qed.

(** X14. [detect_process_from_texts] answers "Company Incorporation" exactly
    when one of the texts, lower-cased, contains one of the six incorporation
    tokens; "Licensing" exactly when none does and one of the texts contains
    "licence" or "license"; "Unknown" otherwise. Joining the texts creates no
    match across two texts, the order of the texts plays no role, and the
    three longer licensing tokens never change the answer. *)
Theorem detect_process_from_texts_by_mention :
  forall texts : list string,
    (detect_process_from_texts texts = "Company Incorporation" <->
       mentions incorporation_tokens texts) /\
    (detect_process_from_texts texts = "Licensing" <->
       ~ mentions incorporation_tokens texts /\ mentions ["licence"; "license"] texts) /\
    (detect_process_from_texts texts = "Unknown" <->
       ~ mentions incorporation_tokens texts /\ ~ mentions ["licence"; "license"] texts).
Proof.
  intros texts.
  assert (HI : any_in incorporation_tokens (lower (join nl texts)) = true <->
               mentions incorporation_tokens texts).
  { apply any_in_mentions. repeat constructor. }
  assert (HL : any_in licensing_tokens (lower (join nl texts)) = true <->
               mentions ["licence"; "license"] texts).
  { rewrite <- licensing_short. apply any_in_mentions. repeat constructor. }
  unfold detect_process_from_texts. cbv zeta.
  destruct (truthy (lower (join nl texts))) eqn:Et; cbn [negb].
  - destruct (any_in incorporation_tokens _) eqn:EI.
    + pose proof (proj1 HI eq_refl). repeat split; try discriminate; tauto.
    + assert (~ mentions incorporation_tokens texts) by (intros H; apply HI in H; discriminate).
      destruct (any_in licensing_tokens _) eqn:EL.
      * pose proof (proj1 HL eq_refl). repeat split; try discriminate; tauto.
      * assert (~ mentions ["licence"; "license"] texts) by (intros H'; apply HL in H'; discriminate).
        repeat split; try discriminate; tauto.
  - assert (Hempty : lower (join nl texts) = "") by (destruct (lower (join nl texts)); [reflexivity | discriminate]).
    rewrite Hempty in HI, HL.
    assert (~ mentions incorporation_tokens texts) by (intros H; apply HI in H; discriminate).
    assert (~ mentions ["licence"; "license"] texts) by (intros H'; apply HL in H'; discriminate).
    repeat split; try discriminate; tauto.
Qed.

End ProcessFromTexts.

(** ** The workflow: the process reported *)
Section ReportedProcess.
Import Chains ProcessIdentifier Workflow.

Lemma detect_process_from_texts_truthy texts : truthy (detect_process_from_texts texts) = true.
Proof.
  unfold detect_process_from_texts. cbv zeta.
  destruct (negb _); [reflexivity|]. destruct (any_in incorporation_tokens _); [reflexivity|].
  destruct (any_in licensing_tokens _); reflexivity.
Qed.

Lemma detect_process_truthy w h doc_types : json_truthy (detect_process w h doc_types) = true.
Proof.
  unfold detect_process. destruct (lc_detect_process w h doc_types _) as [[proc conf] alts].
  destruct (json_truthy proc) eqn:E; [exact E | reflexivity].
Qed.

Lemma lc_detect_process_offline w h doc_types text :
  llm_available w = false -> lc_detect_process w h doc_types text = (JStr "Unknown", 0%Qc, []).
Proof. intros Hoff. unfold lc_detect_process, _run_json_list. now rewrite Hoff. Qed.

Lemma detect_process_offline w h doc_types :
  llm_available w = false -> detect_process w h doc_types = JStr "Unknown".
Proof. intros Hoff. unfold detect_process. now rewrite lc_detect_process_offline. Qed.

Lemma node_process_id_truthy w h state :
  json_truthy (process (node_process_id w h state)) = true.
Proof.
  unfold node_process_id. destruct (json_truthy (process state)) eqn:E; cbn [negb]; [exact E|].
  cbn [process]. destruct (is_str "Unknown" _) eqn:Eu.
  - apply detect_process_from_texts_truthy.
  - apply detect_process_truthy.
Qed.

Lemma node_process_id_keeps w h state :
  file_paths (node_process_id w h state) = file_paths state /\
  doc_types (node_process_id w h state) = doc_types state /\
  intake_cache (node_process_id w h state) = intake_cache state /\
  issues (node_process_id w h state) = issues state /\
  annotated_paths (node_process_id w h state) = annotated_paths state.
Proof. unfold node_process_id. destruct (negb _); repeat split; reflexivity. Qed.

(** What [invoke] leaves of the state in which it starts. *)
Lemma invoke_Ok w h state final_state :
  invoke w h state = Ok final_state ->
  exists state1 state2,
    node_intake w h state = Ok state1 /\
    node_compliance w (node_process_id w h state1) = Ok state2 /\
    node_annotate w state2 = Ok final_state /\
    file_paths final_state = file_paths state /\
    doc_types final_state = doc_types state1 /\
    intake_cache final_state = intake_cache state1 /\
    process state1 = process state /\
    process final_state = process (node_process_id w h state1) /\
    issues final_state = issues state2.
Proof.
  unfold invoke. destruct (node_intake w h state) as [state1|] eqn:E1; cbn [bind]; [|discriminate].
  destruct (node_compliance w (node_process_id w h state1)) as [state2|] eqn:E2; cbn [bind];
    [|discriminate].
  intros E3. exists state1, state2. split; [reflexivity|]. split; [exact E2|]. split; [exact E3|].
  destruct (node_process_id_keeps w h state1) as (Hf & Hd & Hc & _).
  unfold node_intake in E1. destruct (Intake.run_doc_intake w h _); cbn [bind] in E1; [|discriminate].
  injection E1 as <-.
  unfold node_compliance in E2. destruct (compliance_loop _ _ _ _); cbn [bind] in E2; [|discriminate].
  injection E2 as <-.
  unfold node_annotate in E3. destruct (annotate_loop _ _ _ _); cbn [bind] in E3; [|discriminate].
  injection E3 as <-. cbn in *. rewrite Hf, Hd, Hc. cbn. repeat split; reflexivity.
Qed.

(** X15. Whenever the workflow reaches the checklist, the process it reports
    is the one left in the state by [node_process_id], it is never empty,
    and no confidence is reported: the branch of [run_workflow] that asks
    the language model for a confidence is never taken. A non-empty target
    process is reported as given. Without a target and without a language
    model the process is what [detect_process_from_texts] finds in the
    cached texts; the doc types play no role, the heuristic of
    [detect_process] on them being never reached. *)
Theorem workflow_reports_no_confidence :
  forall (w : World) (h : Host) (paths : list string) (target_process : option string)
         (final_state : WorkflowState) (process : Json) (process_conf : option Qc),
    run_workflow w h paths target_process = Ok (final_state, process, process_conf) ->
    process_conf = None /\
    process = Workflow.process final_state /\
    json_truthy process = true /\
    (forall t, target_process = Some t -> t <> "" -> process = JStr t) /\
    (default "" target_process = "" -> llm_available w = false ->
     process = JStr (detect_process_from_texts ((intake_cache final_state).*2))).
Proof.
  intros w h paths target_process final_state process process_conf. unfold run_workflow.
  destruct (invoke w h _) as [fs|] eqn:Einv; cbn [bind]; [|discriminate].
  apply invoke_Ok in Einv as (state1 & state2 & _ & _ & _ & _ & Hd & Hc & Hp1 & Hp & _).
  cbn [Workflow.process] in Hp1.
  assert (Htruthy : json_truthy (Workflow.process fs) = true)
    by (rewrite Hp; apply node_process_id_truthy).
  unfold reported_process. rewrite Htruthy. intros [= <- <- <-].
  split; [reflexivity|]. split; [reflexivity|]. split; [exact Htruthy|].
  rewrite Hp. unfold node_process_id. rewrite Hp1. split.
  - intros t -> Ht. destruct t; [congruence|]. cbn. exact Hp1.
  - intros Hempty Hoff. rewrite Hempty. cbn [json_truthy truthy negb Workflow.process].
    rewrite detect_process_offline by exact Hoff. cbn [is_str]. rewrite Hc. reflexivity.
Qed.

(** An instance: one upload that is read and one that the intake skips. *)
Lemma workflow_two_uploads_no_confidence :
  Samples.reported.2 = None /\
  Samples.reported.1 = Workflow.process Samples.final_state /\
  json_truthy Samples.reported.1 = true /\
  (forall t, @None string = Some t -> t <> "" -> Samples.reported.1 = JStr t) /\
  (default "" (@None string) = "" -> llm_available Samples.upload_world = false ->
   Samples.reported.1 = JStr (detect_process_from_texts ((intake_cache Samples.final_state).*2))).
Proof.
  apply (workflow_reports_no_confidence Samples.upload_world Samples.host Samples.uploads None
           Samples.final_state Samples.reported.1 Samples.reported.2).
  vm_compute. reflexivity.
Defined.

Example workflow_two_uploads_process :
  Samples.reported = (JStr "Company Incorporation", None) /\
  doc_types Samples.final_state = ["Articles of Association"].
Proof. vm_compute. split; reflexivity. Qed.

End ReportedProcess.

(** ** Dicts *)
Section Dicts.
Context {V : Type}.

Lemma get_set_eq (k : string) (v : V) d : Dict.get k (Dict.set k v d) = Some v.
Proof.
  induction d as [|[k' v'] d IH]; cbn [Dict.set Dict.get].
  - now rewrite String.eqb_refl.
  - destruct (String.eqb k' k) eqn:E; cbn [Dict.get]; rewrite E; [reflexivity | exact IH].
Qed.

Lemma get_set_ne (k k' : string) (v : V) d : k <> k' -> Dict.get k (Dict.set k' v d) = Dict.get k d.
Proof.
  intros Hne. induction d as [|[k0 v0] d IH]; cbn [Dict.set Dict.get].
  - destruct (String.eqb_spec k' k); [congruence | reflexivity].
  - destruct (String.eqb_spec k0 k') as [->|Hk0]; cbn [Dict.get].
    + destruct (String.eqb_spec k' k); [congruence | reflexivity].
    + destruct (String.eqb_spec k0 k); [reflexivity | exact IH].
Qed.

Lemma set_keys (k : string) (v : V) d :
  (Dict.set k v d).*1 = if bool_decide (k ∈ d.*1) then d.*1 else d.*1 ++ [k].
Proof.
  induction d as [|[k0 v0] d IH]; cbn [Dict.set fmap list_fmap fst].
  - rewrite bool_decide_eq_false_2 by apply not_elem_of_nil. reflexivity.
  - destruct (String.eqb_spec k0 k) as [->|Hk0]; cbn [fmap list_fmap fst].
    + rewrite bool_decide_eq_true_2 by apply list_elem_of_here. reflexivity.
    + fold (@fmap list _ _ _ (@fst string V) (Dict.set k v d)). fold (@fmap list _ _ _ (@fst string V) d).
      rewrite IH. case_bool_decide as Hin.
      * rewrite bool_decide_eq_true_2 by (now apply list_elem_of_further). reflexivity.
      * rewrite bool_decide_eq_false_2; [reflexivity|].
        intros Hin'. apply elem_of_cons in Hin' as [?|?]; [congruence | contradiction].
Qed.

Lemma set_NoDup (k : string) (v : V) d : NoDup d.*1 -> NoDup (Dict.set k v d).*1.
Proof.
  intros Hd. rewrite set_keys. case_bool_decide as Hin; [exact Hd|].
  apply NoDup_app. split; [exact Hd|]. split; [|apply NoDup_singleton].
  intros x Hx Hx'. apply list_elem_of_singleton in Hx'. now subst.
Qed.

Lemma foldl_set_NoDup (pairs : list (string * V)) : forall d,
  NoDup d.*1 -> NoDup (foldl (fun d kv => Dict.set kv.1 kv.2 d) d pairs).*1.
Proof.
  induction pairs as [|[k v] pairs IH]; intros d Hd; cbn [foldl]; [exact Hd|].
  apply IH. now apply set_NoDup.
Qed.

Lemma of_pairs_NoDup (pairs : list (string * V)) : NoDup (Dict.of_pairs pairs).*1.
Proof. apply foldl_set_NoDup. apply NoDup_nil_2. Qed.

Lemma get_of_NoDup (k : string) (v : V) d : NoDup d.*1 -> In (k, v) d -> Dict.get k d = Some v.
Proof.
  induction d as [|[k0 v0] d IH]; intros Hd Hin; [destruct Hin|].
  cbn [fmap list_fmap fst] in Hd. apply NoDup_cons in Hd as [Hk0 Hd]. cbn [Dict.get].
  destruct Hin as [[= -> ->]|Hin]; [now rewrite String.eqb_refl|].
  destruct (String.eqb_spec k0 k) as [->|Hne]; [|now apply IH].
  exfalso. apply Hk0. apply list_elem_of_fmap. exists (k, v). split; [reflexivity|].
  now apply list_elem_of_In.
Qed.

Lemma set_In (k k' : string) (v v' : V) d :
  In (k, v) (Dict.set k' v' d) -> (k, v) = (k', v') \/ In (k, v) d.
Proof.
  induction d as [|[k0 v0] d IH]; cbn [Dict.set].
  - intros [[= <- <-]|[]]. now left.
  - destruct (String.eqb_spec k0 k') as [->|Hne].
    + intros [[= <- <-]|Hin]; [now left | right; now right].
    + intros [Heq|Hin]; [right; now left|]. destruct (IH Hin) as [?|?]; [now left | right; now right].
Qed.

Lemma of_pairs_In (k : string) (v : V) pairs : In (k, v) (Dict.of_pairs pairs) -> In (k, v) pairs.
Proof.
  unfold Dict.of_pairs.
  assert (H : forall d, In (k, v) (foldl (fun d kv => Dict.set kv.1 kv.2 d) d pairs) ->
                        In (k, v) d \/ In (k, v) pairs).
  { induction pairs as [|[k' v'] pairs IH]; intros d; cbn [foldl]; [now left|].
    intros Hin. apply IH in Hin as [Hin|Hin]; [|right; now right].
    apply set_In in Hin as [Heq|Hin]; [right; left; now symmetry | now left]. }
  intros Hin. apply H in Hin as [[]|Hin]. exact Hin.
Qed.

End Dicts.

Section DictValues.
Context {V W : Type} (g : V -> W).

Lemma set_map_values (k : string) (v : V) d :
  Dict.set k (g v) (prod_map id g <$> d) = prod_map id g <$> Dict.set k v d.
Proof.
  induction d as [|[k0 v0] d IH]; [reflexivity|].
  cbn [fmap list_fmap prod_map Dict.set fst snd id]. destruct (String.eqb k0 k); [reflexivity|].
  cbn [fmap list_fmap prod_map fst snd id]. f_equal. exact IH.
Qed.

Lemma foldl_set_map_values (pairs : list (string * V)) : forall d,
  foldl (fun d kv => Dict.set kv.1 kv.2 d) (prod_map id g <$> d) (prod_map id g <$> pairs)
  = prod_map id g <$> foldl (fun d kv => Dict.set kv.1 kv.2 d) d pairs.
Proof.
  induction pairs as [|[k v] pairs IH]; intros d; [reflexivity|].
  cbn [fmap list_fmap foldl prod_map fst snd id].
  rewrite set_map_values. apply IH.
Qed.

Lemma of_pairs_map_values (pairs : list (string * V)) :
  Dict.of_pairs (prod_map id g <$> pairs) = prod_map id g <$> Dict.of_pairs pairs.
Proof. apply (foldl_set_map_values pairs []). Qed.

Lemma get_map_values (k : string) d :
  Dict.get k (prod_map id g <$> d) = g <$> Dict.get k d.
Proof.
  induction d as [|[k0 v0] d IH]; [reflexivity|].
  cbn [fmap list_fmap prod_map Dict.get fst snd id]. destruct (String.eqb k0 k); [reflexivity | exact IH].
Qed.

End DictValues.

(** ** The workflow: intake and display names *)
Section IntakeDocs.
Import Chains ProcessIdentifier Workflow.

(** The paths [run_doc_intake] reads: those that exist and have the
    extension [.docx], in whatever case. *)
Definition accepted (h : Host) (path : string) : bool :=
  upload_exists h path && String.eqb (lower (splitext (basename path)).2) ".docx".

(** Document [d] is what the intake makes of [path]. *)
Definition intake_of (w : World) (h : Host) (path : string) (d : Intake.IntakeDoc) : Prop :=
  Intake._read_docx w path = Ok (Intake.text d) /\
  Intake.filename d = basename path /\
  Intake.doc_type d = Intake._classify w h (Intake.text d).

Lemma run_doc_intake_loop_Ok w h paths : forall docs out,
  Intake.run_doc_intake_loop w h paths docs = Ok out ->
  exists new, out = docs ++ new /\ Forall2 (intake_of w h) (List.filter (accepted h) paths) new.
Proof.
  induction paths as [|p paths IH]; intros docs out; cbn [Intake.run_doc_intake_loop List.filter].
  - intros [= <-]. exists []. rewrite app_nil_r. split; [reflexivity | constructor].
  - unfold accepted at 1. destruct (upload_exists h p); cbn [negb andb]; [|apply IH].
    destruct (String.eqb _ ".docx"); cbn [negb]; [|apply IH].
    destruct (Intake._read_docx w p) as [text|] eqn:Er; cbn [bind]; [|discriminate].
    intros Hrest. apply IH in Hrest as (new & -> & Hnew).
    eexists (_ :: new). rewrite <- app_assoc. split; [reflexivity|].
    constructor; [|exact Hnew]. repeat split. exact Er.
Qed.

Lemma node_intake_Ok w h state state1 :
  node_intake w h state = Ok state1 ->
  exists docs,
    Forall2 (intake_of w h) (List.filter (accepted h) (file_paths state)) docs /\
    file_paths state1 = file_paths state /\
    doc_types state1 = Intake.doc_type <$> docs /\
    intake_cache state1 = Dict.of_pairs ((fun d => (Intake.filename d, Intake.text d)) <$> docs).
Proof.
  unfold node_intake, Intake.run_doc_intake.
  destruct (Intake.run_doc_intake_loop w h (file_paths state) []) as [docs|] eqn:E; cbn [bind];
    [|discriminate].
  intros [= <-]. apply run_doc_intake_loop_Ok in E as (new & -> & Hnew).
  exists new. repeat split. exact Hnew.
Qed.

Lemma filter_all {A} (f : A -> bool) (l : list A) :
  Forall (fun x => f x = true) l -> List.filter f l = l.
Proof. induction 1 as [|x l Hx _ IH]; [reflexivity|]. cbn [List.filter]. now rewrite Hx, IH. Qed.

Lemma type_pairs w h paths docs :
  Forall2 (intake_of w h) paths docs ->
  (fun pt : string * string => (basename pt.1, pt.2)) <$> zip paths (Intake.doc_type <$> docs)
  = prod_map id (Intake._classify w h) <$> ((fun d => (Intake.filename d, Intake.text d)) <$> docs).
Proof.
  induction 1 as [|p d paths docs (_ & Hf & Ht) _ IH]; [reflexivity|].
  cbn [fmap list_fmap zip zip_with prod_map fst snd id]. rewrite Hf, Ht. f_equal. exact IH.
Qed.

Lemma display_name_accepted w h state state1 :
  Forall (fun path => accepted h path = true) (file_paths state) ->
  node_intake w h state = Ok state1 ->
  forall filename text,
    In (filename, text) (intake_cache (node_process_id w h state1)) ->
    display_name (node_process_id w h state1) filename = Intake._classify w h text /\
    exists path, In path (file_paths state) /\ basename path = filename /\
                 Intake._read_docx w path = Ok text.
Proof.
  intros Hall Hintake filename text Hin.
  destruct (node_process_id_keeps w h state1) as (Hf & Hd & Hc & _).
  apply node_intake_Ok in Hintake as (docs & Hdocs & Hpaths & Htypes & Hcache).
  rewrite (filter_all _ _ Hall) in Hdocs.
  rewrite Hc, Hcache in Hin. split.
  - unfold display_name, type_map. rewrite Hf, Hd, Hpaths, Htypes.
    rewrite (type_pairs w h _ _ Hdocs), of_pairs_map_values, get_map_values.
    rewrite (get_of_NoDup filename text); [reflexivity | apply of_pairs_NoDup | exact Hin].
  - apply of_pairs_In, in_map_iff in Hin as (d & [= <- <-] & Hd').
    apply list_elem_of_In, list_elem_of_lookup in Hd' as (i & Hi).
    destruct (Forall2_lookup_r _ _ _ _ _ Hdocs Hi) as (path & Hpath & Hr & Hfn & _).
    exists path. split; [|split].
    + apply list_elem_of_In, list_elem_of_lookup. now exists i.
    + symmetry. exact Hfn.
    + exact Hr.
Qed.

Lemma display_name_shifted w h skipped path state state1 :
  file_paths state = [skipped; path] ->
  accepted h skipped = false -> accepted h path = true ->
  basename skipped <> basename path ->
  node_intake w h state = Ok state1 ->
  exists text,
    Intake._read_docx w path = Ok text /\
    intake_cache (node_process_id w h state1) = [(basename path, text)] /\
    type_map (node_process_id w h state1) = [(basename skipped, Intake._classify w h text)] /\
    display_name (node_process_id w h state1) (basename path) = basename path.
Proof.
  intros Hpaths Hskip Hacc Hne Hintake.
  destruct (node_process_id_keeps w h state1) as (Hf & Hd & Hc & _).
  apply node_intake_Ok in Hintake as (docs & Hdocs & Hfp & Htypes & Hcache).
  rewrite Hpaths in Hdocs. cbn [List.filter] in Hdocs. rewrite Hskip, Hacc in Hdocs.
  apply Forall2_cons_inv_l in Hdocs as (d & docs' & (Hr & Hfn & Ht) & Hnil & ->).
  apply Forall2_nil_inv_l in Hnil as ->.
  exists (Intake.text d). split; [exact Hr|].
  assert (Htm : type_map (node_process_id w h state1)
                = [(basename skipped, Intake._classify w h (Intake.text d))]).
  { unfold type_map. rewrite Hf, Hd, Hfp, Hpaths, Htypes. cbn. now rewrite Ht. }
  split; [|split; [exact Htm|]].
  - rewrite Hc, Hcache. cbn. now rewrite Hfn.
  - unfold display_name. rewrite Htm. cbn [Dict.get].
    destruct (String.eqb_spec (basename skipped) (basename path)); [contradiction | reflexivity].
Qed.

(** X16. When every uploaded path is one the intake reads (it exists and has
    the extension [.docx]), each cached text is checked by [node_compliance]
    under the document type that [_classify] gives to that very text, also
    when two uploads share a base name. This depends on no path being
    skipped: [type_map] pairs the paths with the types by position, so for
    two uploads with different base names of which the first is skipped and
    the second is read, the type of the second is filed under the name of
    the first and the second document is checked under its file name. *)
Theorem display_name_is_type_of_text :
  forall (w : World) (h : Host),
    (forall state state1,
       Forall (fun path => accepted h path = true) (file_paths state) ->
       node_intake w h state = Ok state1 ->
       forall filename text,
         In (filename, text) (intake_cache (node_process_id w h state1)) ->
         display_name (node_process_id w h state1) filename = Intake._classify w h text /\
         exists path, In path (file_paths state) /\ basename path = filename /\
                      Intake._read_docx w path = Ok text) /\
    (forall skipped path state state1,
       file_paths state = [skipped; path] ->
       accepted h skipped = false -> accepted h path = true ->
       basename skipped <> basename path ->
       node_intake w h state = Ok state1 ->
       exists text,
         Intake._read_docx w path = Ok text /\
         intake_cache (node_process_id w h state1) = [(basename path, text)] /\
         type_map (node_process_id w h state1) = [(basename skipped, Intake._classify w h text)] /\
         display_name (node_process_id w h state1) (basename path) = basename path).
Proof.
  intros w h. split.
  - apply display_name_accepted.
  - apply display_name_shifted.
Qed.

(** Both cases at work: the same document uploaded alone, and after a path
    that the intake skips. *)
Example display_name_alone_and_shifted :
  (exists state1,
     node_intake Samples.upload_world Samples.host (Samples.initial_state ["uploads/aoa.docx"])
       = Ok state1 /\
     display_name (node_process_id Samples.upload_world Samples.host state1) "aoa.docx"
       = "Articles of Association") /\
  (exists state1,
     node_intake Samples.upload_world Samples.host
       (Samples.initial_state ["uploads/notes.txt"; "uploads/aoa.docx"]) = Ok state1 /\
     display_name (node_process_id Samples.upload_world Samples.host state1) "aoa.docx"
       = "aoa.docx" /\
     type_map (node_process_id Samples.upload_world Samples.host state1)
       = [("notes.txt", "Articles of Association")]).
Proof.
  split; eexists; (split; [vm_compute; reflexivity|]); vm_compute; auto.
Qed.

End IntakeDocs.

(** ** The workflow: annotation of the uploads *)
Section AnnotateEveryPath.
Import Annotator Chains ProcessIdentifier Workflow.

Lemma annotate_docx_returned w path issues out :
  returned (annotate_docx w path issues) = Ok out ->
  makedirs w (output_dir w) = None /\
  (exists doc, open_document w path = Ok doc) /\
  (out = reviewed_path w path \/ out = unique_path w path).
Proof.
  unfold annotate_docx. destruct (annotated_document w path issues) as [doc|] eqn:Edoc;
    cbn [returned]; [|discriminate].
  unfold annotated_document in Edoc.
  destruct (makedirs w (output_dir w)); [discriminate|].
  destruct (open_document w path) as [doc0|]; cbn [bind] in Edoc; [|discriminate].
  intros Hp. split; [reflexivity|]. split; [eauto|].
  unfold persist in Hp.
  destruct (doc_save w 0 (reviewed_path w path)) as [[]|]; cbn [returned] in Hp; try discriminate.
  - destruct (doc_save w 1 (unique_path w path)); cbn [returned] in Hp; [discriminate|].
    injection Hp as <-. now right.
  - injection Hp as <-. now left.
Qed.

(** An entry of [annotated_paths]: the output name made from a path with
    that base name. *)
Definition output_for (w : World) (fname out : string) : Prop :=
  exists path, basename path = fname /\ (out = reviewed_path w path \/ out = unique_path w path).

Lemma annotate_loop_Ok w issues : forall paths annotated out,
  annotate_loop w issues paths annotated = Ok out ->
  (forall k o, Dict.get k annotated = Some o -> output_for w k o) ->
  (forall k o, Dict.get k out = Some o -> output_for w k o) /\
  (forall k, is_Some (Dict.get k annotated) -> is_Some (Dict.get k out)) /\
  (forall p, In p paths ->
     makedirs w (output_dir w) = None /\ (exists doc, open_document w p = Ok doc) /\
     is_Some (Dict.get (basename p) out)).
Proof.
  induction paths as [|p paths IH]; intros annotated out; cbn [annotate_loop].
  - intros [= <-] Hinv. split; [exact Hinv|]. split; [auto|]. intros p [].
  - destruct (returned (annotate_docx w p _)) as [outp|] eqn:Ea; cbn [bind]; [|discriminate].
    apply annotate_docx_returned in Ea as (Hmk & Hopen & Hname).
    intros Hrest Hinv. apply IH in Hrest as (Hout & Hkeep & Hpaths).
    + split; [exact Hout|]. split.
      * intros k Hk. apply Hkeep. destruct (decide (k = basename p)) as [->|Hne].
        -- rewrite get_set_eq. eauto.
        -- now rewrite get_set_ne.
      * intros p' [<-|Hin]; [|now apply Hpaths].
        split; [exact Hmk|]. split; [exact Hopen|]. apply Hkeep. rewrite get_set_eq. eauto.
    + intros k o. destruct (decide (k = basename p)) as [->|Hne].
      * rewrite get_set_eq. intros [= <-]. exists p. split; [reflexivity | exact Hname].
      * rewrite get_set_ne by exact Hne. apply Hinv.
Qed.

Lemma output_for_path w p out :
  output_for w (basename p) out -> out = reviewed_path w p \/ out = unique_path w p.
Proof.
  intros (p' & Hb & Hout). unfold reviewed_path, unique_path in *. rewrite Hb in Hout. exact Hout.
Qed.

(** X17. The intake skips a path that does not exist or has another
    extension than [.docx]: the doc types have one entry per path it reads.
    The annotation skips nothing: whenever the workflow reaches the
    checklist, every uploaded path, read by the intake or not, was opened as
    a document, and [annotated_paths] has an entry under its base name,
    which is the output name made from that base name, plain or with the
    unique suffix. *)
Theorem workflow_annotates_every_path :
  forall (w : World) (h : Host) (paths : list string) (target_process : option string)
         (final_state : WorkflowState) (process : Json) (process_conf : option Qc),
    run_workflow w h paths target_process = Ok (final_state, process, process_conf) ->
    length (doc_types final_state) = length (List.filter (accepted h) paths) /\
    forall path, In path paths ->
      (exists doc, open_document w path = Ok doc) /\
      exists out,
        Dict.get (basename path) (annotated_paths final_state) = Some out /\
        (out = reviewed_path w path \/ out = unique_path w path).
Proof.
  intros w h paths target_process final_state process process_conf. unfold run_workflow.
  destruct (invoke w h _) as [fs|] eqn:Einv; cbn [bind]; [|discriminate].
  destruct (reported_process w h fs) as [pr cf]. intros [= <- <- <-].
  apply invoke_Ok in Einv as (state1 & state2 & Hi & Hc & Ha & Hf & Hd & _).
  cbn [file_paths] in Hf. split.
  - apply node_intake_Ok in Hi as (docs & Hdocs & _ & Ht & _). cbn [file_paths] in Hdocs.
    rewrite Hd, Ht, length_fmap. symmetry. eapply Forall2_length; eauto.
  - unfold node_annotate in Ha.
    destruct (annotate_loop w (issues state2) (file_paths state2) []) as [annotated|] eqn:El;
      cbn [bind] in Ha; [|discriminate].
    injection Ha as <-. cbn [file_paths annotated_paths] in *.
    apply annotate_loop_Ok in El as (Hout & _ & Hpaths); [|intros k o; discriminate].
    intros path Hin. rewrite <- Hf in Hin. destruct (Hpaths path Hin) as (_ & Hopen & [out Hget]).
    split; [exact Hopen|]. exists out. split; [exact Hget|].
    apply output_for_path. now apply Hout.
Qed.

(** An instance: the second upload is skipped by the intake and annotated. *)
Lemma workflow_two_uploads_annotated :
  length (doc_types Samples.final_state) = length (List.filter (accepted Samples.host) Samples.uploads) /\
  forall path, In path Samples.uploads ->
    (exists doc, open_document Samples.upload_world path = Ok doc) /\
    exists out,
      Dict.get (basename path) (annotated_paths Samples.final_state) = Some out /\
      (out = reviewed_path Samples.upload_world path \/ out = unique_path Samples.upload_world path).
Proof.
  apply (workflow_annotates_every_path Samples.upload_world Samples.host Samples.uploads None
           Samples.final_state Samples.reported.1 Samples.reported.2).
  vm_compute. reflexivity.
Defined.

Example workflow_two_uploads_outputs :
  List.filter (accepted Samples.host) Samples.uploads = ["uploads/aoa.docx"] /\
  annotated_paths Samples.final_state
  = [("aoa.docx", "data/outputs/aoa_reviewed.docx"); ("notes.txt", "data/outputs/notes_reviewed.txt")].
Proof. vm_compute. split; reflexivity. Qed.

End AnnotateEveryPath.

(** ** Classification without a language model *)
Section Classify.
Import Chains.

Lemma lc_classify_doc_offline w h text labels :
  llm_available w = false -> lc_classify_doc w h text labels = (JStr "Unknown", 0%Qc).
Proof. intros Hoff. unfold lc_classify_doc, _run_json_list. now rewrite Hoff. Qed.

(** Some token of the list occurs in the text, whatever the case of its letters. *)
Definition has_token (tokens : list string) (text : string) : Prop :=
  exists tok, In tok tokens /\ contains tok (lower text) = true.

Lemma existsb_has_token tokens text :
  existsb (fun tok => contains tok (lower text)) tokens = true <-> has_token tokens text.
Proof. unfold has_token. now rewrite existsb_exists. Qed.

Lemma keyword_label_spec table text :
  (forall label, Intake.keyword_label table (lower text) = label ->
     label = "Unknown" \/ In label table.*1) /\
  (Forall (fun entry : string * list string => ~ has_token entry.2 text) table ->
   Intake.keyword_label table (lower text) = "Unknown") /\
  (forall before label tokens after,
     table = before ++ (label, tokens) :: after ->
     Forall (fun entry : string * list string => ~ has_token entry.2 text) before ->
     has_token tokens text ->
     Intake.keyword_label table (lower text) = label).
Proof.
  split; [|split].
  - induction table as [|[l ts] table IH]; intros label; cbn [Intake.keyword_label].
    + intros <-. now left.
    + destruct (existsb _ ts); [intros <-; right; now left|].
      intros H. destruct (IH _ H) as [?|?]; [now left | right; now right].
  - induction 1 as [|[l ts] table Hno _ IH]; [reflexivity|]. cbn [Intake.keyword_label].
    destruct (existsb _ ts) eqn:E; [|exact IH].
    apply existsb_has_token in E. contradiction.
  - intros before. revert table. induction before as [|[l ts] before IH];
      intros table label tokens after -> Hbefore Htok; cbn [app Intake.keyword_label].
    + apply existsb_has_token in Htok. now rewrite Htok.
    + apply Forall_cons in Hbefore as [Hno Hbefore]. cbn [snd] in Hno.
      destruct (existsb _ ts) eqn:E; [apply existsb_has_token in E; contradiction|].
      now apply (IH _ label tokens after).
Qed.

Lemma keyword_label_first table text : forall before label tokens after,
  table = before ++ (label, tokens) :: after ->
  NoDup table.*1 -> ~ In "Unknown" table.*1 ->
  Intake.keyword_label table (lower text) = label ->
  has_token tokens text /\
  Forall (fun entry : string * list string => ~ has_token entry.2 text) before.
Proof.
  intros before. revert table. induction before as [|[l ts] before IH];
    intros table label tokens after -> Hnd Hunk; cbn [app Intake.keyword_label].
  - cbn [app fmap list_fmap fst] in Hnd, Hunk. apply NoDup_cons in Hnd as [Hnotin _].
    destruct (existsb _ tokens) eqn:E.
    + intros _. split; [now apply existsb_has_token | constructor].
    + intros Hrest. destruct (proj1 (keyword_label_spec after text) _ Hrest) as [->|Hin].
      * exfalso. apply Hunk. now left.
      * exfalso. apply Hnotin. now apply list_elem_of_In.
  - cbn [app fmap list_fmap fst] in Hnd, Hunk. apply NoDup_cons in Hnd as [Hnotin Hnd].
    destruct (existsb _ ts) eqn:E.
    + intros <-. exfalso. apply Hnotin. rewrite fmap_app. apply elem_of_app. right.
      apply list_elem_of_here.
    + intros Hrest. destruct (IH _ label tokens after eq_refl Hnd) as [Htok Hbefore];
        [intros Hin; apply Hunk; now right | exact Hrest |].
      split; [exact Htok|]. constructor; [|exact Hbefore].
      cbn [snd]. intros Hts. apply existsb_has_token in Hts. congruence.
Qed.

Lemma keyword_label_unknown table text :
  ~ In "Unknown" table.*1 ->
  Intake.keyword_label table (lower text) = "Unknown" ->
  Forall (fun entry : string * list string => ~ has_token entry.2 text) table.
Proof.
  induction table as [|[l ts] table IH]; intros Hunk; cbn [Intake.keyword_label]; [constructor|].
  cbn [fmap list_fmap fst] in Hunk. destruct (existsb _ ts) eqn:E.
  - intros ->. exfalso. apply Hunk. now left.
  - intros Hrest. constructor.
    + cbn [snd]. intros Hts. apply existsb_has_token in Hts. congruence.
    + apply IH; [intros Hin; apply Hunk; now right | exact Hrest].
Qed.

(** X18. Without a language model the answer of [lc_classify_doc] is
    "Unknown", so [_classify] depends on the configured labels in one way
    only: when "Unknown" is one of them, every document is classified
    "Unknown" and the keyword heuristic is never reached; otherwise the type
    is the one of the keyword heuristic. That one is the first label of
    [DOC_TYPE_KEYWORDS] one of whose tokens occurs in the lower-cased text:
    a label is returned exactly when one of its tokens occurs and no token
    of an earlier label does, and "Unknown" exactly when no token occurs. *)
Theorem classify_without_model :
  forall (w : World) (h : Host) (text : string),
    llm_available w = false ->
    (In "Unknown" (Intake._load_labels h) -> Intake._classify w h text = "Unknown") /\
    (~ In "Unknown" (Intake._load_labels h) ->
     Intake._classify w h text = Intake.keyword_label Intake.DOC_TYPE_KEYWORDS (lower text) /\
     (Intake._classify w h text = "Unknown" <->
        Forall (fun entry : string * list string => ~ has_token entry.2 text)
          Intake.DOC_TYPE_KEYWORDS) /\
     (forall before label tokens after,
        Intake.DOC_TYPE_KEYWORDS = before ++ (label, tokens) :: after ->
        (Intake._classify w h text = label <->
           has_token tokens text /\
           Forall (fun entry : string * list string => ~ has_token entry.2 text) before))).
Proof.
  intros w h text Hoff.
  assert (Hcase : Intake._classify w h text =
            if bool_decide ("Unknown" ∈ Intake._load_labels h) then "Unknown"
            else Intake.keyword_label Intake.DOC_TYPE_KEYWORDS (lower text)).
  { unfold Intake._classify. cbv zeta. rewrite lc_classify_doc_offline by exact Hoff. cbn [fst truthy andb].
    case_bool_decide as Hnil.
    - rewrite Hnil. rewrite bool_decide_eq_false_2 by apply not_elem_of_nil. reflexivity.
    - case_bool_decide as Hin; reflexivity. }
  split.
  - intros Hin. rewrite Hcase. rewrite bool_decide_eq_true_2 by (now apply list_elem_of_In).
    reflexivity.
  - intros Hnot. rewrite Hcase.
    rewrite bool_decide_eq_false_2 by (now rewrite list_elem_of_In).
    split; [reflexivity|].
    destruct (keyword_label_spec Intake.DOC_TYPE_KEYWORDS text) as (Hin & Hnone & Hfirst).
    assert (Hnd : NoDup Intake.DOC_TYPE_KEYWORDS.*1).
    { apply (bool_decide_unpack (NoDup Intake.DOC_TYPE_KEYWORDS.*1)). vm_compute. exact I. }
    assert (Hunk : ~ In "Unknown" Intake.DOC_TYPE_KEYWORDS.*1).
    { cbn. intros H. repeat (destruct H as [H|H]; [discriminate|]). exact H. }
    split.
    + split; [|exact Hnone]. now apply keyword_label_unknown.
    + intros before label tokens after Htable. split.
      * now apply (keyword_label_first _ _ before label tokens after).
      * intros [Htok Hbefore]. now apply (Hfirst before label tokens after).
Qed.

(** An instance: no labels file, so the labels are those of the table. *)
Lemma classify_without_model_default_labels :
  (In "Unknown" (Intake._load_labels Samples.host) ->
   Intake._classify Samples.upload_world Samples.host "Memorandum of Association" = "Unknown") /\
  (~ In "Unknown" (Intake._load_labels Samples.host) ->
   Intake._classify Samples.upload_world Samples.host "Memorandum of Association"
   = Intake.keyword_label Intake.DOC_TYPE_KEYWORDS (lower "Memorandum of Association") /\
   (Intake._classify Samples.upload_world Samples.host "Memorandum of Association" = "Unknown" <->
      Forall (fun entry : string * list string => ~ has_token entry.2 "Memorandum of Association")
        Intake.DOC_TYPE_KEYWORDS) /\
   (forall before label tokens after,
      Intake.DOC_TYPE_KEYWORDS = before ++ (label, tokens) :: after ->
      (Intake._classify Samples.upload_world Samples.host "Memorandum of Association" = label <->
         has_token tokens "Memorandum of Association" /\
         Forall (fun entry : string * list string => ~ has_token entry.2 "Memorandum of Association")
           before))).
Proof.
  apply (classify_without_model Samples.upload_world Samples.host "Memorandum of Association").
  reflexivity.
Defined.

Example classify_substring_tokens :
  Intake._classify Samples.upload_world Samples.host "Memorandum of Association"
    = "Memorandum of Association" /\
  Intake._classify Samples.upload_world Samples.host "An enormous cuboid"
    = "Memorandum of Association" /\
  Intake._classify Samples.upload_world Samples.host "A cuboid" = "UBO Declaration Form".
Proof. vm_compute. repeat split; reflexivity. Qed.

End Classify.

(** ** The workflow: the issues and their source files *)
Section IssuesBySourceFile.
Import Retriever Compliance Chains ProcessIdentifier Workflow.

(** What [_heuristic_issues] returns: the flagged issues, filed under the
    file name and the display name. *)
Lemma heuristic_issues_found w file_name display_name text r found :
  _heuristic_issues w file_name display_name text r = Ok found ->
  issue <$> found = flagged_issues text /\
  Forall (fun i => source_filename i = Some file_name /\ document i = display_name) found.
Proof.
  unfold _heuristic_issues, flagged_issues.
  fold (jurisdiction_flag text) (signature_flag text) (adgm_flag text).
  destruct (flag w r (jurisdiction_flag text) _ _ ([], ∅)) as [st1|] eqn:E1; cbn [bind]; [|discriminate].
  destruct (flag w r (signature_flag text) _ _ st1) as [st2|] eqn:E2; cbn [bind]; [|discriminate].
  destruct (flag w r (adgm_flag text) _ _ st2) as [st3|] eqn:E3; cbn [bind]; [|discriminate].
  intros [= <-].
  apply flag_Ok in E1 as (a1 & H1 & C1), E2 as (a2 & H2 & C2), E3 as (a3 & H3 & C3).
  cbn [fst] in H1. rewrite H3, H2, H1.
  destruct (jurisdiction_flag text), (signature_flag text), (adgm_flag text);
    repeat match goal with
           | H : exists ev, _ |- _ => destruct H as (? & -> & ?)
           | H : _ = [] |- _ => rewrite H
           end;
    (split; [reflexivity|]); repeat constructor.
Qed.

Lemma check_compliance_offline w file_name display_name text found :
  llm_available w = false ->
  check_compliance w file_name display_name text = Ok found ->
  exists r, __init__ w 4 = Ok r /\ _heuristic_issues w file_name display_name text r = Ok found.
Proof.
  intros Hoff. unfold check_compliance. destruct (__init__ w 4) as [r|]; cbn [bind]; [|discriminate].
  rewrite Hoff. cbn [negb]. intros H. now exists r.
Qed.

Lemma compliance_loop_Ok w state : forall texts acc out,
  compliance_loop w state texts acc = Ok out ->
  exists founds,
    out = acc ++ concat founds /\
    Forall2 (fun (ft : string * string) found =>
               check_compliance w ft.1 (display_name state ft.1) ft.2 = Ok found) texts founds.
Proof.
  induction texts as [|[f t] texts IH]; intros acc out; cbn [compliance_loop].
  - intros [= <-]. exists []. rewrite app_nil_r. split; [reflexivity | constructor].
  - destruct (check_compliance w f (display_name state f) t) as [found|] eqn:Ec; cbn [bind];
      [|discriminate].
    intros Hrest. apply IH in Hrest as (founds & -> & Hf).
    exists (found :: founds). cbn [concat]. rewrite <- app_assoc. split; [reflexivity|].
    constructor; [exact Ec | exact Hf].
Qed.

Definition from_file (fname : string) (i : IssueItem) : bool :=
  bool_decide (source_filename i = Some fname).

Lemma filter_from_file_all fname found :
  Forall (fun i => source_filename i = Some fname) found -> List.filter (from_file fname) found = found.
Proof.
  induction 1 as [|i found Hi _ IH]; [reflexivity|]. cbn [List.filter]. unfold from_file at 1.
  rewrite bool_decide_eq_true_2 by exact Hi. now rewrite IH.
Qed.

Lemma filter_from_file_none fname other found :
  other <> fname ->
  Forall (fun i => source_filename i = Some other) found -> List.filter (from_file fname) found = [].
Proof.
  intros Hne. induction 1 as [|i found Hi _ IH]; [reflexivity|]. cbn [List.filter]. unfold from_file at 1.
  rewrite bool_decide_eq_false_2 by congruence. exact IH.
Qed.

(** In the concatenation of the issues of files with distinct names, the
    issues from one file are those found in it. *)
Lemma filter_concat_by_file (texts : list (string * string)) founds :
  NoDup texts.*1 ->
  Forall2 (fun (ft : string * string) found =>
             Forall (fun i => source_filename i = Some ft.1) found) texts founds ->
  Forall2 (fun (ft : string * string) found =>
             List.filter (from_file ft.1) (concat founds) = found) texts founds.
Proof.
  intros Hnd Hall.
  assert (Hgen : forall pre_t pre_f,
            Forall2 (fun (ft : string * string) found =>
                       Forall (fun i => source_filename i = Some ft.1) found) pre_t pre_f ->
            (forall ft, In ft texts -> ~ In ft.1 pre_t.*1) ->
            Forall2 (fun (ft : string * string) found =>
                       List.filter (from_file ft.1) (concat pre_f ++ concat founds) = found)
              texts founds).
  { revert Hnd. induction Hall as [|[f t] found texts founds Hfound Hall IH]; intros Hnd pre_t pre_f Hpre Hfresh;
      [constructor|].
    cbn [fmap list_fmap fst] in Hnd. apply NoDup_cons in Hnd as [Hnotin Hnd].
    constructor.
    - cbn [fst concat]. rewrite !List.filter_app.
      rewrite (filter_from_file_all f found) by exact Hfound.
      assert (Hpre0 : List.filter (from_file f) (concat pre_f) = []).
      { specialize (Hfresh (f, t) (or_introl eq_refl)). cbn [fst] in Hfresh.
        clear -Hpre Hfresh. induction Hpre as [|[f' t'] found' pre_t pre_f Hf' _ IHp]; [reflexivity|].
        cbn [concat]. rewrite List.filter_app.
        rewrite (filter_from_file_none f f' found'); [|intros ->; apply Hfresh; now left | exact Hf'].
        apply IHp. intros Hin. apply Hfresh. now right. }
      assert (Hpost : List.filter (from_file f) (concat founds) = []).
      { clear -Hall Hnotin. induction Hall as [|[f' t'] found' texts founds Hf' _ IHp]; [reflexivity|].
        cbn [concat]. rewrite List.filter_app.
        rewrite (filter_from_file_none f f' found');
          [|intros ->; apply Hnotin; apply list_elem_of_here | exact Hf'].
        apply IHp. intros Hin. apply Hnotin. now apply list_elem_of_further. }
      rewrite Hpre0, Hpost, app_nil_r. reflexivity.
    - specialize (IH Hnd (pre_t ++ [(f, t)]) (pre_f ++ [found])).
      rewrite concat_app in IH. cbn [concat] in IH. rewrite app_nil_r, <- app_assoc in IH.
      apply IH.
      + apply Forall2_app; [exact Hpre | constructor; [exact Hfound | constructor]].
      + intros ft Hin. rewrite fmap_app. intros Hin'. apply in_app_or in Hin' as [Hin'|[Heq|[]]].
        * apply (Hfresh ft); [now right | exact Hin'].
        * apply Hnotin. cbn [fst] in Heq. rewrite Heq. apply list_elem_of_fmap. exists ft.
          split; [reflexivity | now apply list_elem_of_In]. }
  apply (Hgen [] []); [constructor | intros ft _ []].
Qed.

Lemma display_name_same state state' filename :
  file_paths state = file_paths state' -> doc_types state = doc_types state' ->
  display_name state filename = display_name state' filename.
Proof. unfold display_name, type_map. now intros -> ->. Qed.

(** X20. Without a language model, whenever the workflow reaches the
    checklist, the issues of the final state are, file by file in the order
    of the cache, the issues that the heuristic checks find in the cached
    text of the file: those flagged by the text, each filed under the base
    name of the file as source file and under its display name as document.
    The base names in the cache being distinct, the issues whose source file
    is a given cached file are exactly the ones found in its text, and
    [node_annotate] passes all of them to the annotation of an upload with
    that base name. *)
Theorem workflow_issues_by_source_file :
  forall (w : World) (h : Host) (paths : list string) (target_process : option string)
         (final_state : WorkflowState) (process : Json) (process_conf : option Qc),
    llm_available w = false ->
    run_workflow w h paths target_process = Ok (final_state, process, process_conf) ->
    exists founds,
      issues final_state = concat founds /\
      Forall2 (fun (ft : string * string) found =>
                 (exists r, __init__ w 4 = Ok r /\
                    _heuristic_issues w ft.1 (display_name final_state ft.1) ft.2 r = Ok found) /\
                 issue <$> found = flagged_issues ft.2 /\
                 Forall (fun i => source_filename i = Some ft.1 /\
                                  document i = display_name final_state ft.1) found /\
                 List.filter (from_file ft.1) (issues final_state) = found /\
                 (forall i, In i found -> In i (matching (issues final_state) ft.1)))
        (intake_cache final_state) founds.
Proof.
  intros w h paths target_process final_state process process_conf Hoff. unfold run_workflow.
  destruct (invoke w h _) as [fs|] eqn:Einv; cbn [bind]; [|discriminate].
  destruct (reported_process w h fs) as [pr cf]. intros [= <- <- <-].
  apply invoke_Ok in Einv as (state1 & state2 & Hi & Hc & _ & Hf & Hd & Hcache & _ & _ & Hiss).
  destruct (node_process_id_keeps w h state1) as (Hf1 & Hd1 & Hc1 & _).
  apply node_intake_Ok in Hi as (docs & _ & Hf0 & _ & Hcache1).
  assert (Hdisp : forall filename,
            display_name (node_process_id w h state1) filename = display_name fs filename).
  { intros filename. apply display_name_same; congruence. }
  unfold node_compliance in Hc.
  destruct (compliance_loop w _ (intake_cache (node_process_id w h state1)) []) as [found_all|] eqn:El;
    cbn [bind] in Hc; [|discriminate].
  injection Hc as <-. cbn [issues] in Hiss.
  apply compliance_loop_Ok in El as (founds & Hall & Hfounds). cbn [app] in Hall. subst found_all.
  rewrite Hc1, <- Hcache in Hfounds.
  exists founds. split; [exact Hiss|].
  assert (Hfacts : Forall2 (fun (ft : string * string) found =>
             (exists r, __init__ w 4 = Ok r /\
                _heuristic_issues w ft.1 (display_name fs ft.1) ft.2 r = Ok found) /\
             issue <$> found = flagged_issues ft.2 /\
             Forall (fun i => source_filename i = Some ft.1 /\
                              document i = display_name fs ft.1) found)
            (intake_cache fs) founds).
  { eapply Forall2_impl; [exact Hfounds|]. intros [f t] found Hcheck. cbn [fst snd] in *.
    rewrite Hdisp in Hcheck.
    apply check_compliance_offline in Hcheck as (r & Hr & Hh); [|exact Hoff].
    split; [now exists r|]. now apply heuristic_issues_found in Hh. }
  assert (Hfilter : Forall2 (fun (ft : string * string) found =>
             List.filter (from_file ft.1) (concat founds) = found) (intake_cache fs) founds).
  { apply filter_concat_by_file.
    - rewrite Hcache, Hcache1. apply of_pairs_NoDup.
    - eapply Forall2_impl; [exact Hfacts|]. intros ft found (_ & _ & Hsrc).
      eapply Forall_impl; [exact Hsrc|]. now intros i [? _]. }
  rewrite Hiss.
  apply Forall2_same_length_lookup_2; [eapply Forall2_length; eauto|].
  intros j ft found Hft Hfound.
  destruct (Forall2_lookup_lr _ _ _ _ _ _ Hfacts Hft Hfound) as (Hr & Hflag & Hsrc).
  pose proof (Forall2_lookup_lr _ _ _ _ _ _ Hfilter Hft Hfound) as Hfil. cbn beta in Hfil.
  split; [exact Hr|]. split; [exact Hflag|]. split; [exact Hsrc|]. split; [exact Hfil|].
  intros i Hin. unfold matching. apply filter_In. split.
  - rewrite <- Hfil in Hin. apply filter_In in Hin as [Hin _]. exact Hin.
  - apply orb_true_iff. left. apply bool_decide_eq_true_2.
    apply (proj1 (List.Forall_forall _ _) Hsrc i Hin).
Qed.

(** An instance: the run on the two uploads of the samples. *)
Lemma workflow_two_uploads_issues :
  exists founds,
    issues Samples.final_state = concat founds /\
    Forall2 (fun (ft : string * string) found =>
               (exists r, __init__ Samples.upload_world 4 = Ok r /\
                  _heuristic_issues Samples.upload_world ft.1
                    (display_name Samples.final_state ft.1) ft.2 r = Ok found) /\
               issue <$> found = flagged_issues ft.2 /\
               Forall (fun i => source_filename i = Some ft.1 /\
                                document i = display_name Samples.final_state ft.1) found /\
               List.filter (from_file ft.1) (issues Samples.final_state) = found /\
               (forall i, In i found -> In i (matching (issues Samples.final_state) ft.1)))
      (intake_cache Samples.final_state) founds.
Proof.
  apply (workflow_issues_by_source_file Samples.upload_world Samples.host Samples.uploads None
           Samples.final_state Samples.reported.1 Samples.reported.2).
  - reflexivity.
  - vm_compute. reflexivity.
Defined.

Example workflow_two_uploads_issue_texts :
  issue <$> issues Samples.final_state
  = ["Jurisdiction references non-ADGM courts."; "Document does not explicitly reference ADGM."] /\
  matching (issues Samples.final_state) "aoa.docx" = issues Samples.final_state /\
  matching (issues Samples.final_state) "notes.txt" = [].
Proof. vm_compute. repeat split; reflexivity. Qed.

End IssuesBySourceFile.
